(** * VideoMerger: a shallow embedding of the video concatenation tool

    The repository holds two revisions of one Go program:
    [video_merger.go] (module [VideoMerger] below) and an earlier
    revision of the same [main] package (module [Legacy] below).
    Both read [config.json], resolve the list of source videos, render
    title-card frames for every transition, call [ffmpeg] once per
    transition and once for the final concatenation, and remove their
    temporary artifacts through deferred calls.

    Go strings are byte sequences and are modelled by [string]
    (lists of 8-bit [ascii]); Go [int] is the 64-bit two's complement
    integer and is modelled by [Z] with its wrap-around written out.
    Paths follow the Unix flavour of [path/filepath]. *)

From Stdlib Require Import List Bool Arith ZArith Lia.

From Stdlib Require Import Ascii String.

From Stdlib Require Import Sorting.Sorted Sorting.Permutation.

From Stdlib Require Import Numbers.DecimalString DecimalN DecimalPos.

From Stdlib Require Import PrimFloat.

Import ListNotations.

Open Scope string_scope.

Open Scope Z_scope.

(** ** Bytes and strings *)

Definition byte_val (c : ascii) : Z := Z.of_N (N_of_ascii c).

Definition byte_between (lo hi : Z) (c : ascii) : bool :=
  (lo <=? byte_val c) && (byte_val c <=? hi).

Definition chars (s : string) : list ascii := list_ascii_of_string s.

Definition str (l : list ascii) : string := string_of_list_ascii l.

(** [strings.HasPrefix]. *)
Definition HasPrefix (s p : string) : bool := String.prefix p s.

(** [strings.TrimPrefix]: [s] without the leading [p], or [s] itself. *)
Definition TrimPrefix (s p : string) : string :=
  if HasPrefix s p
  then String.substring (String.length p) (String.length s - String.length p) s
  else s.

(** ** Integers *)

(** Go's [int] on a 64-bit platform. *)
Definition wrap_int (z : Z) : Z := (z + 2 ^ 63) mod 2 ^ 64 - 2 ^ 63.

Definition int_mul (a b : Z) : Z := wrap_int (a * b).

(** The conversion [uint8(x)] of an [int]. *)
Definition uint8 (z : Z) : Z := z mod 256.

(** ** [fmt] verbs used by the program *)

(** Decimal digits of a natural number. *)
Definition digits (n : Z) : string :=
  NilZero.string_of_uint (N.to_uint (Z.to_N n)).

Fixpoint zeros (n : nat) : string :=
  match n with
  | O => ""
  | S k => String "0" (zeros k)
  end.

(** [%d]. *)
Definition fmt_d (z : Z) : string :=
  if z <? 0 then "-" ++ digits (- z) else digits z.

(** [%0wd]: the sign comes first and zeros fill the width. *)
Definition fmt_0d (w : nat) (z : Z) : string :=
  let pad (k : nat) (d : string) := zeros (k - String.length d) ++ d in
  if z <? 0 then "-" ++ pad (w - 1)%nat (digits (- z)) else pad w (digits z).

(** ** Colours *)

(** [color.RGBA] of package [image/color]. *)
Record RGBA := mkRGBA { R : Z; G : Z; B : Z; Alpha : Z }.

Definition black : RGBA := mkRGBA 0 0 0 255.

(** *** The part of [fmt.Sscanf] that the colour parsers use

    The scanner reads the input left to right.  A literal byte of the
    format must match the next input byte.  A verb [%<w>x] first skips
    white space (a newline is an error), then reads a token of at most
    [w] runes: an optional sign followed by at least one hexadecimal
    digit, and stores its value.  The first error stops the scan;
    arguments stored so far keep their values.  Input left over after
    the last verb is not an error. *)

(** Number of bytes of the white-space rune at the head of the input
    (the table [space] of package [fmt]), newline excluded. *)
Definition space_rune (s : string) : option nat :=
  match s with
  | String c r =>
      if (byte_between 9 9 c || byte_between 11 13 c || byte_between 32 32 c)%bool
      then Some 1%nat
      else
        match byte_val c, r with
        | 194, String d _ =>
            if (byte_between 133 133 d || byte_between 160 160 d)%bool
            then Some 2%nat else None
        | 225, String d (String e _) =>
            if (byte_between 154 154 d && byte_between 128 128 e)%bool
            then Some 3%nat else None
        | 226, String d (String e _) =>
            if (byte_between 128 128 d &&
                (byte_between 128 138 e || byte_between 168 169 e
                 || byte_between 175 175 e))%bool
            then Some 3%nat
            else if (byte_between 129 129 d && byte_between 159 159 e)%bool
            then Some 3%nat else None
        | 227, String d (String e _) =>
            if (byte_between 128 128 d && byte_between 128 128 e)%bool
            then Some 3%nat else None
        | _, _ => None
        end
  | EmptyString => None
  end.

Definition drop (n : nat) (s : string) : string :=
  String.substring n (String.length s - n) s.

(** [SkipSpace] of the scan state, with [nlIsSpace = false]; [None] is the
    "unexpected newline" error.  The fuel is the input length. *)
Fixpoint skip_space_fuel (fuel : nat) (s : string) : option string :=
  match fuel with
  | O => Some s
  | S k =>
      match s with
      | String c _ =>
          if byte_between 10 10 c then None
          else match space_rune s with
               | Some n => skip_space_fuel k (drop n s)
               | None => Some s
               end
      | EmptyString => Some s
      end
  end.

Definition SkipSpace (s : string) : option string :=
  skip_space_fuel (S (String.length s)) s.

(** Value of a hexadecimal digit ([hexadecimalDigits]). *)
Definition hex_digit (c : ascii) : option Z :=
  if byte_between 48 57 c then Some (byte_val c - 48)
  else if byte_between 97 102 c then Some (byte_val c - 87)
  else if byte_between 65 70 c then Some (byte_val c - 55)
  else None.

Definition is_sign (c : ascii) : bool :=
  (byte_between 43 43 c || byte_between 45 45 c)%bool.

(** The loop [for s.accept(digits) {}] under the argument limit [w],
    accumulating the base-16 value as [strconv.ParseInt] does. *)
Fixpoint accept_hex (w : nat) (acc : Z) (s : string) : Z * string :=
  match w, s with
  | S k, String c r =>
      match hex_digit c with
      | Some v => accept_hex k (16 * acc + v) r
      | None => (acc, s)
      end
  | _, _ => (acc, s)
  end.

(** [scanNumber]: [notEOF], then one digit is required. *)
Definition scanNumber (w : nat) (s : string) : option (Z * string) :=
  match w, s with
  | S k, String c r =>
      match hex_digit c with
      | Some v => Some (accept_hex k v r)
      | None => None
      end
  | _, _ => None
  end.

(** The verb [%<w>x] stored into an [*int]. *)
Definition scan_hex (w : nat) (s : string) : option (Z * string) :=
  match SkipSpace s with
  | None => None
  | Some s1 =>
      match w, s1 with
      | S k, String c r =>
          if is_sign c then
            match scanNumber k r with
            | Some (v, rest) =>
                Some (if byte_between 45 45 c then - v else v, rest)
            | None => None
            end
          else scanNumber w s1
      | _, _ => None
      end
  end.

(** Three verbs [%02x%02x%02x] in a row: the values stored before the
    first error, and whether an error was met. *)
Definition scan_rgb (s : string) (r g b : Z) : (Z * Z * Z) * bool :=
  match scan_hex 2 s with
  | None => ((r, g, b), true)
  | Some (r', s1) =>
      match scan_hex 2 s1 with
      | None => ((r', g, b), true)
      | Some (g', s2) =>
          match scan_hex 2 s2 with
          | None => ((r', g', b), true)
          | Some (b', _) => ((r', g', b'), false)
          end
      end
  end.

(** [fmt.Sscanf(hex, "#%02x%02x%02x", &r, &g, &b)]. *)
Definition Sscanf_hash_rgb (hex : string) (r g b : Z) : (Z * Z * Z) * bool :=
  match hex with
  | String "#" rest => scan_rgb rest r g b
  | _ => ((r, g, b), true)
  end.

(** [hexToRGBA]: the error of [Sscanf] is dropped. *)
Definition hexToRGBA (hex : string) : RGBA :=
  let '((r, g, b), _) := Sscanf_hash_rgb hex 0 0 0 in
  mkRGBA (uint8 r) (uint8 g) (uint8 b) 255.

(** [hexToRGBA2] of [video_merger.go]; [main] does not call it. *)
Definition hexToRGBA2 (hex : string) : RGBA :=
  let hex := TrimPrefix hex "#" in
  if (String.length hex =? 6)%nat then
    let '((ri, gi, bi), err) := scan_rgb hex 0 0 0 in
    if err then mkRGBA 0 0 0 255
    else mkRGBA (uint8 ri) (uint8 gi) (uint8 bi) 255
  else mkRGBA 0 0 0 255.

(** ** [path/filepath] (Unix) and [strings] *)

Definition is_sep (c : ascii) : bool := byte_between 47 47 c.

Definition is_dot (c : ascii) : bool := byte_between 46 46 c.

(** [filepath.Ext]: the loop runs from the last byte towards the first,
    stops at a separator and returns [path[i:]] at the first dot.
    [rpath] is what is left of the path, last byte first, and [tail]
    is [path[i+1:]]. *)
Fixpoint ext_scan (rpath tail : list ascii) : list ascii :=
  match rpath with
  | [] => []
  | c :: r =>
      if is_sep c then []
      else if is_dot c then c :: tail
      else ext_scan r (c :: tail)
  end.

Definition Ext (path : string) : string :=
  str (ext_scan (rev (chars path)) []).

(** *** UTF-8, as package [unicode/utf8] decodes and encodes it *)

Definition RuneError : Z := 65533.

Definition MaxRune : Z := 1114111.

(** The conversion [byte(x)]. *)
Definition byte_of (z : Z) : ascii := ascii_of_N (Z.to_N (z mod 256)).

(** The second byte that the first byte [b0] of an encoding of more
    than one byte accepts ([acceptRanges]), and the size of the
    encoding; [None] for a byte that starts no encoding. *)
Definition first_info (b0 : Z) : option (nat * Z * Z) :=
  if (194 <=? b0) && (b0 <=? 223) then Some (2%nat, 128, 191)
  else if b0 =? 224 then Some (3%nat, 160, 191)
  else if b0 =? 237 then Some (3%nat, 128, 159)
  else if (225 <=? b0) && (b0 <=? 239) then Some (3%nat, 128, 191)
  else if b0 =? 240 then Some (4%nat, 144, 191)
  else if (241 <=? b0) && (b0 <=? 243) then Some (4%nat, 128, 191)
  else if b0 =? 244 then Some (4%nat, 128, 143)
  else None.

(** [utf8.DecodeRuneInString]: the rune at the head of the input and
    its width; an encoding that is invalid or cut short gives
    [(RuneError, 1)], the empty input [(RuneError, 0)]. *)
Definition DecodeRune (s : string) : Z * nat :=
  match s with
  | EmptyString => (RuneError, 0%nat)
  | String c0 r0 =>
      let s0 := byte_val c0 in
      if s0 <? 128 then (s0, 1%nat)
      else
        match first_info s0 with
        | None => (RuneError, 1%nat)
        | Some (sz, lo, hi) =>
            match r0 with
            | String c1 r1 =>
                let s1 := byte_val c1 in
                if (s1 <? lo) || (hi <? s1) then (RuneError, 1%nat)
                else if (sz <=? 2)%nat then
                  (Z.lor (Z.shiftl (Z.land s0 31) 6) (Z.land s1 63), 2%nat)
                else
                  match r1 with
                  | String c2 r2 =>
                      let s2 := byte_val c2 in
                      if (s2 <? 128) || (191 <? s2) then (RuneError, 1%nat)
                      else if (sz <=? 3)%nat then
                        (Z.lor (Z.lor (Z.shiftl (Z.land s0 15) 12)
                                      (Z.shiftl (Z.land s1 63) 6))
                               (Z.land s2 63), 3%nat)
                      else
                        match r2 with
                        | String c3 _ =>
                            let s3 := byte_val c3 in
                            if (s3 <? 128) || (191 <? s3)
                            then (RuneError, 1%nat)
                            else
                              (Z.lor (Z.lor (Z.lor (Z.shiftl (Z.land s0 7) 18)
                                                   (Z.shiftl (Z.land s1 63) 12))
                                            (Z.shiftl (Z.land s2 63) 6))
                                     (Z.land s3 63), 4%nat)
                        | EmptyString => (RuneError, 1%nat)
                        end
                  | EmptyString => (RuneError, 1%nat)
                  end
            | EmptyString => (RuneError, 1%nat)
            end
        end
  end.

(** [utf8.AppendRune]: a rune out of range or a surrogate half is
    written as [RuneError]. *)
Definition EncodeRune (r : Z) : string :=
  let cont (x : Z) := byte_of (Z.lor 128 (Z.land x 63)) in
  if (0 <=? r) && (r <=? 127) then String (byte_of r) ""
  else if (0 <=? r) && (r <=? 2047) then
    String (byte_of (Z.lor 192 (Z.shiftr r 6))) (String (cont r) "")
  else
    let r := if (r <? 0) || (MaxRune <? r)
                || ((55296 <=? r) && (r <=? 57343))
             then RuneError else r in
    if r <=? 65535 then
      String (byte_of (Z.lor 224 (Z.shiftr r 12)))
        (String (cont (Z.shiftr r 6)) (String (cont r) ""))
    else
      String (byte_of (Z.lor 240 (Z.shiftr r 18)))
        (String (cont (Z.shiftr r 12))
           (String (cont (Z.shiftr r 6)) (String (cont r) ""))).

(** [strings.Map]: every rune of the input, an invalid byte counting
    as [RuneError], is replaced by its image, and dropped when the
    image is negative.  (The library copies the bytes before the first
    rune that changes; they are the encodings of their runes.)  The
    fuel is the length of the input. *)
Fixpoint map_runes (fuel : nat) (mapping : Z -> Z) (s : string) : string :=
  match fuel with
  | O => ""
  | S k =>
      match s with
      | EmptyString => ""
      | _ =>
          let '(c, width) := DecodeRune s in
          let r := mapping c in
          (if 0 <=? r then EncodeRune r else "")
          ++ map_runes k mapping (drop width s)
      end
  end.

Definition Map (mapping : Z -> Z) (s : string) : string :=
  map_runes (String.length s) mapping s.

(** *** [strings.ToLower] *)

(** The lower-case form of an ASCII byte. *)
Definition lower_byte (c : ascii) : ascii :=
  if byte_between 65 90 c
  then ascii_of_N (N_of_ascii c + 32)
  else c.

Fixpoint lower_bytes (s : string) : string :=
  match s with
  | EmptyString => EmptyString
  | String c r => String (lower_byte c) (lower_bytes r)
  end.

(** [unicode.ToLower].  For the runes from 128 on it consults the case
    tables of package [unicode], which are not part of the repository:
    [table r] stands for [unicode.To(unicode.LowerCase, r)]. *)
Definition unicode_ToLower (table : Z -> Z) (r : Z) : Z :=
  if r <=? 127 then
    if (65 <=? r) && (r <=? 90) then r + 32 else r
  else table r.

Fixpoint isASCII (s : string) : bool :=
  match s with
  | EmptyString => true
  | String c r => (byte_val c <? 128) && isASCII r
  end.

(** [strings.ToLower]: a string of ASCII bytes is lowered byte by
    byte; any other string goes through [Map] with
    [unicode.ToLower]. *)
Definition ToLower (table : Z -> Z) (s : string) : string :=
  if isASCII s then lower_bytes s else Map (unicode_ToLower table) s.

(** [filepath.Base]. *)
Fixpoint drop_seps (rpath : list ascii) : list ascii :=
  match rpath with
  | c :: r => if is_sep c then drop_seps r else rpath
  | [] => []
  end.

Fixpoint last_elem (rpath tail : list ascii) : list ascii :=
  match rpath with
  | [] => tail
  | c :: r => if is_sep c then tail else last_elem r (c :: tail)
  end.

Definition Base (path : string) : string :=
  match path with
  | EmptyString => "."
  | _ =>
      match last_elem (drop_seps (rev (chars path))) [] with
      | [] => "/"
      | e => str e
      end
  end.

(** [filepath.Clean].  The path is cut at its separators; empty and
    [.] elements are dropped, a [..] element removes the element
    before it, or is kept in front of a path that is not rooted. *)
Fixpoint rsplit (rpath cur : list ascii) : list (list ascii) :=
  match rpath with
  | [] => [cur]
  | c :: r => if is_sep c then rsplit r [] ++ [cur] else rsplit r (c :: cur)
  end.

Definition elements (path : list ascii) : list (list ascii) :=
  rsplit (rev path) [].

Definition is_dot_elem (e : list ascii) : bool :=
  match e with
  | [c] => is_dot c
  | _ => false
  end.

Definition is_dotdot_elem (e : list ascii) : bool :=
  match e with
  | [c; d] => is_dot c && is_dot d
  | _ => false
  end.

(** The output buffer of [Clean]: the number of leading [..] elements
    and, last first, the elements written after them. *)
Definition clean_step (rooted : bool) (buf : nat * list (list ascii))
    (e : list ascii) : nat * list (list ascii) :=
  let '(dotdot, out) := buf in
  match e with
  | [] => buf
  | _ =>
      if is_dot_elem e then buf
      else if is_dotdot_elem e then
        match out with
        | _ :: out' => (dotdot, out')
        | [] => if rooted then buf else (S dotdot, [])
        end
      else (dotdot, e :: out)
  end.

Fixpoint join_elems (es : list (list ascii)) : list ascii :=
  match es with
  | [] => []
  | [e] => e
  | e :: r => e ++ "/"%char :: join_elems r
  end.

Definition Clean (path : string) : string :=
  match path with
  | EmptyString => "."
  | String c _ =>
      let rooted := is_sep c in
      let '(dotdot, out) :=
        fold_left (clean_step rooted) (elements (chars path)) (O, []) in
      let body := join_elems (repeat [("."%char); ("."%char)] dotdot ++ rev out) in
      match (if rooted then "/"%char :: body else body) with
      | [] => "."
      | l => str l
      end
  end.

(** [filepath.Join] of two elements that are not empty. *)
Definition Join (dir name : string) : string :=
  Clean (dir ++ "/" ++ name).

(** ** [sort.Strings]

    Go compares strings byte by byte, which is [String.leb].  A list
    has one sorted arrangement under this order, so the sorting
    algorithm does not matter; insertion is used here. *)

Fixpoint insert_sorted (x : string) (l : list string) : list string :=
  match l with
  | [] => [x]
  | y :: r => if String.leb x y then x :: l else y :: insert_sorted x r
  end.

Fixpoint sort_Strings (l : list string) : list string :=
  match l with
  | [] => []
  | x :: r => insert_sorted x (sort_Strings r)
  end.

Definition string_le (a b : string) : Prop := String.leb a b = true.

Definition sorted (l : list string) : Prop := Sorted string_le l.

(** [sort.StringsAreSorted]. *)
Fixpoint StringsAreSorted (l : list string) : bool :=
  match l with
  | x :: ((y :: _) as r) => String.leb x y && StringsAreSorted r
  | _ => true
  end.

(** ** Configuration ([config.json]) *)

Record Destination := { Output : string; IntermediateTextDir : string }.

Record FontConfig := { Path : string; Size : float }.

Record FrameConfig := { Width : Z; Height : Z; Rate : Z }.

Record TextConfig := { Color : string; Background : string; Duration : Z }.

Record Config := {
  Dest : Destination;
  Source : list string;
  Font : FontConfig;
  Frame : FrameConfig;
  Text : TextConfig
}.

(** ** The world outside the program *)

Definition error := string.

(** One call of the walk function by [filepath.WalkDir] or
    [filepath.Walk]: the path, whether the entry is a directory
    ([None] when no entry could be read), and the error handed in. *)
Record Visit := {
  visit_path : string;
  visit_dir : option bool;
  visit_err : option error
}.

Definition IsDir (v : Visit) : bool :=
  match visit_dir v with
  | Some b => b
  | None => false
  end.

(** A font face as loaded by [gg.LoadFontFace]. *)
Record Face := { face_path : string; face_size : float }.

(** What one frame's drawing calls fix: [NewContext (w, h)],
    [SetColor bg; Clear], [SetColor fg; SetFontFace face] and the text
    drawn with anchor (0.5, 0.5) at (w/2, h/2). *)
Record Image := {
  img_width : Z;
  img_height : Z;
  img_background : RGBA;
  img_color : RGBA;
  img_face : Face;
  img_text : string
}.

(** The calls whose error [main] checks.  [Walk] stands for
    [filepath.WalkDir] and [filepath.Walk], [Create] for
    [os.CreateTemp] and [os.Create] with the name of the file made,
    [Run] for [exec.Command(...).Run()] with the command line. *)
Inductive Op :=
| ReadFile (name : string)
| Unmarshal (data : string)
| Walk (root : string)
| MkdirAll (path : string)
| LoadFontFace (path : string) (points : float)
| SavePNG (path : string) (img : Image)
| Create (name : string)
| Run (args : list string)
| WriteString (file s : string)
| Sync (file : string).

(** The calls that [main] defers. *)
Inductive Deferred :=
| Remove (name : string)
| RemoveAll (path : string)
| Close (file : string).

Inductive Event :=
| Call (op : Op) (err : option error)
| Printed (s : string)
| Ran (d : Deferred).

Record Time := {
  Day : Z; Month : Z; Year : Z; Hour : Z; Minute : Z; Second : Z
}.

(** The environment of one run.  [fails k] is the error of the
    [k]-th call that consults the operating system or [ffmpeg]
    ([None]: the call succeeds); [lower_case] is the lower-case
    mapping of the tables of package [unicode] (see
    [unicode_ToLower]). *)
Record Env := {
  fails : nat -> option error;
  config_data : string;
  config_json : Config;
  walk : string -> list Visit;
  temp_name : string;
  now : Time;
  lower_case : Z -> Z
}.

(** The state of one run: the number of fallible calls made, the paths
    that exist, everything that happened so far (oldest first), and
    the stack of deferred calls (latest first). *)
Record World := {
  clock : nat;
  files : list string;
  trace : list Event;
  deferred : list Deferred
}.

(** The parent directories of a path, the nearest first, as
    [os.MkdirAll] finds them: the separators at the end and the last
    element are cut off, and again, as long as something is left.
    A parent is named without a separator at its end. *)
Fixpoint drop_elem (rpath : list ascii) : list ascii :=
  match rpath with
  | c :: r => if is_sep c then rpath else drop_elem r
  | [] => []
  end.

Definition parent (path : string) : string :=
  str (rev (drop_seps (drop_elem (drop_seps (rev (chars path)))))).

Fixpoint parents_fuel (fuel : nat) (path : string) : list string :=
  match fuel with
  | O => []
  | S k =>
      let p := parent path in
      if String.eqb p "" then [] else p :: parents_fuel k p
  end.

Definition parents (path : string) : list string :=
  parents_fuel (String.length path) path.

(** The paths that exist once a call has succeeded: the directory
    with all its parents ([os.MkdirAll] makes the ones that are
    missing), the image, the file list, or the output named by the
    last argument of [ffmpeg].  A call that fails is taken to leave
    nothing behind. *)
Definition creates (op : Op) : list string :=
  match op with
  | MkdirAll path => path :: parents path
  | SavePNG path _ => [path]
  | Create name => [name]
  | Run args => [last args ""]
  | _ => []
  end.

(** [endsWithDot] of package [os]. *)
Definition endsWithDot (path : string) : bool :=
  String.eqb path "."
  || match rev (chars path) with
     | c :: d :: _ => is_dot c && is_sep d
     | _ => false
     end.

(** The paths on which [os.RemoveAll] does its work.  On the empty
    path it returns at once, and a path that ends in a [.] element it
    refuses with [EINVAL]; [main] drops the error. *)
Definition RemoveAll_works (path : string) : bool :=
  negb (String.eqb path "") && negb (endsWithDot path).

(** [os.Remove] and [os.RemoveAll] on the set of paths; [main] drops
    their errors.  [os.Remove] is taken to remove the file it names,
    and [os.RemoveAll], where it works, the path and all that is under
    it.  Paths are compared as strings. *)
Definition under (dir p : string) : bool :=
  String.eqb p dir || String.prefix (dir ++ "/") p.

Definition run_deferred_call (d : Deferred) (fs : list string) : list string :=
  match d with
  | Remove name => filter (fun p => negb (String.eqb p name)) fs
  | RemoveAll path =>
      if RemoveAll_works path
      then filter (fun p => negb (under path p)) fs
      else fs
  | Close _ => fs
  end.

(** *** The monad of [main]

    A computation maps a world to a world and either a value or
    [None], which says that [main] has executed [return]. *)

Definition M (T : Type) : Type := World -> option T * World.

Definition ret {T} (x : T) : M T := fun w => (Some x, w).

Definition bind {T U} (m : M T) (k : T -> M U) : M U :=
  fun w =>
    match m w with
    | (Some x, w') => k x w'
    | (None, w') => (None, w')
    end.

Notation "x <- m ;; k" := (bind m (fun x => k))
  (at level 61, m at next level, right associativity).

Notation "m ;; k" := (bind m (fun _ => k))
  (at level 61, right associativity).

(** The statement [return] of [main]. *)
Definition return_ {T} : M T := fun w => (None, w).

Definition emit (e : Event) (w : World) : World :=
  {| clock := clock w; files := files w;
     trace := trace w ++ [e]; deferred := deferred w |}.

(** [fmt.Printf] and [fmt.Println] with the text already formatted. *)
Definition Print (s : string) : M unit := fun w => (Some tt, emit (Printed s) w).

(** [defer]. *)
Definition defer (d : Deferred) : M unit :=
  fun w => (Some tt,
            {| clock := clock w; files := files w;
               trace := trace w; deferred := d :: deferred w |}).

(** [if err != nil { ... }]. *)
Definition if_err (err : option error) (handler : error -> M unit) : M unit :=
  match err with
  | Some e => handler e
  | None => ret tt
  end.

(** [for _, x := range l { body }]. *)
Fixpoint range {T} (l : list T) (body : T -> M unit) : M unit :=
  match l with
  | [] => ret tt
  | x :: r => body x ;; range r body
  end.

(** The slice with its indices, as [for i, x := range l] yields them. *)
Definition indexed {T} (l : list T) : list (Z * T) :=
  combine (map Z.of_nat (seq 0 (List.length l))) l.

(** The values of [j] in [for j := 0; j < n; j++]. *)
Definition upto (n : Z) : list Z := map Z.of_nat (seq 0 (Z.to_nat n)).

(** The deferred calls run when [main] returns, latest first. *)
Fixpoint run_deferred (ds : list Deferred) (w : World) : World :=
  match ds with
  | [] => w
  | d :: r =>
      run_deferred r
        {| clock := clock w; files := run_deferred_call d (files w);
           trace := trace w ++ [Ran d]; deferred := r |}
  end.

(** One run of a [main]: its body, then its deferred calls. *)
Definition exec (body : M unit) (w : World) : World :=
  let w' := snd (body w) in run_deferred (deferred w') w'.

Definition start (fs : list string) : World :=
  {| clock := O; files := fs; trace := []; deferred := [] |}.

Section Calls.

Variable env : Env.

(** A fallible call: its outcome comes from the environment. *)
Definition call (op : Op) : M (option error) :=
  fun w =>
    let err := fails env (clock w) in
    (Some err,
     {| clock := S (clock w);
        files := match err with
                 | None => (creates op ++ files w)%list
                 | Some _ => files w
                 end;
        trace := trace w ++ [Call op err];
        deferred := deferred w |}).

(** A call whose outcome [err] is computed from its input. *)
Definition call_with (op : Op) (err : option error) : M (option error) :=
  fun w => (Some err, emit (Call op err) w).

End Calls.

(** ** Pieces shared by the two revisions *)

Definition nl : string := String (ascii_of_nat 10) EmptyString.

(** The walk stops at the first error its function returns; [videos]
    is the slice that the function appends to. *)
Fixpoint run_walk (fn : Visit -> list string -> list string * option error)
    (visits : list Visit) (videos : list string) : list string * option error :=
  match visits with
  | [] => (videos, None)
  | v :: r =>
      match fn v videos with
      | (videos', Some e) => (videos', Some e)
      | (videos', None) => run_walk fn r videos'
      end
  end.

(** A Go [map[string]bool]: a missing key reads as [false]. *)
Fixpoint map_get (m : list (string * bool)) (k : string) : bool :=
  match m with
  | [] => false
  | (k', v) :: r => if String.eqb k k' then v else map_get r k
  end.

(** [output] when the configuration leaves it empty. *)
Definition default_output (t : Time) : string :=
  "./dest/output_" ++ fmt_0d 2 (Day t) ++ "_" ++ fmt_0d 2 (Month t) ++ "_"
  ++ fmt_d (Year t) ++ "_" ++ fmt_0d 2 (Hour t) ++ "_"
  ++ fmt_0d 2 (Minute t) ++ "_" ++ fmt_0d 2 (Second t) ++ ".mp4".

Definition framePath (dir : string) (i j : Z) : string :=
  dir ++ "/text_" ++ fmt_d i ++ "_frame_" ++ fmt_0d 5 j ++ ".png".

Definition textFramesPattern (dir : string) (i : Z) : string :=
  dir ++ "/text_" ++ fmt_d i ++ "_frame_%05d.png".

Definition textVideo (i : Z) : string :=
  "text_transition_" ++ fmt_d i ++ ".mp4".

Definition file_line (path : string) : string := "file '" ++ path ++ "'" ++ nl.

Definition encode_cmd (rate : Z) (pattern clip : string) : list string :=
  ["ffmpeg"; "-y"; "-framerate"; fmt_d rate; "-i"; pattern;
   "-c:v"; "libx264"; "-pix_fmt"; "yuv420p"; clip].

Definition concat_cmd (list_name output : string) : list string :=
  ["ffmpeg"; "-y"; "-f"; "concat"; "-safe"; "0"; "-i"; list_name;
   "-c"; "copy"; output].

(** [fmt.Println] of a slice of strings. *)
Definition show_slice (l : list string) : string :=
  "[" ++ String.concat " " l ++ "]".

(** ** [video_merger.go] *)

Module VideoMerger.

Section Program.

Variable env : Env.

Definition allowedExt : list (string * bool) :=
  [(".mp4", true); (".mov", true); (".avi", true); (".mkv", true)].

(** The function literal handed to [filepath.WalkDir]. *)
Definition walkFn (v : Visit) (videos : list string)
  : list string * option error :=
  match visit_err v with
  | Some err => (videos, Some err)
  | None =>
      if negb (IsDir v) then
        let ext := ToLower (lower_case env) (Ext (visit_path v)) in
        if map_get allowedExt ext
        then ((videos ++ [Clean (visit_path v)])%list, None)
        else (videos, None)
      else (videos, None)
  end.

Definition getVideoFiles (sourceDir : string) : list string * option error :=
  let '(videos, err) := run_walk walkFn (walk env sourceDir) [] in
  match err with
  | Some e => ([], Some ("error walking directory: " ++ e))
  | None => (sort_Strings videos, None)
  end.

(** [--- Load Config ---] *)
Definition loadConfig : M Config :=
  let configFile := "config.json" in
  err <- call env (ReadFile configFile) ;;
  if_err err (fun e =>
    Print ("Error reading config file: " ++ e ++ nl) ;; return_) ;;
  err <- call env (Unmarshal (config_data env)) ;;
  if_err err (fun e =>
    Print ("Error parsing config file: " ++ e ++ nl) ;; return_) ;;
  ret (config_json env).

(** [--- Handle Output Path ---] *)
Definition outputPath (config : Config) : string :=
  let output := Output (Dest config) in
  if String.eqb output "" then default_output (now env) else output.

(** [--- Load Videos ---] *)
Definition loadVideos (config : Config) : M (list string) :=
  let videos := Source config in
  videos <-
    (if (List.length videos =? 0)%nat then
       let '(videos, err) := getVideoFiles "./source" in
       _ <- call_with (Walk "./source") err ;;
       if_err err (fun e =>
         Print ("Error reading source directory: " ++ e ++ nl) ;; return_) ;;
       ret videos
     else ret videos) ;;
  ret (sort_Strings videos).

(** [--- Prepare Output Directory ---] *)
Definition prepareDir (config : Config) : M unit :=
  err <- call env (MkdirAll (IntermediateTextDir (Dest config))) ;;
  if_err err (fun e =>
    Print ("Error creating intermediate text directory: " ++ e ++ nl) ;;
    return_) ;;
  defer (RemoveAll (IntermediateTextDir (Dest config))).

(** [--- Load Font ---] *)
Definition loadFont (config : Config) : M Face :=
  err <- call env (LoadFontFace (Path (Font config)) (Size (Font config))) ;;
  if_err err (fun e =>
    Print ("Error loading font from path '" ++ Path (Font config) ++ "': "
           ++ e ++ nl) ;; return_) ;;
  ret {| face_path := Path (Font config); face_size := Size (Font config) |}.

(** The frame drawn for one transition. *)
Definition draw (config : Config) (face : Face) (textColor bgColor : RGBA)
    (text : string) : Image :=
  {| img_width := Width (Frame config);
     img_height := Height (Frame config);
     img_background := bgColor;
     img_color := textColor;
     img_face := face;
     img_text := text |}.

Definition transitionText (video : string) : string :=
  "Next: " ++ Base video.

Definition numFrames (config : Config) : Z :=
  int_mul (Rate (Frame config)) (Duration (Text config)).

(** [--- Generate Transition Frames ---] *)
Definition generateFrames (config : Config) (videos : list string)
    (face : Face) (textColor bgColor : RGBA) : M unit :=
  range (indexed videos) (fun '(i, video) =>
    if i =? 0 then ret tt
    else
      let text := transitionText video in
      let numFrames := numFrames config in
      range (upto numFrames) (fun j =>
        let framePath := framePath (IntermediateTextDir (Dest config)) i j in
        let dc := draw config face textColor bgColor text in
        err <- call env (SavePNG framePath dc) ;;
        if_err err (fun e =>
          Print ("Error saving frame: " ++ e ++ nl) ;; return_))).

(** [--- Create File List ---]; the value is [tempFile.Name()]. *)
Definition createFileList : M string :=
  err <- call env (Create (temp_name env)) ;;
  if_err err (fun e =>
    Print ("Error creating filelist: " ++ e ++ nl) ;; return_) ;;
  defer (Remove (temp_name env)) ;;
  defer (Close (temp_name env)) ;;
  ret (temp_name env).

(** [--- Create Transition Videos & Append to File List ---] *)
Definition appendFileList (config : Config) (videos : list string)
    (tempFile : string) : M unit :=
  range (indexed videos) (fun '(i, video) =>
    (if 0 <? i then
       let textFramesPattern :=
         textFramesPattern (IntermediateTextDir (Dest config)) i in
       let textVideo := textVideo i in
       err <- call env
                (Run (encode_cmd (Rate (Frame config)) textFramesPattern textVideo)) ;;
       if_err err (fun e =>
         Print ("Error creating text transition video: " ++ e ++ nl) ;;
         return_) ;;
       defer (Remove textVideo) ;;
       err <- call env (WriteString tempFile (file_line textVideo)) ;;
       if_err err (fun e =>
         Print ("Error writing to filelist: " ++ e ++ nl) ;; return_)
     else ret tt) ;;
    err <- call env (WriteString tempFile (file_line video)) ;;
    if_err err (fun e =>
      Print ("Error writing video to filelist: " ++ e ++ nl) ;; return_)).

Definition check_mark : string :=
  str (map ascii_of_nat [195; 162; 197; 147; 226; 128; 166]%nat).

(** [--- Merge Videos ---] *)
Definition mergeVideos (tempFile output : string) : M unit :=
  err <- call env (Sync tempFile) ;;
  if_err err (fun e =>
    Print ("Error syncing filelist: " ++ e ++ nl) ;; return_) ;;
  Print ("Merging videos into: " ++ output ++ nl) ;;
  err <- call env (Run (concat_cmd tempFile output)) ;;
  if_err err (fun e =>
    Print ("Error merging videos: " ++ e ++ nl) ;; return_) ;;
  Print (check_mark ++ " Videos merged successfully into " ++ output ++ nl).

(** What [main] does once the videos are known. *)
Definition pipeline (config : Config) (output : string)
    (videos : list string) : M unit :=
  prepareDir config ;;
  face <- loadFont config ;;
  let textColor := hexToRGBA (Color (Text config)) in
  let bgColor := hexToRGBA (Background (Text config)) in
  generateFrames config videos face textColor bgColor ;;
  tempFile <- createFileList ;;
  appendFileList config videos tempFile ;;
  mergeVideos tempFile output.

Definition main : M unit :=
  config <- loadConfig ;;
  let output := outputPath config in
  videos <- loadVideos config ;;
  pipeline config output videos.

End Program.

End VideoMerger.

(** ** The earlier revision of the program *)

Module Legacy.

Section Program.

Variable env : Env.

(** The function literal handed to [filepath.Walk]. *)
Definition walkFn (v : Visit) (videos : list string)
  : list string * option error :=
  match visit_err v with
  | Some err => (videos, Some err)
  | None =>
      if negb (IsDir v) then
        let ext := ToLower (lower_case env) (Ext (visit_path v)) in
        if (String.eqb ext ".mp4" || String.eqb ext ".mov"
            || String.eqb ext ".avi" || String.eqb ext ".mkv")%bool
        then ((videos ++ [visit_path v])%list, None)
        else (videos, None)
      else (videos, None)
  end.

Definition getVideoFiles (sourceDir : string) : list string * option error :=
  let '(videos, err) := run_walk walkFn (walk env sourceDir) [] in
  match err with
  | Some e => ([], Some e)
  | None => (sort_Strings videos, None)
  end.

Definition loadConfig : M Config :=
  let configFile := "config.json" in
  err <- call env (ReadFile configFile) ;;
  if_err err (fun e =>
    Print ("Error reading config file: " ++ e ++ nl) ;; return_) ;;
  err <- call env (Unmarshal (config_data env)) ;;
  if_err err (fun e =>
    Print ("Error parsing config file: " ++ e ++ nl) ;; return_) ;;
  ret (config_json env).

Definition outputPath (config : Config) : string :=
  let output := Output (Dest config) in
  if String.eqb output "" then default_output (now env) else output.

(** The block [if len(videos) == 0 { ... }] and [fmt.Println(videos)]. *)
Definition loadVideos (videos : list string) : M (list string) :=
  videos <-
    (if (List.length videos =? 0)%nat then
       let '(vvv, err) := getVideoFiles "./source" in
       _ <- call_with (Walk "./source") err ;;
       let videos := vvv in
       if_err err (fun e =>
         Print ("Error reading source directory: " ++ e ++ nl) ;; return_) ;;
       ret videos
     else ret videos) ;;
  Print (show_slice videos ++ nl) ;;
  ret videos.

Definition prepareDir (intermediateTextDir : string) : M unit :=
  err <- call env (MkdirAll intermediateTextDir) ;;
  if_err err (fun e =>
    Print ("Error creating intermediate text directory: " ++ e ++ nl) ;;
    return_) ;;
  defer (RemoveAll intermediateTextDir).

Definition loadFont (fontPath : string) (fontSize : float) : M Face :=
  err <- call env (LoadFontFace fontPath fontSize) ;;
  if_err err (fun e =>
    Print ("Error loading font from path '" ++ fontPath ++ "': " ++ e ++ nl) ;;
    return_) ;;
  ret {| face_path := fontPath; face_size := fontSize |}.

Definition draw (frameWidth frameHeight : Z) (face : Face)
    (textColor bgColor : RGBA) (text : string) : Image :=
  {| img_width := frameWidth;
     img_height := frameHeight;
     img_background := bgColor;
     img_color := textColor;
     img_face := face;
     img_text := text |}.

Definition transitionText (video : string) : string := "Next: " ++ video.

Definition generateFrames (intermediateTextDir : string)
    (frameWidth frameHeight frameRate textDuration : Z)
    (videos : list string) (face : Face) (textColor bgColor : RGBA) : M unit :=
  range (indexed videos) (fun '(i, video) =>
    if 0 <? i then
      let text := transitionText video in
      range (upto (int_mul frameRate textDuration)) (fun j =>
        let framePath := framePath intermediateTextDir i j in
        let dc := draw frameWidth frameHeight face textColor bgColor text in
        err <- call env (SavePNG framePath dc) ;;
        if_err err (fun e =>
          Print ("Error saving frame: " ++ e ++ nl) ;; return_))
    else ret tt).

(** [os.Create("filelist.txt")]; the value is [tempFile.Name()]. *)
Definition createFileList : M string :=
  err <- call env (Create "filelist.txt") ;;
  if_err err (fun e =>
    Print ("Error creating filelist: " ++ e ++ nl) ;; return_) ;;
  defer (Close "filelist.txt") ;;
  defer (Remove "filelist.txt") ;;
  ret "filelist.txt".

Definition appendFileList (intermediateTextDir : string) (frameRate : Z)
    (videos : list string) (tempFile : string) : M unit :=
  range (indexed videos) (fun '(i, video) =>
    (if 0 <? i then
       let textFramesPattern := textFramesPattern intermediateTextDir i in
       let textVideo := textVideo i in
       err <- call env (Run (encode_cmd frameRate textFramesPattern textVideo)) ;;
       if_err err (fun e =>
         Print ("Error creating text transition video: " ++ e ++ nl) ;;
         return_) ;;
       defer (Remove textVideo) ;;
       err <- call env (WriteString tempFile (file_line textVideo)) ;;
       if_err err (fun e =>
         Print ("Error writing to filelist: " ++ e ++ nl) ;; return_)
     else ret tt) ;;
    err <- call env (WriteString tempFile (file_line video)) ;;
    if_err err (fun e =>
      Print ("Error writing to filelist: " ++ e ++ nl) ;; return_)).

Definition mergeVideos (tempFile output : string) : M unit :=
  err <- call env (Sync tempFile) ;;
  if_err err (fun e =>
    Print ("Error syncing filelist: " ++ e ++ nl) ;; return_) ;;
  Print (output ++ nl) ;;
  Print ("Merging videos..." ++ nl) ;;
  err <- call env (Run (concat_cmd tempFile output)) ;;
  if_err err (fun e =>
    Print ("Error merging videos: " ++ e ++ nl) ;; return_) ;;
  Print ("Videos merged successfully into " ++ output ++ nl) ;;
  Print ("Videos merged successfully into " ++ output ++ nl) ;;
  Print ("Videos merged successfully into " ++ output ++ nl).

(** What [main] does once the videos are known. *)
Definition pipeline (config : Config) (output : string)
    (textColor bgColor : RGBA) (videos : list string) : M unit :=
  let intermediateTextDir := IntermediateTextDir (Dest config) in
  let frameWidth := Width (Frame config) in
  let frameHeight := Height (Frame config) in
  let frameRate := Rate (Frame config) in
  let textDuration := Duration (Text config) in
  prepareDir intermediateTextDir ;;
  face <- loadFont (Path (Font config)) (Size (Font config)) ;;
  generateFrames intermediateTextDir frameWidth frameHeight frameRate
    textDuration videos face textColor bgColor ;;
  tempFile <- createFileList ;;
  appendFileList intermediateTextDir frameRate videos tempFile ;;
  mergeVideos tempFile output.

Definition main : M unit :=
  config <- loadConfig ;;
  let videos := Source config in
  let output := outputPath config in
  let textColor := hexToRGBA (Color (Text config)) in
  let bgColor := hexToRGBA (Background (Text config)) in
  videos <- loadVideos videos ;;
  pipeline config output textColor bgColor videos.

End Program.

End Legacy.

(** * Vocabulary of the statements *)

(** ** Extensions and cleaned paths *)

Fixpoint nosep_prefix (r : list ascii) : list ascii :=
  match r with
  | [] => []
  | c :: r' => if is_sep c then [] else c :: nosep_prefix r'
  end.

(** The text written before the last element of a joined path is
    empty or ends with a separator. *)
Definition sep_ended (pre : list ascii) : Prop :=
  pre = [] \/ exists pre', pre = (pre' ++ ["/"%char])%list.

(** ** The directory scan *)

(** The extensions of video files, in lower case. *)
Definition video_extensions : list string := [".mp4"; ".mov"; ".avi"; ".mkv"].

(** A path whose extension, in lower case, is a video extension;
    [table] is the lower-case mapping of package [unicode]. *)
Definition recognized (table : Z -> Z) (path : string) : bool :=
  existsb (String.eqb (ToLower table (Ext path))) video_extensions.

(** A walk function that keeps some visits and reports the errors. *)
Definition keep_fn (keep : Visit -> bool) (out : Visit -> string)
    (v : Visit) (videos : list string) : list string * option error :=
  match visit_err v with
  | Some e => (videos, Some e)
  | None => if keep v then ((videos ++ [out v])%list, None) else (videos, None)
  end.

(** The visits that the scan keeps: entries that are not directories
    and carry a video extension. *)
Definition kept (table : Z -> Z) (v : Visit) : bool :=
  negb (IsDir v) && recognized table (visit_path v).

(** What the scan promises about its result: it is sorted, and each
    path in it carries a video extension and stems, through [out],
    from a visited entry that is not a directory. *)
Definition scan_result_ok (table : Z -> Z) (visits : list Visit)
    (out : string -> string) (videos : list string) : Prop :=
  sorted videos /\
  forall p, In p videos ->
    In (ToLower table (Ext p)) video_extensions /\
    exists v, In v visits /\ IsDir v = false /\ visit_err v = None
              /\ p = out (visit_path v).

(** The paths that a scan without error returns: [p] is returned
    exactly when it is [out] of the path of a visited entry that is not
    a directory and whose extension, in lower case, is a video
    extension. *)
Definition scan_accepts (table : Z -> Z) (visits : list Visit)
    (out : string -> string) (videos : list string) : Prop :=
  forall p, In p videos <->
    exists v, In v visits /\ IsDir v = false
              /\ In (ToLower table (Ext (visit_path v))) video_extensions
              /\ p = out (visit_path v).

(** Two bytes that are equal or are the two cases of one ASCII
    letter. *)
Definition same_letter (c d : ascii) : bool :=
  Ascii.eqb c d
  || (byte_between 65 90 c && (byte_val d =? byte_val c + 32))
  || (byte_between 65 90 d && (byte_val c =? byte_val d + 32)).

(** Two strings that differ at most in the case of ASCII letters. *)
Fixpoint same_but_case (a b : string) : bool :=
  match a, b with
  | EmptyString, EmptyString => true
  | String c r, String d s => same_letter c d && same_but_case r s
  | _, _ => false
  end.

(** The scan takes every visited file whose extension is a video
    extension written in any mix of upper and lower case. *)
Definition scan_ignores_case (visits : list Visit) (out : string -> string)
    (videos : list string) : Prop :=
  forall v ext,
    In v visits -> IsDir v = false -> In ext video_extensions ->
    same_but_case (Ext (visit_path v)) ext = true ->
    In (out (visit_path v)) videos.

(** The Kelvin sign (U+212A) and the capital I with a dot above
    (U+0130) in UTF-8. *)
Definition kelvin_sign : string := str (map ascii_of_nat [226; 132; 170]%nat).

Definition dotted_I : string := str (map ascii_of_nat [196; 176]%nat).

(** ** Reasoning about runs *)

(** [wp m Qs Qn w]: from [w], [m] either yields a value and a world in
    [Qs], or makes [main] return in a world in [Qn]. *)
Definition wp {T} (m : M T) (Qs : T -> World -> Prop) (Qn : World -> Prop)
    (w : World) : Prop :=
  match m w with
  | (Some x, w') => Qs x w'
  | (None, w') => Qn w'
  end.

(** *** Failed calls *)

Definition failed (e : Event) : Prop :=
  match e with
  | Call _ (Some _) => True
  | _ => False
  end.

(** No call in the trace has failed. *)
Definition clean (tr : list Event) : Prop := Forall (fun e => ~ failed e) tr.

(** The trace ends with a failed call and the message that reports it. *)
Definition stopped (tr : list Event) : Prop :=
  exists pre op e msg,
    tr = (pre ++ [Call op (Some e); Printed (msg ++ e ++ nl)])%list
    /\ clean pre.

(** *** Temporary artifacts *)

(** The event is the successful creation of the temporary path [p]:
    the frame directory, a frame, the file list or a transition clip. *)
Definition makes_temp (e : Event) (p : string) : Prop :=
  e = Call (MkdirAll p) None
  \/ (exists img, e = Call (SavePNG p img) None)
  \/ e = Call (Create p) None
  \/ (exists rate pattern, e = Call (Run (encode_cmd rate pattern p)) None).

Definition temp_created (p : string) (tr : list Event) : Prop :=
  exists e, In e tr /\ makes_temp e p.

(** The deferred call removes the path; [accepts] tells on which
    directories [os.RemoveAll] is taken to do its work. *)
Definition removes (accepts : string -> bool) (d : Deferred) (p : string)
  : bool :=
  match d with
  | Remove name => String.eqb p name
  | RemoveAll dir => accepts dir && under dir p
  | Close _ => false
  end.

Definition covered (accepts : string -> bool) (p : string)
    (ds : list Deferred) : Prop :=
  exists d, In d ds /\ removes accepts d p = true.

(** Every temporary path created so far has a deferred removal. *)
Definition all_covered (accepts : string -> bool) (w : World) : Prop :=
  forall p, temp_created p (trace w) -> covered accepts p (deferred w).

(** *** The invariant of [main] *)

(** While [main] runs: no call has failed and every temporary path
    has its deferred removal. *)
Definition good (accepts : string -> bool) (w : World) : Prop :=
  clean (trace w) /\ all_covered accepts w.

(** When [main] returns early: the trace ends with the failed call and
    its message, and every temporary path has its deferred removal. *)
Definition halted (accepts : string -> bool) (w : World) : Prop :=
  stopped (trace w) /\ all_covered accepts w.

(** [good], with the frame directory, one that [os.RemoveAll]
    accepts, already on the deferred stack. *)
Definition good_in (accepts : string -> bool) (dir : string) (w : World)
  : Prop :=
  good accepts w /\ In (RemoveAll dir) (deferred w) /\ accepts dir = true.

(** *** From the invariant to whole runs *)

(** What the invariant gives for the world in which the body of [main]
    ends, whether it ran to its end or returned early. *)
Definition ended (accepts : string -> bool) (w : World) : Prop :=
  (clean (trace w) \/ stopped (trace w)) /\ all_covered accepts w.

(** Every directory is taken to be accepted: the invariant then speaks
    of the calls and of the deferred stack alone. *)
Definition any_dir (dir : string) : bool := true.

(** ** Loops over the videos *)

Definition indexed_from {T} (k : nat) (l : list T) : list (Z * T) :=
  combine (map Z.of_nat (seq k (List.length l))) l.

(** Every call of the run succeeds. *)
Definition all_succeed (env : Env) : Prop := forall k, fails env k = None.

(** ** The file list *)

(** The lines written with success to a file, in order. *)
Definition written (file : string) (tr : list Event) : list string :=
  flat_map (fun e =>
              match e with
              | Call (WriteString f s) None =>
                  if String.eqb f file then [s] else []
              | _ => []
              end) tr.

(** The lines for the videos after the first: before each video the
    clip of its transition; [i] is the index of the next video. *)
Fixpoint interleave (i : Z) (videos : list string) : list string :=
  match videos with
  | [] => []
  | video :: rest =>
      file_line (textVideo i) :: file_line video :: interleave (i + 1) rest
  end.

(** video 0, transition 1, video 1, transition 2, video 2, ... *)
Definition file_list (videos : list string) : list string :=
  match videos with
  | [] => []
  | video :: rest => file_line video :: interleave 1 rest
  end.

Definition round_lines (iv : Z * string) : list string :=
  let '(i, video) := iv in
  if 0 <? i then [file_line (textVideo i); file_line video]
  else [file_line video].

(** The lines that a piece of [main] writes to [file] when it runs to
    its end are [lines]; it runs to its end when every call succeeds. *)
Definition writes_lines (env : Env) (m : M unit) (w : World)
    (file : string) (lines : list string) : Prop :=
  (fst (m w) = Some tt ->
   written file (trace (snd (m w))) = (written file (trace w) ++ lines)%list)
  /\ (all_succeed env -> fst (m w) = Some tt).

(** ** Transition frames *)

(** The number that a string of decimal digits denotes. *)
Definition decode (s : string) : option N :=
  option_map N.of_uint (NilEmpty.uint_of_string s).

(** The frames saved with success, in order. *)
Definition saved (tr : list Event) : list (string * Image) :=
  flat_map (fun e =>
              match e with
              | Call (SavePNG p img) None => [(p, img)]
              | _ => []
              end) tr.

(** The frames of the transition before video [i]: [n] files, each
    holding the one image [img video]. *)
Definition transition_frames (dir : string) (n : Z) (img : string -> Image)
    (iv : Z * string) : list (string * Image) :=
  let '(i, video) := iv in
  map (fun j => (framePath dir i j, img video)) (upto n).

(** The frames that a piece of [main] saves when it runs to its end
    are [frames]; it runs to its end when every call succeeds. *)
Definition renders (env : Env) (m : M unit) (w : World)
    (frames : list (string * Image)) : Prop :=
  (fst (m w) = Some tt ->
   saved (trace (snd (m w))) = (saved (trace w) ++ frames)%list)
  /\ (all_succeed env -> fst (m w) = Some tt).

(** Every frame saved, with or without success, after the trace [old]
    belongs to a transition [i > 0] and shows [text] of video [i]. *)
Definition frame_texts (text : string -> string) (dir : string)
    (videos : list string) (old new : list Event) : Prop :=
  forall p img err,
    In (Call (SavePNG p img) err) new ->
    In (Call (SavePNG p img) err) old
    \/ exists i j video,
         0 < i /\ nth_error videos (Z.to_nat i) = Some video
         /\ p = framePath dir i j /\ img_text img = text video.

(** ** Resolving the list of videos *)

(** The directory [./source] was scanned with the outcome [scan], and
    the piece of [main] went on with [videos] when the scan succeeded
    and returned otherwise. *)
Definition scanned (r : option (list string) * World)
    (scan : list string * option error) (videos : list string) : Prop :=
  In (Call (Walk "./source") (snd scan)) (trace (snd r))
  /\ (snd scan = None -> fst r = Some videos)
  /\ (snd scan <> None -> fst r = None).

(** ** Sample runs *)

(** A directory with upper-case and mixed-case extensions. *)
Definition sample_walk (root : string) : list Visit :=
  [ {| visit_path := root; visit_dir := Some true; visit_err := None |};
    {| visit_path := Join root "b.Mov"; visit_dir := Some false; visit_err := None |};
    {| visit_path := Join root "A.MP4"; visit_dir := Some false; visit_err := None |};
    {| visit_path := Join root "notes.txt"; visit_dir := Some false; visit_err := None |};
    {| visit_path := Join root "clips.mkv"; visit_dir := Some true; visit_err := None |} ].

(** A configuration without explicit list: [./source] is scanned. *)
Definition sample_config : Config :=
  {| Dest := {| Output := "out.mp4"; IntermediateTextDir := "frames" |};
     Source := [];
     Font := {| Path := "font.ttf"; Size := 48%float |};
     Frame := {| Width := 1280; Height := 720; Rate := 2 |};
     Text := {| Color := "#ffffff"; Background := "#000000"; Duration := 1 |} |}.

(** A part of the lower-case mapping of Unicode: the capital letters
    of Latin-1, the capital I with a dot above (U+0130) and the Kelvin
    sign (U+212A); the other runes are left as they are. *)
Definition sample_lower (r : Z) : Z :=
  if ((192 <=? r) && (r <=? 214)) || ((216 <=? r) && (r <=? 222)) then r + 32
  else if r =? 304 then 105
  else if r =? 8490 then 107
  else r.

Definition sample_time : Time :=
  {| Day := 7; Month := 3; Year := 2024; Hour := 9; Minute := 5; Second := 0 |}.

(** The run in which every call succeeds. *)
Definition sample_env : Env :=
  {| fails := fun _ => None;
     config_data := "{}";
     config_json := sample_config;
     walk := sample_walk;
     temp_name := "/tmp/filelist_42.txt";
     now := sample_time;
     lower_case := sample_lower |}.

(** A configuration with an explicit list of two videos. *)
Definition two_videos_config : Config :=
  {| Dest := {| Output := "out.mp4"; IntermediateTextDir := "frames" |};
     Source := ["source/b.mp4"; "source/a.mp4"];
     Font := {| Path := "font.ttf"; Size := 48%float |};
     Frame := {| Width := 1280; Height := 720; Rate := 2 |};
     Text := {| Color := "#ffffff"; Background := "#000000"; Duration := 1 |} |}.

(** The same with a negative duration of the transitions. *)
Definition negative_duration_config : Config :=
  {| Dest := Dest two_videos_config;
     Source := Source two_videos_config;
     Font := Font two_videos_config;
     Frame := Frame two_videos_config;
     Text := {| Color := "#ffffff"; Background := "#000000"; Duration := -1 |} |}.

(** The same with a frame rate and a duration whose product, [2 ^ 63],
    is beyond [int]. *)
Definition overflowing_config : Config :=
  {| Dest := Dest two_videos_config;
     Source := Source two_videos_config;
     Font := Font two_videos_config;
     Frame := {| Width := 1280; Height := 720; Rate := 2 ^ 32 |};
     Text := {| Color := "#ffffff"; Background := "#000000";
                Duration := 2 ^ 31 |} |}.

(** Its environment, for a given outcome of the calls. *)
Definition two_videos_env (outcome : nat -> option error) : Env :=
  {| fails := outcome;
     config_data := "{}";
     config_json := two_videos_config;
     walk := sample_walk;
     temp_name := "/tmp/filelist_42.txt";
     now := sample_time;
     lower_case := sample_lower |}.


(** The two videos with a frame directory two levels down, every call
    succeeding. *)
Definition nested_dir_env : Env :=
  {| fails := fun _ => None;
     config_data := "{}";
     config_json :=
       {| Dest := {| Output := "out.mp4";
                     IntermediateTextDir := "tmp/work/frames" |};
          Source := ["source/a.mp4"; "source/b.mp4"];
          Font := {| Path := "font.ttf"; Size := 48%float |};
          Frame := {| Width := 1280; Height := 720; Rate := 2 |};
          Text := {| Color := "#ffffff"; Background := "#000000";
                     Duration := 1 |} |};
     walk := sample_walk;
     temp_name := "/tmp/filelist_42.txt";
     now := sample_time;
     lower_case := sample_lower |}.

(** The run in which the final [ffmpeg] call fails. *)
Definition concat_fails (k : nat) : option error :=
  if (k =? 12)%nat then Some "exit status 1" else None.

(** Every call succeeds. *)
Definition succeed (k : nat) : option error := None.

Definition sample_face : Face :=
  {| face_path := "font.ttf"; face_size := 48%float |}.

(** ** Further vocabulary *)

(** The error of the first visit that carries one. *)
Fixpoint first_error (visits : list Visit) : option error :=
  match visits with
  | [] => None
  | v :: r =>
      match visit_err v with
      | Some e => Some e
      | None => first_error r
      end
  end.

(** Six bytes as a string. *)
Definition six (c1 c2 c3 c4 c5 c6 : ascii) : string :=
  String c1 (String c2 (String c3 (String c4 (String c5 (String c6 ""))))).

(** No byte of the string is a path separator. *)
Definition no_sep (s : string) : Prop :=
  Forall (fun c => is_sep c = false) (chars s).

(** The trace [tr'] is [tr] followed by events that all satisfy [P]. *)
Definition extends (P : Event -> Prop) (tr tr' : list Event) : Prop :=
  exists evs, tr' = (tr ++ evs)%list /\ Forall P evs.

(** The calls of each stage of [main], numbered in the order of the
    source: 0 configuration, 1 scan, 2 frame directory, 3 font,
    4 frames, 5 creation of the file list, 6 clips and lines of the
    file list, 7 sync and concatenation.  [dir] is the frame
    directory, [temp] the name of the file list, [output] the output
    path and [rate] the frame rate. *)
Inductive stage_op (dir temp output : string) (rate : Z) : nat -> Op -> Prop :=
| op_read (name : string) : stage_op dir temp output rate 0 (ReadFile name)
| op_unmarshal (data : string) : stage_op dir temp output rate 0 (Unmarshal data)
| op_walk : stage_op dir temp output rate 1 (Walk "./source")
| op_mkdir : stage_op dir temp output rate 2 (MkdirAll dir)
| op_font (path : string) (points : float) :
    stage_op dir temp output rate 3 (LoadFontFace path points)
| op_save (i j : Z) (img : Image) :
    0 < i -> 0 <= j ->
    stage_op dir temp output rate 4 (SavePNG (framePath dir i j) img)
| op_create : stage_op dir temp output rate 5 (Create temp)
| op_encode (i : Z) :
    0 < i ->
    stage_op dir temp output rate 6
      (Run (encode_cmd rate (textFramesPattern dir i) (textVideo i)))
| op_write (s : string) : stage_op dir temp output rate 6 (WriteString temp s)
| op_sync : stage_op dir temp output rate 7 (Sync temp)
| op_concat : stage_op dir temp output rate 7 (Run (concat_cmd temp output)).

(** An event of stage [k]: a call of the stage or a printed line. *)
Definition stage_event (dir temp output : string) (rate : Z) (k : nat)
    (e : Event) : Prop :=
  match e with
  | Call op _ => stage_op dir temp output rate k op
  | Printed _ => True
  | Ran _ => False
  end.

(** The trace is made of [n] segments, one per stage from stage [k]
    on, in order; a segment may be empty. *)
Fixpoint staged (P : nat -> Event -> Prop) (k n : nat) (tr : list Event)
  : Prop :=
  match n with
  | O => tr = []
  | S n' =>
      exists seg rest,
        tr = (seg ++ rest)%list /\ Forall (P k) seg /\ staged P (S k) n' rest
  end.

(** The scan of [./source] is needed and meets an error. *)
Definition scan_fails (env : Env) (config : Config) : Prop :=
  Source config = [] /\ first_error (walk env "./source") <> None.

(** The list of videos that [main] of [video_merger.go] goes on with
    once it is resolved. *)
Definition VideoMerger_resolved (env : Env) (config : Config) : list string :=
  sort_Strings
    match Source config with
    | [] => fst (VideoMerger.getVideoFiles env "./source")
    | videos => videos
    end.

(** The same for the earlier revision. *)
Definition Legacy_resolved (env : Env) (config : Config) : list string :=
  match Source config with
  | [] => fst (Legacy.getVideoFiles env "./source")
  | videos => videos
  end.

(** A whole run: the events of the eight stages in order, then the
    deferred calls. *)
Definition run_in_stages (dir temp output : string) (rate : Z)
    (tr : list Event) : Prop :=
  exists body ds,
    tr = (body ++ map Ran ds)%list
    /\ staged (stage_event dir temp output rate) 0 8 body.

(** The paths that [main] may create: the frame directory and its
    parent directories, the frames, the file list, the clips and the
    output. *)
Definition own_path (dir temp output p : string) : Prop :=
  p = dir
  \/ In p (parents dir)
  \/ (exists i j, 0 < i /\ 0 <= j /\ p = framePath dir i j)
  \/ p = temp
  \/ (exists i, 0 < i /\ p = textVideo i)
  \/ p = output.

(** The command lines run, in order. *)
Definition commands (tr : list Event) : list (list string) :=
  flat_map (fun e =>
              match e with
              | Call (Run args) _ => [args]
              | _ => []
              end) tr.

(** The [ffmpeg] command that makes the clip of transition [i]. *)
Definition encode_of (dir : string) (rate : Z) (iv : Z * string)
  : list string :=
  encode_cmd rate (textFramesPattern dir (fst iv)) (textVideo (fst iv)).

(** The commands that a piece of [main] runs when it runs to its end
    are [cmds]. *)
Definition runs_commands (m : M unit) (w : World) (cmds : list (list string))
  : Prop :=
  fst (m w) = Some tt ->
  commands (trace (snd (m w))) = (commands (trace w) ++ cmds)%list.

(** The deferred calls executed, in order. *)
Definition ran (tr : list Event) : list Deferred :=
  flat_map (fun e =>
              match e with
              | Ran d => [d]
              | _ => []
              end) tr.

(** The clip that a command line of the encoding kind writes:
    [ffmpeg -y -framerate <rate> -i <pattern> ... <clip>]. *)
Definition clip_of (args : list string) : option string :=
  match args with
  | [_; _; flag; _; _; _; _; _; _; _; clip] =>
      if String.eqb flag "-framerate" then Some clip else None
  | _ => None
  end.

(** The clips made in a run: those of the encoding commands that
    [ffmpeg] ran with success, in order. *)
Definition clips_made (tr : list Event) : list string :=
  flat_map (fun e =>
              match e with
              | Call (Run args) None =>
                  match clip_of args with
                  | Some clip => [clip]
                  | None => []
                  end
              | _ => []
              end) tr.

(** The file list [temp] was created. *)
Definition list_created (temp : string) (tr : list Event) : bool :=
  existsb (fun e =>
             match e with
             | Call (Create name) None => String.eqb name temp
             | _ => false
             end) tr.

(** The frame directory [dir] was made. *)
Definition dir_made (dir : string) (tr : list Event) : bool :=
  existsb (fun e =>
             match e with
             | Call (MkdirAll path) None => String.eqb path dir
             | _ => false
             end) tr.

(** The deferred calls that the successful calls of a trace stand for,
    in the order in which they are executed: the removal of every clip
    made, the latest first; then, when the file list was created, its
    calls [list_cleanup]; then, when the frame directory was made, its
    removal. *)
Definition cleanup_of (dir temp : string) (list_cleanup : list Deferred)
    (tr : list Event) : list Deferred :=
  (map Remove (rev (clips_made tr))
   ++ (if list_created temp tr then list_cleanup else [])
   ++ (if dir_made dir tr then [RemoveAll dir] else []))%list.

(** The clips of the transitions [1], ..., [k]. *)
Definition clips_numbered (k : nat) : list string :=
  map (fun i => textVideo (Z.of_nat i)) (seq 1 k).

(** The clips made in a run are those of the first transitions, in
    order, as many as were made. *)
Definition numbered (tr : list Event) : Prop :=
  clips_made tr = clips_numbered (List.length (clips_made tr)).

(** The deferred stack of a world holds what the successful calls of
    its trace stand for. *)
Definition registered (dir temp : string) (list_cleanup : list Deferred)
    (w : World) : Prop :=
  deferred w = cleanup_of dir temp list_cleanup (trace w).

(** The calls made from the creation of the file list on. *)
Definition late (op : Op) : Prop :=
  match op with
  | Create _ | Run _ | WriteString _ _ | Sync _ => True
  | _ => False
  end.

Definition has_late (tr : list Event) : Prop :=
  exists op err, In (Call op err) tr /\ late op.

(** All the frames of a run of [video_merger.go]: for every video
    after the first, in order, the frames of its transition. *)
Definition VideoMerger_frames (env : Env) : list (string * Image) :=
  let config := config_json env in
  let face := {| face_path := Path (Font config);
                 face_size := Size (Font config) |} in
  flat_map
    (transition_frames (IntermediateTextDir (Dest config))
       (VideoMerger.numFrames config)
       (fun video =>
          VideoMerger.draw config face (hexToRGBA (Color (Text config)))
            (hexToRGBA (Background (Text config)))
            (VideoMerger.transitionText video)))
    (tl (indexed (VideoMerger_resolved env config))).

(** The same for the earlier revision. *)
Definition Legacy_frames (env : Env) : list (string * Image) :=
  let config := config_json env in
  let face := {| face_path := Path (Font config);
                 face_size := Size (Font config) |} in
  flat_map
    (transition_frames (IntermediateTextDir (Dest config))
       (int_mul (Rate (Frame config)) (Duration (Text config)))
       (fun video =>
          Legacy.draw (Width (Frame config)) (Height (Frame config)) face
            (hexToRGBA (Color (Text config)))
            (hexToRGBA (Background (Text config)))
            (Legacy.transitionText video)))
    (tl (indexed (Legacy_resolved env config))).

(** What a run has done when [main] reaches its end: all frames are
    saved, the file list holds the lines of [videos], and [ffmpeg] has
    concatenated the list into [output]. *)
Definition all_done (frames : list (string * Image)) (temp output : string)
    (videos : list string) (tr : list Event) : Prop :=
  saved tr = frames
  /\ written temp tr = file_list videos
  /\ In (Call (Run (concat_cmd temp output)) None) tr.

(** What a run has done when it enters stage [k]: the frames are all
    saved from stage 5 on and none is before; the lines of the file
    list are all written from stage 7 on and none is before; no late
    call is made before stage 6, and [ffmpeg] has not concatenated
    before the end of stage 7. *)
Definition progress (frames : list (string * Image)) (temp output : string)
    (videos : list string) (k : nat) (tr : list Event) : Prop :=
  saved tr = (if (k <=? 4)%nat then [] else frames)
  /\ written temp tr = (if (k <=? 6)%nat then [] else file_list videos)
  /\ ((k <= 5)%nat -> ~ has_late tr)
  /\ ((k <= 7)%nat ->
      forall err, ~ In (Call (Run (concat_cmd temp output)) err) tr).

(** [a] is an initial segment of [b]. *)
Definition initial_segment {T} (a b : list T) : Prop :=
  exists rest, b = (a ++ rest)%list.

(** What holds of every run, also of one that stops early: a late
    call is made only once all the frames are saved, the
    concatenation is run only on a file list that holds every line
    and was synced, and the frames saved are the first of the frames
    of the run, in order. *)
Definition in_order (frames : list (string * Image)) (temp output : string)
    (videos : list string) (tr : list Event) : Prop :=
  (has_late tr -> saved tr = frames)
  /\ (forall err,
        In (Call (Run (concat_cmd temp output)) err) tr ->
        written temp tr = file_list videos
        /\ In (Call (Sync temp) None) tr)
  /\ initial_segment (saved tr) frames.

(** The byte is a decimal digit. *)
Definition is_digit (c : ascii) : bool := byte_between 48 57 c.

(** The string is made of decimal digits. *)
Definition all_digits (s : string) : Prop :=
  Forall (fun c => is_digit c = true) (chars s).

(** No field of the time is negative, as for every [time.Time] that
    [time.Now] returns. *)
Definition time_ok (t : Time) : Prop :=
  0 <= Day t /\ 0 <= Month t /\ 0 <= Year t
  /\ 0 <= Hour t /\ 0 <= Minute t /\ 0 <= Second t.

(** The first byte of a string. *)
Definition first_byte (s : string) : option ascii :=
  match s with
  | String c _ => Some c
  | EmptyString => None
  end.

(** The line that [main] prints last when the merge is made:
    [fmt.Println] of the message and the output path. *)
Definition VideoMerger_success (output : string) : string :=
  VideoMerger.check_mark ++ " Videos merged successfully into " ++ output ++ nl.

Definition Legacy_success (output : string) : string :=
  "Videos merged successfully into " ++ output ++ nl.

(** A configuration that names no output. *)
Definition no_output_config : Config :=
  {| Dest := {| Output := ""; IntermediateTextDir := "frames" |};
     Source := [];
     Font := {| Path := "font.ttf"; Size := 48%float |};
     Frame := {| Width := 1280; Height := 720; Rate := 2 |};
     Text := {| Color := "#ffffff"; Background := "#000000"; Duration := 1 |} |}.

(** The sample run started one second later. *)
Definition later_env : Env :=
  {| fails := fun _ => None;
     config_data := "{}";
     config_json := sample_config;
     walk := sample_walk;
     temp_name := "/tmp/filelist_42.txt";
     now := {| Day := 7; Month := 3; Year := 2024;
               Hour := 9; Minute := 5; Second := 1 |};
     lower_case := sample_lower |}.

(** A configuration whose title cards last no time. *)
Definition no_duration_config : Config :=
  {| Dest := {| Output := "out.mp4"; IntermediateTextDir := "frames" |};
     Source := ["source/b.mp4"; "source/a.mp4"];
     Font := {| Path := "font.ttf"; Size := 48%float |};
     Frame := {| Width := 1280; Height := 720; Rate := 30 |};
     Text := {| Color := "#ffffff"; Background := "#000000"; Duration := 0 |} |}.

(** * Properties *)

(** ** Examples of the embedding *)

Example hexToRGBA_wellformed : hexToRGBA "#1a2B3c" = mkRGBA 26 43 60 255.
Proof. reflexivity. Qed.

Example hexToRGBA_no_hash : hexToRGBA "ffffff" = black.
Proof. reflexivity. Qed.

Example hexToRGBA2_short : hexToRGBA2 "#ff" = black.
Proof. reflexivity. Qed.

Example fmt_0d_example : fmt_0d 5 42 = "00042" /\ fmt_d 17 = "17".
Proof. split; reflexivity. Qed.

Example Ext_examples :
  Ext "source/a.tar.MP4" = ".MP4" /\ Ext "a.b/c" = "" /\ Ext ".." = "."
  /\ Ext "a/.mkv" = ".mkv".
Proof. repeat split. Qed.

Example Base_examples :
  Base "source/b.mp4" = "b.mp4" /\ Base "a/b/" = "b" /\ Base "///" = "/"
  /\ Base "" = "." /\ Base "c.mov" = "c.mov".
Proof. repeat split. Qed.

Example Clean_examples :
  Clean "./source" = "source" /\ Clean "a//b/../c/." = "a/c"
  /\ Clean "../../x/.." = "../.." /\ Clean "/../a" = "/a"
  /\ Clean "a/.." = "." /\ Clean "/" = "/"
  /\ Join "./source" "sub/v.MKV" = "source/sub/v.MKV".
Proof. repeat split. Qed.

(** ** Strings *)

Lemma append_assoc (a b c : string) : (a ++ b) ++ c = a ++ (b ++ c).
Proof. induction a as [|x a IH]; simpl; [reflexivity | now rewrite IH]. Qed.

Lemma prefix_append (a b : string) : String.prefix a (a ++ b) = true.
Proof.
  induction a as [|x a IH]; simpl.
  - now destruct b.
  - destruct (ascii_dec x x) as [_|N]; [exact IH | now elim N].
Qed.

Lemma lower_bytes_length (s : string) :
  String.length (lower_bytes s) = String.length s.
Proof. induction s as [|c s IH]; simpl; [reflexivity | now rewrite IH]. Qed.

Lemma chars_length (s : string) : List.length (chars s) = String.length s.
Proof. induction s as [|c s IH]; simpl; [reflexivity | now rewrite IH]. Qed.

Lemma str_length (l : list ascii) : String.length (str l) = List.length l.
Proof. induction l as [|c l IH]; simpl; [reflexivity | now rewrite IH]. Qed.

Lemma chars_str (l : list ascii) : chars (str l) = l.
Proof. apply list_ascii_of_string_of_list_ascii. Qed.

(** ** Sorting *)

Lemma insert_sorted_perm (x : string) (l : list string) :
  Permutation (insert_sorted x l) (x :: l).
Proof.
  induction l as [|y l IH]; simpl; [reflexivity|].
  destruct (String.leb x y); [reflexivity|].
  rewrite IH. apply perm_swap.
Qed.

Lemma sort_Strings_perm (l : list string) : Permutation (sort_Strings l) l.
Proof.
  induction l as [|x l IH]; simpl; [constructor|].
  rewrite insert_sorted_perm. now constructor.
Qed.

Lemma sort_Strings_In (l : list string) (p : string) :
  In p (sort_Strings l) <-> In p l.
Proof.
  split; apply Permutation_in;
    [apply sort_Strings_perm | symmetry; apply sort_Strings_perm].
Qed.

Lemma insert_sorted_hd (x a : string) (l : list string) :
  string_le a x -> HdRel string_le a l -> HdRel string_le a (insert_sorted x l).
Proof.
  intros Hax Hl. destruct l as [|y l]; simpl.
  - now constructor.
  - destruct (String.leb x y); constructor; [exact Hax | now inversion Hl].
Qed.

Lemma insert_sorted_sorted (x : string) (l : list string) :
  sorted l -> sorted (insert_sorted x l).
Proof.
  unfold sorted. induction l as [|y l IH]; simpl; intros Hs.
  - repeat constructor.
  - destruct (String.leb x y) eqn:E.
    + constructor; [exact Hs | now constructor].
    + inversion Hs as [|? ? Hl Hhd]; subst.
      constructor; [now apply IH|].
      apply insert_sorted_hd; [|exact Hhd].
      destruct (String.leb_total x y) as [H|H]; [congruence | exact H].
Qed.

Lemma sort_Strings_sorted (l : list string) : sorted (sort_Strings l).
Proof.
  induction l as [|x l IH]; simpl; [constructor | now apply insert_sorted_sorted].
Qed.

Lemma StringsAreSorted_spec (l : list string) :
  StringsAreSorted l = true <-> sorted l.
Proof.
  unfold sorted. induction l as [|x [|y r] IH].
  - simpl; split; [constructor | reflexivity].
  - simpl; split; [repeat constructor | reflexivity].
  - change (StringsAreSorted (x :: y :: r))
      with (String.leb x y && StringsAreSorted (y :: r))%bool.
    rewrite andb_true_iff, IH. split.
    + intros [Hxy Hs]. constructor; [exact Hs | now constructor].
    + intros Hs. inversion Hs as [|? ? Hr Hhd]; subst.
      inversion Hhd; subst. now split.
Qed.

(** ** Extensions and cleaned paths *)

Lemma ext_scan_nosep (r tail : list ascii) :
  ext_scan r tail = ext_scan (nosep_prefix r) tail.
Proof.
  revert tail. induction r as [|c r IH]; intros tail; simpl; [reflexivity|].
  destruct (is_sep c) eqn:E; simpl; [reflexivity|].
  rewrite E. destruct (is_dot c); [reflexivity | apply IH].
Qed.

Lemma last_elem_nosep (r tail : list ascii) :
  last_elem r tail = (rev (nosep_prefix r) ++ tail)%list.
Proof.
  revert tail. induction r as [|c r IH]; intros tail; simpl; [reflexivity|].
  destruct (is_sep c); simpl; [reflexivity|].
  rewrite IH, <- app_assoc. reflexivity.
Qed.

Lemma nosep_prefix_Forall (r : list ascii) :
  Forall (fun c => is_sep c = false) (nosep_prefix r).
Proof.
  induction r as [|c r IH]; simpl; [constructor|].
  destruct (is_sep c) eqn:E; [constructor | now constructor].
Qed.

Lemma nosep_prefix_app (np rest : list ascii) :
  Forall (fun c => is_sep c = false) np ->
  (rest = [] \/ exists c r, rest = c :: r /\ is_sep c = true) ->
  nosep_prefix (np ++ rest) = np.
Proof.
  intros Hnp Hrest. induction Hnp as [|c np Hc _ IH]; simpl.
  - destruct Hrest as [->|(c & r & -> & Hc)]; simpl; [reflexivity | now rewrite Hc].
  - rewrite Hc, IH. reflexivity.
Qed.

Lemma ext_scan_length (r tail : list ascii) :
  (List.length (ext_scan r tail) <= List.length r + List.length tail)%nat.
Proof.
  revert tail. induction r as [|c r IH]; intros tail; simpl; [lia|].
  destruct (is_sep c); simpl; [lia|].
  destruct (is_dot c); simpl; [lia|].
  specialize (IH (c :: tail)). simpl in IH. lia.
Qed.

Lemma rsplit_last (r cur : list ascii) :
  exists front, rsplit r cur = (front ++ [last_elem r cur])%list.
Proof.
  revert cur. induction r as [|c r IH]; intros cur; simpl.
  - now exists [].
  - destruct (is_sep c); [now exists (rsplit r []) | apply IH].
Qed.

Lemma join_elems_last (es : list (list ascii)) (e : list ascii) :
  exists pre, join_elems (es ++ [e]) = (pre ++ e)%list /\ sep_ended pre.
Proof.
  induction es as [|x es IH]; simpl.
  - exists []. split; [reflexivity | now left].
  - destruct IH as (pre & Hj & Hpre).
    destruct (es ++ [e])%list eqn:E; [now destruct es|].
    rewrite Hj. exists (x ++ "/"%char :: pre)%list. split.
    + now rewrite <- app_assoc.
    + right. destruct Hpre as [->|(pre' & ->)].
      * now exists x.
      * exists (x ++ "/"%char :: pre')%list. now rewrite <- app_assoc.
Qed.

Lemma long_elem (e : list ascii) :
  (3 <= List.length e)%nat -> is_dot_elem e = false /\ is_dotdot_elem e = false.
Proof. destruct e as [|a [|b [|c e]]]; simpl; intros H; try lia; now split. Qed.

Lemma Clean_last_elem (path : string) :
  let e := last_elem (rev (chars path)) [] in
  e <> [] -> is_dot_elem e = false -> is_dotdot_elem e = false ->
  exists pre, Clean path = str (pre ++ e) /\ sep_ended pre.
Proof.
  intros e He Hdot Hdotdot. destruct path as [|c s].
  - simpl in e. subst e. now elim He.
  - unfold Clean, elements.
    destruct (rsplit_last (rev (chars (String c s))) []) as (front & Hsplit).
    fold e in Hsplit. rewrite Hsplit, fold_left_app. simpl fold_left.
    destruct (fold_left (clean_step (is_sep c)) front (O, [])) as (dd, out).
    assert (Hstep : clean_step (is_sep c) (dd, out) e = (dd, e :: out)).
    { unfold clean_step. rewrite Hdot, Hdotdot.
      destruct e; [now elim He | reflexivity]. }
    rewrite Hstep. simpl rev. rewrite app_assoc.
    destruct (join_elems_last (repeat ["."%char; "."%char] dd ++ rev out) e)
      as (pre & Hj & Hpre).
    rewrite Hj.
    destruct (is_sep c).
    + exists ("/"%char :: pre)%list. split.
      * simpl. reflexivity.
      * right. destruct Hpre as [->|(pre' & ->)];
          [now exists [] | now exists ("/"%char :: pre')%list].
    + exists pre. split; [|exact Hpre].
      destruct (pre ++ e)%list eqn:E; [|reflexivity].
      apply app_eq_nil in E. destruct E as [_ E]. now elim He.
Qed.

(** An extension is empty or starts with a dot. *)
Lemma ext_scan_head (r tail : list ascii) :
  ext_scan r tail = []
  \/ exists c l, ext_scan r tail = c :: l /\ is_dot c = true.
Proof.
  revert tail. induction r as [|c r IH]; intros tail; simpl; [now left|].
  destruct (is_sep c); [now left|].
  destruct (is_dot c) eqn:E; [right; now exists c, tail | apply IH].
Qed.

(** A last element with an extension of two bytes or more is neither
    [.] nor [..]. *)
Lemma ext_scan_elem (np : list ascii) :
  (2 <= List.length (ext_scan np []))%nat ->
  rev np <> [] /\ is_dot_elem (rev np) = false
  /\ is_dotdot_elem (rev np) = false.
Proof.
  destruct np as [|a [|b [|c np]]]; cbn [ext_scan rev app].
  - cbn. lia.
  - destruct (is_sep a); [cbn; lia|]. destruct (is_dot a); cbn; lia.
  - destruct (is_sep a); [cbn; lia|].
    destruct (is_dot a) eqn:Ea; [cbn; lia|].
    intros _. cbn [is_dot_elem is_dotdot_elem]. rewrite Ea, andb_false_r.
    repeat split. discriminate.
  - intros _.
    assert (H : (3 <= List.length (((rev np ++ [c]) ++ [b]) ++ [a])%list)%nat)
      by (rewrite !length_app; simpl; lia).
    split; [|now apply long_elem].
    intros E. rewrite E in H. simpl in H. lia.
Qed.

Lemma Ext_Clean (path : string) :
  (2 <= String.length (Ext path))%nat -> Ext (Clean path) = Ext path.
Proof.
  intros Hlen. unfold Ext in *. rewrite str_length in Hlen.
  rewrite (ext_scan_nosep (rev (chars path))) in Hlen |- *.
  set (np := nosep_prefix (rev (chars path))) in *.
  destruct (ext_scan_elem np Hlen) as (Hne & Hdot & Hdotdot).
  destruct (Clean_last_elem path) as (pre & HC & Hpre);
    try (rewrite last_elem_nosep, app_nil_r; assumption).
  rewrite HC, chars_str, last_elem_nosep, app_nil_r, rev_app_distr, rev_involutive.
  fold np. rewrite (ext_scan_nosep (np ++ rev pre)).
  rewrite nosep_prefix_app; [reflexivity | apply nosep_prefix_Forall |].
  destruct Hpre as [->|(pre' & ->)]; [now left | right].
  rewrite rev_app_distr. simpl. now exists "/"%char, (rev pre').
Qed.

(** ** The directory scan *)

Lemma recognized_spec (table : Z -> Z) (path : string) :
  recognized table path = true
  <-> In (ToLower table (Ext path)) video_extensions.
Proof.
  unfold recognized. rewrite existsb_exists. split.
  - intros (x & Hx & E). apply String.eqb_eq in E. now subst.
  - intros H. exists (ToLower table (Ext path)).
    split; [exact H | apply String.eqb_refl].
Qed.

Lemma video_extension_length (ext : string) :
  In ext video_extensions -> String.length ext = 4%nat.
Proof. intros [H|[H|[H|[H|[]]]]]; now rewrite <- H. Qed.

(** A recognized path has an extension of two bytes or more: the
    lower-case forms of the empty string and of one dot are these
    strings themselves. *)
Lemma recognized_ext_long (table : Z -> Z) (path : string) :
  recognized table path = true -> (2 <= String.length (Ext path))%nat.
Proof.
  rewrite recognized_spec. intros H. apply video_extension_length in H.
  unfold Ext in *.
  destruct (ext_scan_head (rev (chars path)) []) as [E|(c & l & E & Hc)];
    rewrite E in *.
  - simpl in H. discriminate.
  - destruct l as [|d l]; [|simpl; lia].
    unfold is_dot, byte_between in Hc. apply andb_true_iff in Hc.
    destruct Hc as [Hlo Hhi]. apply Z.leb_le in Hlo, Hhi.
    unfold ToLower in H. simpl in H.
    replace (byte_val c <? 128) with true in H
      by (symmetry; apply Z.ltb_lt; lia).
    simpl in H. discriminate.
Qed.

Lemma recognized_Clean (table : Z -> Z) (path : string) :
  recognized table path = true -> recognized table (Clean path) = true.
Proof.
  intros H. unfold recognized. rewrite Ext_Clean; [exact H|].
  now apply (recognized_ext_long table).
Qed.

Lemma run_walk_ext (f g : Visit -> list string -> list string * option error) :
  (forall v vs, f v vs = g v vs) ->
  forall visits vs, run_walk f visits vs = run_walk g visits vs.
Proof.
  intros H visits. induction visits as [|v r IH]; intros vs; simpl; [reflexivity|].
  rewrite H. destruct (g v vs) as [vs' [e|]]; [reflexivity | apply IH].
Qed.

Lemma run_walk_keep (keep : Visit -> bool) (out : Visit -> string)
    (visits : list Visit) (acc videos : list string) :
  run_walk (keep_fn keep out) visits acc = (videos, None) ->
  videos = (acc ++ map out (filter keep visits))%list
  /\ Forall (fun v => visit_err v = None) visits.
Proof.
  revert acc. induction visits as [|v r IH]; intros acc; simpl.
  - intros [= <-]. now rewrite app_nil_r.
  - unfold keep_fn at 1. destruct (visit_err v) eqn:Ev; [discriminate|].
    destruct (keep v); intros H; apply IH in H; destruct H as [-> Hr]; simpl;
      (split; [|now constructor]).
    + now rewrite <- app_assoc.
    + reflexivity.
Qed.

Lemma map_get_allowedExt (ext : string) :
  map_get VideoMerger.allowedExt ext = existsb (String.eqb ext) video_extensions.
Proof.
  simpl. repeat (destruct (String.eqb ext _); [reflexivity|]). reflexivity.
Qed.

Lemma VideoMerger_walkFn_keep (env : Env) (v : Visit) (videos : list string) :
  VideoMerger.walkFn env v videos
  = keep_fn (kept (lower_case env)) (fun v => Clean (visit_path v)) v videos.
Proof.
  unfold VideoMerger.walkFn, keep_fn, kept, recognized.
  rewrite map_get_allowedExt.
  destruct (visit_err v); [reflexivity|]. now destruct (IsDir v).
Qed.

Lemma Legacy_walkFn_keep (env : Env) (v : Visit) (videos : list string) :
  Legacy.walkFn env v videos
  = keep_fn (kept (lower_case env)) visit_path v videos.
Proof.
  unfold Legacy.walkFn, keep_fn, kept, recognized. simpl existsb.
  rewrite orb_false_r, !orb_assoc.
  destruct (visit_err v); [reflexivity|]. now destruct (IsDir v).
Qed.

Lemma VideoMerger_getVideoFiles_ok (env : Env) (sourceDir : string)
    (videos : list string) :
  VideoMerger.getVideoFiles env sourceDir = (videos, None) ->
  videos = sort_Strings
             (map (fun v => Clean (visit_path v))
                  (filter (kept (lower_case env)) (walk env sourceDir)))
  /\ Forall (fun v => visit_err v = None) (walk env sourceDir).
Proof.
  unfold VideoMerger.getVideoFiles.
  rewrite (run_walk_ext _ _ (VideoMerger_walkFn_keep env)).
  destruct (run_walk _ _ _) as [vs [e|]] eqn:E; [discriminate|].
  apply run_walk_keep in E. simpl in E. destruct E as [-> Hv].
  now intros [= <-].
Qed.

Lemma Legacy_getVideoFiles_ok (env : Env) (sourceDir : string)
    (videos : list string) :
  Legacy.getVideoFiles env sourceDir = (videos, None) ->
  videos = sort_Strings
             (map visit_path
                  (filter (kept (lower_case env)) (walk env sourceDir)))
  /\ Forall (fun v => visit_err v = None) (walk env sourceDir).
Proof.
  unfold Legacy.getVideoFiles.
  rewrite (run_walk_ext _ _ (Legacy_walkFn_keep env)).
  destruct (run_walk _ _ _) as [vs [e|]] eqn:E; [discriminate|].
  apply run_walk_keep in E. simpl in E. destruct E as [-> Hv].
  now intros [= <-].
Qed.

Lemma VideoMerger_getVideoFiles_err (env : Env) (sourceDir : string)
    (videos : list string) (e : error) :
  VideoMerger.getVideoFiles env sourceDir = (videos, Some e) -> videos = [].
Proof.
  unfold VideoMerger.getVideoFiles.
  destruct (run_walk _ _ _) as [vs [e'|]]; now intros [= <-].
Qed.

Lemma Legacy_getVideoFiles_err (env : Env) (sourceDir : string)
    (videos : list string) (e : error) :
  Legacy.getVideoFiles env sourceDir = (videos, Some e) -> videos = [].
Proof.
  unfold Legacy.getVideoFiles.
  destruct (run_walk _ _ _) as [vs [e'|]]; now intros [= <-].
Qed.

(** C3: for every directory, [getVideoFiles] returns a sorted list in
    which every path carries one of the extensions .mp4, .mov, .avi,
    .mkv (compared in lower case, as [strings.ToLower] gives it) and
    belongs to a visited entry that is not a directory.  This holds in
    both revisions, whatever the case tables of package [unicode]. *)
Theorem getVideoFiles_only_videos_sorted (env : Env) (sourceDir : string) :
  scan_result_ok (lower_case env) (walk env sourceDir) Clean
    (fst (VideoMerger.getVideoFiles env sourceDir))
  /\ scan_result_ok (lower_case env) (walk env sourceDir) (fun p => p)
       (fst (Legacy.getVideoFiles env sourceDir)).
Proof.
  split.
  - destruct (VideoMerger.getVideoFiles env sourceDir) as [videos [e|]] eqn:E.
    + apply VideoMerger_getVideoFiles_err in E. subst. split; [constructor|].
      intros p [].
    + apply VideoMerger_getVideoFiles_ok in E. destruct E as [-> Herr].
      simpl. split; [apply sort_Strings_sorted|].
      intros p Hp. apply sort_Strings_In, in_map_iff in Hp.
      destruct Hp as (v & <- & Hv). apply filter_In in Hv.
      destruct Hv as [Hv Hk]. unfold kept in Hk.
      apply andb_true_iff in Hk. destruct Hk as [Hd Hr]. split.
      * now apply recognized_spec, recognized_Clean.
      * exists v. repeat split; try assumption.
        -- now apply negb_true_iff.
        -- rewrite Forall_forall in Herr. now apply Herr.
  - destruct (Legacy.getVideoFiles env sourceDir) as [videos [e|]] eqn:E.
    + apply Legacy_getVideoFiles_err in E. subst. split; [constructor|].
      intros p [].
    + apply Legacy_getVideoFiles_ok in E. destruct E as [-> Herr].
      simpl. split; [apply sort_Strings_sorted|].
      intros p Hp. apply sort_Strings_In, in_map_iff in Hp.
      destruct Hp as (v & <- & Hv). apply filter_In in Hv.
      destruct Hv as [Hv Hk]. unfold kept in Hk.
      apply andb_true_iff in Hk. destruct Hk as [Hd Hr]. split.
      * now apply recognized_spec.
      * exists v. repeat split; try assumption.
        -- now apply negb_true_iff.
        -- rewrite Forall_forall in Herr. now apply Herr.
Qed.

Lemma scan_accepts_sorted_kept (table : Z -> Z) (visits : list Visit)
    (out : string -> string) :
  scan_accepts table visits out
    (sort_Strings (map (fun v => out (visit_path v))
                       (filter (kept table) visits))).
Proof.
  intros p. rewrite sort_Strings_In, in_map_iff. split.
  - intros (v & <- & Hv). apply filter_In in Hv. destruct Hv as [Hv Hk].
    apply andb_true_iff in Hk. destruct Hk as [Hd Hr].
    exists v. repeat split; [exact Hv | now apply negb_true_iff |].
    now apply recognized_spec.
  - intros (v & Hv & Hd & Hr & ->). exists v. split; [reflexivity|].
    apply filter_In. split; [exact Hv|]. unfold kept.
    rewrite Hd. simpl. now apply recognized_spec.
Qed.

Lemma same_letter_lower (c d : ascii) :
  same_letter c d = true -> lower_byte d = d -> byte_val d < 128 ->
  lower_byte c = d /\ byte_val c < 128.
Proof.
  unfold same_letter, lower_byte, byte_between, byte_val.
  intros H Hd Hlt. apply orb_true_iff in H. destruct H as [H|H];
    [apply orb_true_iff in H; destruct H as [H|H]|].
  - apply Ascii.eqb_eq in H. subst d. now split.
  - apply andb_true_iff in H. destruct H as [Hc H]. rewrite Hc.
    apply andb_true_iff in Hc. destruct Hc as [Hlo Hhi].
    apply Z.leb_le in Hlo, Hhi. apply Z.eqb_eq in H. split; [|lia].
    rewrite <- (ascii_N_embedding d). f_equal. lia.
  - apply andb_true_iff in H. destruct H as [Hu H]. rewrite Hu in Hd.
    apply andb_true_iff in Hu. destruct Hu as [Hlo Hhi].
    apply Z.leb_le in Hlo, Hhi. exfalso.
    apply (f_equal N_of_ascii) in Hd. rewrite N_ascii_embedding in Hd; lia.
Qed.

(** A string that differs from a lower-case ASCII string in case only
    is lowered to it, whatever the case tables. *)
Lemma same_but_case_ToLower (table : Z -> Z) (a b : string) :
  same_but_case a b = true -> lower_bytes b = b -> isASCII b = true ->
  ToLower table a = b.
Proof.
  intros H Hb Hasc. unfold ToLower.
  assert (Hab : lower_bytes a = b /\ isASCII a = true).
  { revert b H Hb Hasc. induction a as [|c a IH]; intros [|d b] H Hb Hasc;
      simpl in *; try discriminate; [now split|].
    apply andb_true_iff in H. destruct H as [Hcd H].
    apply andb_true_iff in Hasc. destruct Hasc as [Hd Hasc].
    injection Hb as Hd' Hb. apply Z.ltb_lt in Hd.
    destruct (same_letter_lower c d Hcd Hd' Hd) as [-> Hc].
    destruct (IH b H Hb Hasc) as [-> ->].
    split; [reflexivity|]. apply andb_true_iff. split; [|reflexivity].
    now apply Z.ltb_lt. }
  destruct Hab as [-> ->]. reflexivity.
Qed.

Lemma video_extension_lower (ext : string) :
  In ext video_extensions -> lower_bytes ext = ext /\ isASCII ext = true.
Proof. intros [H|[H|[H|[H|[]]]]]; subst; now split. Qed.

Lemma scan_ignores_case_kept (table : Z -> Z) (visits : list Visit)
    (out : string -> string) :
  scan_ignores_case visits out
    (sort_Strings (map (fun v => out (visit_path v))
                       (filter (kept table) visits))).
Proof.
  intros v ext Hv Hd Hext Hsame.
  apply (scan_accepts_sorted_kept table). exists v.
  repeat split; try assumption.
  destruct (video_extension_lower ext Hext) as [Hl Ha].
  now rewrite (same_but_case_ToLower table _ ext Hsame Hl Ha).
Qed.

(** C10: the scan compares extensions without regard to case: when
    the walk meets no error, a visited file is returned exactly when
    the lower-case form of its extension, as [strings.ToLower] gives
    it, is one of .mp4, .mov, .avi, .mkv; so every file whose
    extension is one of these four in any mix of upper and lower case
    (.MP4, .Mov, ...) is returned.  This holds in both revisions. *)
Theorem getVideoFiles_case_insensitive (env : Env) (sourceDir : string) :
  (snd (VideoMerger.getVideoFiles env sourceDir) = None ->
   scan_accepts (lower_case env) (walk env sourceDir) Clean
     (fst (VideoMerger.getVideoFiles env sourceDir))
   /\ scan_ignores_case (walk env sourceDir) Clean
        (fst (VideoMerger.getVideoFiles env sourceDir)))
  /\ (snd (Legacy.getVideoFiles env sourceDir) = None ->
      scan_accepts (lower_case env) (walk env sourceDir) (fun p => p)
        (fst (Legacy.getVideoFiles env sourceDir))
      /\ scan_ignores_case (walk env sourceDir) (fun p => p)
           (fst (Legacy.getVideoFiles env sourceDir))).
Proof.
  split.
  - destruct (VideoMerger.getVideoFiles env sourceDir) as [videos err] eqn:E.
    simpl. intros ->. apply VideoMerger_getVideoFiles_ok in E.
    destruct E as [-> _].
    split; [apply scan_accepts_sorted_kept | apply scan_ignores_case_kept].
  - destruct (Legacy.getVideoFiles env sourceDir) as [videos err] eqn:E.
    simpl. intros ->. apply Legacy_getVideoFiles_ok in E.
    destruct E as [-> _]. split.
    + apply (scan_accepts_sorted_kept _ _ (fun p => p)).
    + apply (scan_ignores_case_kept _ _ (fun p => p)).
Qed.

Example sample_scan :
  VideoMerger.getVideoFiles sample_env "./source"
  = (["source/A.MP4"; "source/b.Mov"], None)
  /\ Legacy.getVideoFiles sample_env "./source"
     = (["source/A.MP4"; "source/b.Mov"], None).
Proof. split; vm_compute; reflexivity. Qed.

(** The file [A.MP4] of the sample directory is returned: its
    extension is [.mp4] but for the case. *)
Lemma getVideoFiles_case_insensitive_witness :
  In "source/A.MP4" (fst (VideoMerger.getVideoFiles sample_env "./source"))
  /\ In "source/A.MP4" (fst (Legacy.getVideoFiles sample_env "./source")).
Proof.
  destruct (getVideoFiles_case_insensitive sample_env "./source") as [H1 H2].
  destruct (H1 eq_refl) as [_ Hvm]. destruct (H2 eq_refl) as [_ Hlegacy].
  split.
  - apply (Hvm {| visit_path := "source/A.MP4"; visit_dir := Some false;
                  visit_err := None |} ".mp4");
      [vm_compute; tauto | reflexivity | simpl; tauto | reflexivity].
  - apply (Hlegacy {| visit_path := "source/A.MP4"; visit_dir := Some false;
                      visit_err := None |} ".mp4");
      [vm_compute; tauto | reflexivity | simpl; tauto | reflexivity].
Defined.

(** Beyond ASCII, [strings.ToLower] follows the case tables: with the
    Kelvin sign for [k] or the dotted capital I for [i] an extension
    is lowered to a video extension too, and such a file is
    returned. *)
Example ToLower_beyond_ASCII :
  ToLower sample_lower (".m" ++ kelvin_sign ++ "v") = ".mkv"
  /\ ToLower sample_lower (".AV" ++ dotted_I) = ".avi"
  /\ recognized sample_lower ("source/c.m" ++ kelvin_sign ++ "v") = true.
Proof. vm_compute. repeat split. Qed.

(** ** Colour parsing *)

Lemma hexToRGBA_alpha (hex : string) : Alpha (hexToRGBA hex) = 255.
Proof.
  unfold hexToRGBA. destruct (Sscanf_hash_rgb hex 0 0 0) as [[[r g] b] err].
  reflexivity.
Qed.

(** C2: on the malformed colour ["#ff"] the parse used by [main] keeps
    the component read before the error and returns red, not black;
    [hexToRGBA2], which [main] never calls, returns black there. *)
Theorem hexToRGBA_malformed_not_black :
  hexToRGBA "#ff" = mkRGBA 255 0 0 255
  /\ hexToRGBA "#ff" <> black
  /\ hexToRGBA2 "#ff" = black.
Proof.
  split; [reflexivity|]. split; [discriminate | reflexivity].
Qed.

Example hexToRGBA_more_malformed :
  hexToRGBA "#12345" = mkRGBA 18 52 5 255
  /\ hexToRGBA "#-1" = mkRGBA 255 0 0 255
  /\ hexToRGBA "#ffffffzz" = mkRGBA 255 255 255 255
  /\ hexToRGBA "#zzzzzz" = black
  /\ hexToRGBA "" = black.
Proof. repeat split. Qed.

(** ** Reasoning about runs *)

Lemma wp_bind {T U} (m : M T) (k : T -> M U) Qs Qn w :
  wp m (fun x w' => wp (k x) Qs Qn w') Qn w -> wp (bind m k) Qs Qn w.
Proof. unfold wp, bind. now destruct (m w) as [[x|] w']. Qed.

Lemma wp_mono {T} (m : M T) (Qs Qs' : T -> World -> Prop)
    (Qn Qn' : World -> Prop) w :
  wp m Qs Qn w ->
  (forall x w', Qs x w' -> Qs' x w') -> (forall w', Qn w' -> Qn' w') ->
  wp m Qs' Qn' w.
Proof. unfold wp. destruct (m w) as [[x|] w']; auto. Qed.

Lemma wp_seq {T U} (m : M T) (k : T -> M U) (Q : T -> World -> Prop) Qs Qn w :
  wp m Q Qn w -> (forall x w', Q x w' -> wp (k x) Qs Qn w') ->
  wp (bind m k) Qs Qn w.
Proof.
  intros Hm Hk. apply wp_bind. eapply wp_mono; [exact Hm | exact Hk | auto].
Qed.

Lemma wp_conj {U} (m : M U) (Q1 Q2 : U -> World -> Prop)
    (N1 N2 : World -> Prop) (w : World) :
  wp m Q1 N1 w -> wp m Q2 N2 w ->
  wp m (fun x w' => Q1 x w' /\ Q2 x w') (fun w' => N1 w' /\ N2 w') w.
Proof. unfold wp. destruct (m w) as [[x|] w']; auto. Qed.

Lemma flat_map_none {T U} (f : T -> list U) (l : list T) :
  Forall (fun x => f x = []) l -> flat_map f l = [].
Proof.
  induction 1 as [|x l Hx _ IH]; simpl; [reflexivity | now rewrite Hx, IH].
Qed.

Lemma wp_ret {T} (x : T) (Qs : T -> World -> Prop) Qn w :
  Qs x w -> wp (ret x) Qs Qn w.
Proof. exact (fun H => H). Qed.

(** A loop keeps an invariant that each round keeps. *)
Lemma wp_range {T} (l : list T) (body : T -> M unit)
    (I : World -> Prop) (Qn : World -> Prop) :
  (forall x w, In x l -> I w -> wp (body x) (fun _ => I) Qn w) ->
  forall w, I w -> wp (range l body) (fun _ => I) Qn w.
Proof.
  induction l as [|x l IH]; intros Hbody w Hw; simpl.
  - exact Hw.
  - eapply wp_seq; [apply Hbody; [now left | exact Hw]|].
    intros u w' Hw'. apply IH; [|exact Hw'].
    intros y w0 Hy. apply Hbody. now right.
Qed.

(** *** Failed calls *)

Lemma clean_snoc (tr : list Event) (e : Event) :
  clean tr -> ~ failed e -> clean (tr ++ [e]).
Proof. intros Ht He. apply Forall_app. split; [exact Ht | now constructor]. Qed.

Lemma stopped_intro (tr : list Event) (op : Op) (e : error) (msg : string) :
  clean tr ->
  stopped ((tr ++ [Call op (Some e)]) ++ [Printed (msg ++ e ++ nl)]).
Proof.
  intros Ht. exists tr, op, e, msg. split; [|exact Ht].
  now rewrite <- app_assoc.
Qed.

(** *** Temporary artifacts *)





Lemma run_deferred_trace (ds : list Deferred) (w : World) :
  trace (run_deferred ds w) = (trace w ++ map Ran ds)%list.
Proof.
  revert w. induction ds as [|d ds IH]; intros w; simpl.
  - now rewrite app_nil_r.
  - rewrite IH. simpl. now rewrite <- app_assoc.
Qed.

Lemma under_framePath (dir : string) (i j : Z) :
  under dir (framePath dir i j) = true.
Proof.
  unfold under, framePath. apply orb_true_iff. right.
  set (rest := fmt_d i ++ "_frame_" ++ fmt_0d 5 j ++ ".png").
  change (dir ++ "/text_" ++ rest) with (dir ++ ("/" ++ ("text_" ++ rest))).
  rewrite <- append_assoc. apply prefix_append.
Qed.

(** *** The invariant of [main] *)

Lemma covered_cons (accepts : string -> bool) (p : string) (d : Deferred)
    (ds : list Deferred) :
  covered accepts p ds -> covered accepts p (d :: ds).
Proof. intros (d' & Hin & Hr). exists d'. split; [now right | exact Hr]. Qed.

Lemma covered_here (accepts : string -> bool) (p : string) (d : Deferred)
    (ds : list Deferred) :
  removes accepts d p = true -> covered accepts p (d :: ds).
Proof. intros Hr. exists d. split; [now left | exact Hr]. Qed.

Lemma covered_in (accepts : string -> bool) (p : string) (d : Deferred)
    (ds : list Deferred) :
  In d ds -> removes accepts d p = true -> covered accepts p ds.
Proof. intros Hin Hr. now exists d. Qed.

Lemma temp_created_snoc (p : string) (tr : list Event) (e : Event) :
  temp_created p (tr ++ [e]) -> temp_created p tr \/ makes_temp e p.
Proof.
  intros (e' & Hin & Hm). apply in_app_or in Hin. destruct Hin as [Hin|[<-|[]]].
  - left. now exists e'.
  - now right.
Qed.

Lemma removes_RemoveAll_self (accepts : string -> bool) (dir : string) :
  accepts dir = true -> removes accepts (RemoveAll dir) dir = true.
Proof. intros H. simpl. unfold under. now rewrite H, String.eqb_refl. Qed.

Lemma removes_framePath (accepts : string -> bool) (dir : string) (i j : Z) :
  accepts dir = true ->
  removes accepts (RemoveAll dir) (framePath dir i j) = true.
Proof. intros H. simpl. now rewrite H, under_framePath. Qed.

Lemma removes_Remove_self (accepts : string -> bool) (name : string) :
  removes accepts (Remove name) name = true.
Proof. simpl. apply String.eqb_refl. Qed.

Lemma encode_cmd_clip (rate rate' : Z) (pat pat' clip clip' : string) :
  encode_cmd rate pat clip = encode_cmd rate' pat' clip' -> clip = clip'.
Proof. unfold encode_cmd. now intros [= _ _ H]. Qed.

Lemma concat_cmd_not_encode (f out : string) (rate : Z) (pat clip : string) :
  concat_cmd f out <> encode_cmd rate pat clip.
Proof. unfold concat_cmd, encode_cmd. discriminate. Qed.

(** Unfold one straight-line piece of [main] and split on the outcome
    of each call in it. *)
Ltac run_step :=
  cbv beta iota zeta
      delta [wp bind call call_with if_err Print defer ret return_ emit];
  cbn [fst snd clock files trace deferred].

Ltac run_calls :=
  run_step;
  repeat match goal with
         | |- context [fails ?env ?k] => destruct (fails env k) eqn:?; run_step
         end.

(** Split the hypothesis that a path was created over the events that
    were added to the trace. *)
Ltac split_created H :=
  repeat (apply temp_created_snoc in H; destruct H as [H|H]).

Ltac solve_clean :=
  repeat (apply clean_snoc; [|cbn; tauto]); assumption.

Lemma makes_temp_inv (e : Event) (p : string) :
  makes_temp e p ->
  match e with
  | Call (MkdirAll q) None => p = q
  | Call (SavePNG q _) None => p = q
  | Call (Create q) None => p = q
  | Call (Run args) None => exists rate pattern, args = encode_cmd rate pattern p
  | _ => False
  end.
Proof.
  intros [->|[(img & ->)|[->|(rate & pattern & ->)]]]; try reflexivity.
  now exists rate, pattern.
Qed.

(** Find, on the deferred stack, the call that removes the path. *)
Ltac find_cover :=
  first [ apply covered_here;
          first [ apply removes_Remove_self
                | apply removes_RemoveAll_self; assumption ]
        | eapply covered_in;
          [eassumption | apply removes_framePath; assumption]
        | apply covered_cons; find_cover ].

(** The path that one event created, if any, is covered. *)
Ltac cover_event H :=
  apply makes_temp_inv in H; cbv beta iota in H;
  first [ contradiction
        | subst; find_cover
        | destruct H as (? & ? & H);
          first [ apply encode_cmd_clip in H; subst; find_cover
                | exfalso; eapply concat_cmd_not_encode; exact H ] ].

(** Close the goals that [run_calls] leaves. *)
Ltac finish :=
  repeat match goal with
         | |- good_in _ _ _ => split; [|split]
         | |- good _ _ => split
         | |- halted _ _ => split
         end;
  cbn [trace deferred];
  first [ solve_clean
        | apply stopped_intro; solve_clean
        | solve [auto using in_cons, in_eq]
        | reflexivity
        | intros p H; split_created H;
          [ repeat apply covered_cons; auto | cover_event H .. ] ].

(** Run the next piece with its lemma and go on after it. *)
Ltac chain L :=
  eapply wp_seq;
  [ eapply L; eassumption
  | let H := fresh "Hw" in intros ? ? H; cbv beta in H ].

Lemma font_message (path e : string) :
  "Error loading font from path '" ++ path ++ "': " ++ e ++ nl
  = ("Error loading font from path '" ++ path ++ "': ") ++ e ++ nl.
Proof. now rewrite !append_assoc. Qed.

(** ** Every piece of [main] keeps the invariant *)

Section Rounds.

Variable env : Env.
Variable accepts : string -> bool.

Lemma save_frame_good (dir : string) (i j : Z) (img : Image) (w : World) :
  good_in accepts dir w ->
  wp (err <- call env (SavePNG (framePath dir i j) img) ;;
      if_err err (fun e => Print ("Error saving frame: " ++ e ++ nl) ;; return_))
     (fun _ => good_in accepts dir) (halted accepts) w.
Proof. intros [[Hc Hi] [Hd Ha]]. run_calls; finish. Qed.

(** One round of the loop that encodes the clips and writes the list;
    [msg] is the text printed when the line of the video cannot be
    written. *)
Lemma append_round_good (dir tempFile msg : string) (rate i : Z)
    (video : string) (w : World) :
  good_in accepts dir w ->
  wp ((if 0 <? i then
         err <- call env
                  (Run (encode_cmd rate (textFramesPattern dir i) (textVideo i))) ;;
         if_err err (fun e =>
           Print ("Error creating text transition video: " ++ e ++ nl) ;;
           return_) ;;
         defer (Remove (textVideo i)) ;;
         err <- call env (WriteString tempFile (file_line (textVideo i))) ;;
         if_err err (fun e =>
           Print ("Error writing to filelist: " ++ e ++ nl) ;; return_)
       else ret tt) ;;
      err <- call env (WriteString tempFile (file_line video)) ;;
      if_err err (fun e => Print (msg ++ e ++ nl) ;; return_))
     (fun _ => good_in accepts dir) (halted accepts) w.
Proof. intros [[Hc Hi] [Hd Ha]]. destruct (0 <? i); run_calls; finish. Qed.

End Rounds.

Section VideoMergerRuns.

Variable env : Env.
Variable accepts : string -> bool.

Lemma VM_loadConfig_good (w : World) :
  good accepts w ->
  wp (VideoMerger.loadConfig env)
     (fun config w' => config = config_json env /\ good accepts w')
     (halted accepts) w.
Proof.
  intros [Hc Hi]. unfold VideoMerger.loadConfig. run_calls;
    try (split; [reflexivity|]); finish.
Qed.

Lemma VM_loadVideos_good (config : Config) (w : World) :
  good accepts w ->
  wp (VideoMerger.loadVideos env config) (fun _ => good accepts)
     (halted accepts) w.
Proof.
  intros [Hc Hi]. unfold VideoMerger.loadVideos.
  destruct (List.length (Source config) =? 0)%nat.
  - destruct (VideoMerger.getVideoFiles env "./source") as [videos [e|]];
      run_calls; finish.
  - run_calls. now split.
Qed.

Lemma VM_prepareDir_good (config : Config) (w : World) :
  accepts (IntermediateTextDir (Dest config)) = true ->
  good accepts w ->
  wp (VideoMerger.prepareDir env config)
     (fun _ => good_in accepts (IntermediateTextDir (Dest config)))
     (halted accepts) w.
Proof.
  intros Ha [Hc Hi]. unfold VideoMerger.prepareDir. run_calls; finish.
Qed.

Lemma VM_loadFont_good (config : Config) (dir : string) (w : World) :
  good_in accepts dir w ->
  wp (VideoMerger.loadFont env config) (fun _ => good_in accepts dir)
     (halted accepts) w.
Proof.
  intros [[Hc Hi] [Hd Ha]]. unfold VideoMerger.loadFont. run_calls.
  - rewrite font_message. finish.
  - finish.
Qed.

Lemma VM_generateFrames_good (config : Config) (videos : list string)
    (face : Face) (textColor bgColor : RGBA) (w : World) :
  good_in accepts (IntermediateTextDir (Dest config)) w ->
  wp (VideoMerger.generateFrames env config videos face textColor bgColor)
     (fun _ => good_in accepts (IntermediateTextDir (Dest config)))
     (halted accepts) w.
Proof.
  unfold VideoMerger.generateFrames. apply wp_range.
  intros [i video] w0 _ Hw0. destruct (i =? 0); [exact Hw0|].
  apply wp_range; [|exact Hw0].
  intros j w1 _ Hw1. now apply save_frame_good.
Qed.

Lemma VM_createFileList_good (dir : string) (w : World) :
  good_in accepts dir w ->
  wp (VideoMerger.createFileList env) (fun _ => good_in accepts dir)
     (halted accepts) w.
Proof.
  intros [[Hc Hi] [Hd Ha]]. unfold VideoMerger.createFileList. run_calls; finish.
Qed.

Lemma VM_appendFileList_good (config : Config) (videos : list string)
    (tempFile : string) (w : World) :
  good_in accepts (IntermediateTextDir (Dest config)) w ->
  wp (VideoMerger.appendFileList env config videos tempFile)
     (fun _ => good_in accepts (IntermediateTextDir (Dest config)))
     (halted accepts) w.
Proof.
  unfold VideoMerger.appendFileList. apply wp_range.
  intros [i video] w0 _ Hw0. now apply append_round_good.
Qed.

Lemma VM_mergeVideos_good (dir tempFile output : string) (w : World) :
  good_in accepts dir w ->
  wp (VideoMerger.mergeVideos env tempFile output) (fun _ => good accepts)
     (halted accepts) w.
Proof.
  intros [[Hc Hi] [Hd Ha]]. unfold VideoMerger.mergeVideos. run_calls; finish.
Qed.

Lemma VM_pipeline_good (config : Config) (output : string)
    (videos : list string) (w : World) :
  accepts (IntermediateTextDir (Dest config)) = true ->
  good accepts w ->
  wp (VideoMerger.pipeline env config output videos) (fun _ => good accepts)
     (halted accepts) w.
Proof.
  intros Ha Hw. unfold VideoMerger.pipeline.
  chain VM_prepareDir_good. chain VM_loadFont_good.
  chain VM_generateFrames_good. chain VM_createFileList_good.
  chain VM_appendFileList_good.
  eapply VM_mergeVideos_good; eassumption.
Qed.

Lemma VM_main_good (w : World) :
  accepts (IntermediateTextDir (Dest (config_json env))) = true ->
  good accepts w ->
  wp (VideoMerger.main env) (fun _ => good accepts) (halted accepts) w.
Proof.
  intros Ha Hw. unfold VideoMerger.main.
  eapply wp_seq; [now apply VM_loadConfig_good|].
  cbv beta. intros config w1 [-> Hw1]. chain VM_loadVideos_good.
  now apply VM_pipeline_good.
Qed.

End VideoMergerRuns.

Section LegacyRuns.

Variable env : Env.
Variable accepts : string -> bool.

Lemma Legacy_loadConfig_good (w : World) :
  good accepts w ->
  wp (Legacy.loadConfig env)
     (fun config w' => config = config_json env /\ good accepts w')
     (halted accepts) w.
Proof.
  intros [Hc Hi]. unfold Legacy.loadConfig. run_calls;
    try (split; [reflexivity|]); finish.
Qed.

Lemma Legacy_loadVideos_good (videos : list string) (w : World) :
  good accepts w ->
  wp (Legacy.loadVideos env videos) (fun _ => good accepts)
     (halted accepts) w.
Proof.
  intros [Hc Hi]. unfold Legacy.loadVideos.
  destruct (List.length videos =? 0)%nat.
  - destruct (Legacy.getVideoFiles env "./source") as [vvv [e|]];
      run_calls; finish.
  - run_calls; finish.
Qed.

Lemma Legacy_prepareDir_good (dir : string) (w : World) :
  accepts dir = true ->
  good accepts w ->
  wp (Legacy.prepareDir env dir) (fun _ => good_in accepts dir)
     (halted accepts) w.
Proof.
  intros Ha [Hc Hi]. unfold Legacy.prepareDir. run_calls; finish.
Qed.

Lemma Legacy_loadFont_good (fontPath : string) (fontSize : float)
    (dir : string) (w : World) :
  good_in accepts dir w ->
  wp (Legacy.loadFont env fontPath fontSize) (fun _ => good_in accepts dir)
     (halted accepts) w.
Proof.
  intros [[Hc Hi] [Hd Ha]]. unfold Legacy.loadFont. run_calls.
  - rewrite font_message. finish.
  - finish.
Qed.

Lemma Legacy_generateFrames_good (dir : string)
    (frameWidth frameHeight frameRate textDuration : Z)
    (videos : list string) (face : Face) (textColor bgColor : RGBA)
    (w : World) :
  good_in accepts dir w ->
  wp (Legacy.generateFrames env dir frameWidth frameHeight frameRate
        textDuration videos face textColor bgColor)
     (fun _ => good_in accepts dir) (halted accepts) w.
Proof.
  unfold Legacy.generateFrames. apply wp_range.
  intros [i video] w0 _ Hw0. destruct (0 <? i); [|exact Hw0].
  apply wp_range; [|exact Hw0].
  intros j w1 _ Hw1. now apply save_frame_good.
Qed.

Lemma Legacy_createFileList_good (dir : string) (w : World) :
  good_in accepts dir w ->
  wp (Legacy.createFileList env) (fun _ => good_in accepts dir)
     (halted accepts) w.
Proof.
  intros [[Hc Hi] [Hd Ha]]. unfold Legacy.createFileList. run_calls; finish.
Qed.

Lemma Legacy_appendFileList_good (dir : string) (frameRate : Z)
    (videos : list string) (tempFile : string) (w : World) :
  good_in accepts dir w ->
  wp (Legacy.appendFileList env dir frameRate videos tempFile)
     (fun _ => good_in accepts dir) (halted accepts) w.
Proof.
  unfold Legacy.appendFileList. apply wp_range.
  intros [i video] w0 _ Hw0. now apply append_round_good.
Qed.

Lemma Legacy_mergeVideos_good (dir tempFile output : string) (w : World) :
  good_in accepts dir w ->
  wp (Legacy.mergeVideos env tempFile output) (fun _ => good accepts)
     (halted accepts) w.
Proof.
  intros [[Hc Hi] [Hd Ha]]. unfold Legacy.mergeVideos. run_calls; finish.
Qed.

Lemma Legacy_pipeline_good (config : Config) (output : string)
    (textColor bgColor : RGBA) (videos : list string) (w : World) :
  accepts (IntermediateTextDir (Dest config)) = true ->
  good accepts w ->
  wp (Legacy.pipeline env config output textColor bgColor videos)
     (fun _ => good accepts) (halted accepts) w.
Proof.
  intros Ha Hw. unfold Legacy.pipeline. cbv zeta.
  chain Legacy_prepareDir_good. chain Legacy_loadFont_good.
  chain Legacy_generateFrames_good. chain Legacy_createFileList_good.
  chain Legacy_appendFileList_good.
  eapply Legacy_mergeVideos_good; eassumption.
Qed.

Lemma Legacy_main_good (w : World) :
  accepts (IntermediateTextDir (Dest (config_json env))) = true ->
  good accepts w ->
  wp (Legacy.main env) (fun _ => good accepts) (halted accepts) w.
Proof.
  intros Ha Hw. unfold Legacy.main.
  eapply wp_seq; [now apply Legacy_loadConfig_good|].
  cbv beta. intros config w1 [-> Hw1]. cbv zeta.
  chain Legacy_loadVideos_good.
  now apply Legacy_pipeline_good.
Qed.

End LegacyRuns.

(** *** From the invariant to whole runs *)

Lemma good_start (accepts : string -> bool) (fs : list string) :
  good accepts (start fs).
Proof.
  split; [constructor|]. intros p (e & [] & _).
Qed.

Lemma wp_ended (accepts : string -> bool) (body : M unit) (w : World) :
  wp body (fun _ => good accepts) (halted accepts) w ->
  ended accepts (snd (body w)).
Proof.
  unfold wp. destruct (body w) as [[u|] w']; simpl; intros [H1 H2];
    split; auto.
Qed.



(** ** Cleanup *)


Example concat_fails_trace :
  skipn 12 (trace (exec (VideoMerger.main (two_videos_env concat_fails)) (start [])))
  = [ Printed ("Merging videos into: out.mp4" ++ nl);
      Call (Run (concat_cmd "/tmp/filelist_42.txt" "out.mp4"))
           (Some "exit status 1");
      Printed ("Error merging videos: exit status 1" ++ nl);
      Ran (Remove "text_transition_1.mp4");
      Ran (Close "/tmp/filelist_42.txt");
      Ran (Remove "/tmp/filelist_42.txt");
      Ran (RemoveAll "frames") ].
Proof. vm_compute. reflexivity. Qed.



(** When the frame directory lies in directories that do not exist
    yet, [os.MkdirAll] makes them too, and they are left behind: the
    deferred [os.RemoveAll] removes the frame directory alone. *)
Example parents_survive :
  files (exec (VideoMerger.main nested_dir_env) (start []))
  = ["out.mp4"; "tmp/work"; "tmp"]
  /\ files (exec (Legacy.main nested_dir_env) (start []))
     = ["out.mp4"; "tmp/work"; "tmp"].
Proof. split; vm_compute; reflexivity. Qed.

(** ** Failures *)

Lemma unique_failed (l1 l2 r1 r2 : list Event) (a b : Event) :
  (l1 ++ a :: r1 = l2 ++ b :: r2)%list ->
  failed a -> failed b -> clean l2 -> clean r2 ->
  l1 = l2 /\ a = b /\ r1 = r2.
Proof.
  revert l1. induction l2 as [|y l2 IH]; intros [|x l1] E Ha Hb Hl Hr;
    simpl in E; injection E as -> E.
  - now subst.
  - exfalso. subst r2. apply Forall_app in Hr. destruct Hr as [_ Hr].
    inversion Hr; subst. contradiction.
  - exfalso. inversion Hl; subst. contradiction.
  - inversion Hl; subst. destruct (IH l1 E Ha Hb) as (-> & -> & ->); auto.
Qed.

Lemma clean_Ran (ds : list Deferred) : clean (map Ran ds).
Proof. induction ds; constructor; auto. Qed.

(** Once the body of [main] has ended, a failed call in the trace of
    the run is followed by its message and by deferred calls only. *)
Lemma exec_failure_last (accepts : string -> bool) (body : M unit)
    (w : World) (pre post : list Event) (op : Op) (e : error) :
  ended accepts (snd (body w)) ->
  trace (exec body w) = (pre ++ Call op (Some e) :: post)%list ->
  exists msg ds, post = Printed (msg ++ e ++ nl) :: map Ran ds.
Proof.
  unfold exec. cbv zeta. intros [[Hc|Hs] _]; rewrite run_deferred_trace; intros E.
  - exfalso.
    assert (Hall : clean (pre ++ Call op (Some e) :: post)).
    { rewrite <- E. apply Forall_app. split; [exact Hc | apply clean_Ran]. }
    apply Forall_app in Hall. destruct Hall as [_ Hall].
    inversion Hall; subst. simpl in *. tauto.
  - destruct Hs as (pre0 & op0 & e0 & msg & Etr & Hpre).
    rewrite Etr, <- app_assoc in E. simpl in E. symmetry in E.
    apply unique_failed in E; simpl; auto.
    + destruct E as (_ & [= _ ->] & ->). now exists msg, (deferred (snd (body w))).
    + constructor; [simpl; tauto | apply clean_Ran].
Qed.

(** C9: in both revisions every failed call is terminal: in the trace
    of a run, a failed call (reading or parsing the configuration,
    scanning the directory, creating the directory, loading the font,
    saving a frame, creating, writing or syncing the file list,
    running [ffmpeg]) is followed by the printed error and then only
    by the deferred calls; no later call of the pipeline is made. *)
Theorem failure_is_terminal (env : Env) (fs : list string) :
  (forall pre op e post,
     trace (exec (VideoMerger.main env) (start fs))
     = (pre ++ Call op (Some e) :: post)%list ->
     exists msg ds, post = Printed (msg ++ e ++ nl) :: map Ran ds)
  /\ (forall pre op e post,
        trace (exec (Legacy.main env) (start fs))
        = (pre ++ Call op (Some e) :: post)%list ->
        exists msg ds, post = Printed (msg ++ e ++ nl) :: map Ran ds).
Proof.
  split; intros pre op e post;
    apply (exec_failure_last any_dir), wp_ended.
  - apply VM_main_good; [reflexivity | apply good_start].
  - apply Legacy_main_good; [reflexivity | apply good_start].
Qed.

Lemma failure_is_terminal_witness :
  (exists msg ds,
     [ Printed ("Error merging videos: exit status 1" ++ nl);
       Ran (Remove "text_transition_1.mp4");
       Ran (Close "/tmp/filelist_42.txt");
       Ran (Remove "/tmp/filelist_42.txt");
       Ran (RemoveAll "frames") ]
     = Printed (msg ++ "exit status 1" ++ nl) :: map Ran ds)
  /\ (exists msg ds,
        [ Printed ("Error merging videos: exit status 1" ++ nl);
          Ran (Remove "text_transition_1.mp4");
          Ran (Remove "filelist.txt");
          Ran (Close "filelist.txt");
          Ran (RemoveAll "frames") ]
        = Printed (msg ++ "exit status 1" ++ nl) :: map Ran ds).
Proof.
  destruct (failure_is_terminal (two_videos_env concat_fails) []) as [H1 H2].
  split.
  - apply (H1 (firstn 13 (trace (exec (VideoMerger.main (two_videos_env concat_fails))
                                   (start []))))
              (Run (concat_cmd "/tmp/filelist_42.txt" "out.mp4"))).
    vm_compute. reflexivity.
  - apply (H2 (firstn 15 (trace (exec (Legacy.main (two_videos_env concat_fails))
                                   (start []))))
              (Run (concat_cmd "filelist.txt" "out.mp4"))).
    vm_compute. reflexivity.
Defined.

(** ** Loops over the videos *)

Lemma indexed_cons {T} (x : T) (l : list T) :
  indexed (x :: l) = (0, x) :: indexed_from 1 l.
Proof. reflexivity. Qed.

Lemma indexed_from_cons {T} (k : nat) (x : T) (l : list T) :
  indexed_from k (x :: l) = (Z.of_nat k, x) :: indexed_from (S k) l.
Proof. reflexivity. Qed.

Lemma In_indexed_from {T} (k : nat) (l : list T) (i : Z) (x : T) :
  In (i, x) (indexed_from k l) ->
  exists n, i = Z.of_nat (k + n) /\ nth_error l n = Some x.
Proof.
  revert k. induction l as [|y l IH]; intros k; [intros []|].
  rewrite indexed_from_cons. intros [[= <- <-]|Hin].
  - exists O. split; [f_equal; lia | reflexivity].
  - apply IH in Hin. destruct Hin as (n & -> & Hn).
    exists (S n). split; [f_equal; lia | exact Hn].
Qed.

Lemma In_indexed {T} (l : list T) (i : Z) (x : T) :
  In (i, x) (indexed l) -> 0 <= i /\ nth_error l (Z.to_nat i) = Some x.
Proof.
  intros Hin. apply (In_indexed_from O) in Hin. destruct Hin as (n & -> & Hn).
  simpl. split; [lia | now rewrite Nat2Z.id].
Qed.

(** A loop whose rounds each extend an observation of the world
    extends it by all its rounds. *)
Lemma wp_range_fold {T S} (obs : World -> S) (step : S -> T -> S)
    (Qn : World -> Prop) (l : list T) (body : T -> M unit) :
  (forall x w, In x l ->
     wp (body x) (fun _ w' => obs w' = step (obs w) x) Qn w) ->
  forall w, wp (range l body) (fun _ w' => obs w' = fold_left step l (obs w)) Qn w.
Proof.
  induction l as [|x l IH]; intros Hbody w; simpl; [reflexivity|].
  eapply wp_seq; [apply Hbody; now left|].
  intros u w' Hw'. cbv beta in Hw'. rewrite <- Hw'. apply IH.
  intros y w0 Hy. apply Hbody. now right.
Qed.

Lemma fold_left_app_flat_map {T U} (g : T -> list U) (l : list T) (s : list U) :
  fold_left (fun acc x => acc ++ g x)%list l s = (s ++ flat_map g l)%list.
Proof.
  revert s. induction l as [|x l IH]; intros s; simpl.
  - now rewrite app_nil_r.
  - now rewrite IH, <- app_assoc.
Qed.

Lemma fails_not_all_succeed (env : Env) (k : nat) (e : error) :
  fails env k = Some e -> ~ all_succeed env.
Proof. intros H Hall. rewrite Hall in H. discriminate. Qed.

(** From [wp] to the two facts about a piece that returns early only
    when a call fails. *)
Lemma wp_completes {T} (env : Env) (m : M T) (Q : World -> Prop) (w : World) :
  wp m (fun _ => Q) (fun _ => ~ all_succeed env) w ->
  (forall x, fst (m w) = Some x -> Q (snd (m w)))
  /\ (all_succeed env -> exists x, fst (m w) = Some x).
Proof.
  unfold wp. destruct (m w) as [[x|] w']; simpl; intros H.
  - split; [auto | eauto].
  - split; [discriminate | intros Hall; contradiction].
Qed.

(** ** The file list *)

Lemma interleave_length (i : Z) (videos : list string) :
  List.length (interleave i videos) = (2 * List.length videos)%nat.
Proof.
  revert i. induction videos as [|v r IH]; intros i; simpl; [reflexivity|].
  rewrite IH. lia.
Qed.

Lemma file_list_length (videos : list string) :
  videos <> [] ->
  List.length (file_list videos) = (2 * List.length videos - 1)%nat.
Proof.
  destruct videos as [|v r]; [congruence|]. intros _. simpl.
  rewrite interleave_length. lia.
Qed.

Lemma round_lines_from (k : nat) (videos : list string) :
  (1 <= k)%nat ->
  flat_map round_lines (indexed_from k videos) = interleave (Z.of_nat k) videos.
Proof.
  revert k. induction videos as [|v r IH]; intros k Hk; [reflexivity|].
  rewrite indexed_from_cons. simpl flat_map.
  destruct (0 <? Z.of_nat k) eqn:E; [|apply Z.ltb_ge in E; lia].
  simpl. rewrite IH by lia. now rewrite Nat2Z.inj_succ, Z.add_1_r.
Qed.

Lemma round_lines_file_list (videos : list string) :
  flat_map round_lines (indexed videos) = file_list videos.
Proof.
  destruct videos as [|v r]; [reflexivity|].
  rewrite indexed_cons. simpl. now rewrite round_lines_from.
Qed.

Lemma written_snoc (file : string) (tr : list Event) (e : Event) :
  written file (tr ++ [e]) = (written file tr ++ written file [e])%list.
Proof. unfold written. now rewrite flat_map_app. Qed.

Section FileList.

Variable env : Env.

Lemma append_round_written (dir tempFile msg : string) (rate i : Z)
    (video : string) (w : World) :
  wp ((if 0 <? i then
         err <- call env
                  (Run (encode_cmd rate (textFramesPattern dir i) (textVideo i))) ;;
         if_err err (fun e =>
           Print ("Error creating text transition video: " ++ e ++ nl) ;;
           return_) ;;
         defer (Remove (textVideo i)) ;;
         err <- call env (WriteString tempFile (file_line (textVideo i))) ;;
         if_err err (fun e =>
           Print ("Error writing to filelist: " ++ e ++ nl) ;; return_)
       else ret tt) ;;
      err <- call env (WriteString tempFile (file_line video)) ;;
      if_err err (fun e => Print (msg ++ e ++ nl) ;; return_))
     (fun _ w' =>
        written tempFile (trace w')
        = (written tempFile (trace w) ++ round_lines (i, video))%list)
     (fun _ => ~ all_succeed env) w.
Proof.
  unfold round_lines. destruct (0 <? i); run_calls;
    try (eapply fails_not_all_succeed; eassumption);
    rewrite !written_snoc; simpl; rewrite String.eqb_refl;
    now rewrite <- ?app_assoc, ?app_nil_r.
Qed.

Lemma VM_appendFileList_written (config : Config) (videos : list string)
    (tempFile : string) (w : World) :
  wp (VideoMerger.appendFileList env config videos tempFile)
     (fun _ w' =>
        written tempFile (trace w')
        = (written tempFile (trace w) ++ file_list videos)%list)
     (fun _ => ~ all_succeed env) w.
Proof.
  unfold VideoMerger.appendFileList.
  rewrite <- round_lines_file_list, <- fold_left_app_flat_map.
  apply (wp_range_fold (fun w => written tempFile (trace w))).
  intros [i video] w0 _. apply append_round_written.
Qed.

Lemma Legacy_appendFileList_written (dir : string) (frameRate : Z)
    (videos : list string) (tempFile : string) (w : World) :
  wp (Legacy.appendFileList env dir frameRate videos tempFile)
     (fun _ w' =>
        written tempFile (trace w')
        = (written tempFile (trace w) ++ file_list videos)%list)
     (fun _ => ~ all_succeed env) w.
Proof.
  unfold Legacy.appendFileList.
  rewrite <- round_lines_file_list, <- fold_left_app_flat_map.
  apply (wp_range_fold (fun w => written tempFile (trace w))).
  intros [i video] w0 _. apply append_round_written.
Qed.

End FileList.

Lemma wp_writes_lines (env : Env) (m : M unit) (w : World)
    (file : string) (lines : list string) :
  wp m (fun _ w' => written file (trace w')
                    = (written file (trace w) ++ lines)%list)
       (fun _ => ~ all_succeed env) w ->
  writes_lines env m w file lines.
Proof.
  intros H. apply wp_completes in H. destruct H as [H1 H2]. split.
  - apply H1.
  - intros Hall. destruct (H2 Hall) as ([] & E). exact E.
Qed.

(** C1: for every non-empty list of [n] videos, the loop that fills
    the file list writes exactly [2n-1] lines: the line of video 0,
    then for every later video the line of its transition clip
    followed by the line of the video.  This holds in both revisions. *)
Theorem file_list_entries (env : Env) (config : Config)
    (videos : list string) (tempFile : string) (w : World) :
  videos <> [] ->
  writes_lines env (VideoMerger.appendFileList env config videos tempFile)
    w tempFile (file_list videos)
  /\ writes_lines env
       (Legacy.appendFileList env (IntermediateTextDir (Dest config))
          (Rate (Frame config)) videos tempFile)
       w tempFile (file_list videos)
  /\ List.length (file_list videos) = (2 * List.length videos - 1)%nat.
Proof.
  intros Hne. split; [|split].
  - apply wp_writes_lines, VM_appendFileList_written.
  - apply wp_writes_lines, Legacy_appendFileList_written.
  - now apply file_list_length.
Qed.

Example file_list_three :
  file_list ["a.mp4"; "b.mp4"; "c.mp4"]
  = [ "file 'a.mp4'" ++ nl;
      "file 'text_transition_1.mp4'" ++ nl; "file 'b.mp4'" ++ nl;
      "file 'text_transition_2.mp4'" ++ nl; "file 'c.mp4'" ++ nl ].
Proof. reflexivity. Qed.

Example full_run_file_list :
  written "/tmp/filelist_42.txt"
    (trace (exec (VideoMerger.main (two_videos_env succeed)) (start [])))
  = file_list ["source/a.mp4"; "source/b.mp4"]
  /\ written "filelist.txt"
       (trace (exec (Legacy.main (two_videos_env succeed)) (start [])))
     = file_list ["source/b.mp4"; "source/a.mp4"].
Proof. split; vm_compute; reflexivity. Qed.

Lemma file_list_entries_witness :
  writes_lines (two_videos_env succeed)
    (VideoMerger.appendFileList (two_videos_env succeed) two_videos_config
       ["source/a.mp4"; "source/b.mp4"] "/tmp/filelist_42.txt")
    (start []) "/tmp/filelist_42.txt"
    (file_list ["source/a.mp4"; "source/b.mp4"])
  /\ writes_lines (two_videos_env succeed)
       (Legacy.appendFileList (two_videos_env succeed)
          (IntermediateTextDir (Dest two_videos_config))
          (Rate (Frame two_videos_config))
          ["source/a.mp4"; "source/b.mp4"] "/tmp/filelist_42.txt")
       (start []) "/tmp/filelist_42.txt"
       (file_list ["source/a.mp4"; "source/b.mp4"])
  /\ List.length (file_list ["source/a.mp4"; "source/b.mp4"])
     = (2 * List.length ["source/a.mp4"; "source/b.mp4"] - 1)%nat.
Proof.
  apply (file_list_entries (two_videos_env succeed) two_videos_config
           ["source/a.mp4"; "source/b.mp4"] "/tmp/filelist_42.txt" (start [])).
  discriminate.
Defined.

(** ** Transition frames *)

Lemma saved_snoc (tr : list Event) (e : Event) :
  saved (tr ++ [e]) = (saved tr ++ saved [e])%list.
Proof. unfold saved. now rewrite flat_map_app. Qed.

Lemma transition_frames_length (dir : string) (n : Z) (img : string -> Image)
    (iv : Z * string) :
  0 <= n -> Z.of_nat (List.length (transition_frames dir n img iv)) = n.
Proof.
  intros Hn. destruct iv as [i video]. unfold transition_frames, upto.
  rewrite !length_map, length_seq. now apply Z2Nat.id.
Qed.

Lemma transition_frames_same (dir : string) (n : Z) (img : string -> Image)
    (i : Z) (video : string) :
  Forall (fun f => snd f = img video) (transition_frames dir n img (i, video)).
Proof.
  unfold transition_frames. apply Forall_forall. intros f Hf.
  apply in_map_iff in Hf. now destruct Hf as (j & <- & _).
Qed.

Lemma int_mul_exact (a b : Z) : 0 <= a * b < 2 ^ 63 -> int_mul a b = a * b.
Proof.
  intros H. unfold int_mul, wrap_int.
  rewrite Z.mod_small; lia.
Qed.

Lemma flat_map_indexed_from {T U} (f g : Z * T -> list U) (k : nat) (l : list T) :
  (forall i x, Z.of_nat k <= i -> f (i, x) = g (i, x)) ->
  flat_map f (indexed_from k l) = flat_map g (indexed_from k l).
Proof.
  revert k. induction l as [|x l IH]; intros k H; [reflexivity|].
  rewrite indexed_from_cons. simpl. rewrite H by lia. f_equal.
  apply IH. intros i y Hi. apply H. lia.
Qed.

(** Frame paths of one transition differ. *)
Lemma decode_zeros (k : nat) (s : string) : decode (zeros k ++ s) = decode s.
Proof.
  induction k as [|k IH]; [reflexivity|].
  unfold decode in *. simpl.
  destruct (NilEmpty.uint_of_string (zeros k ++ s)) as [d|];
    destruct (NilEmpty.uint_of_string s) as [d'|]; simpl in *; congruence.
Qed.

Lemma decode_digits (j : Z) : decode (digits j) = Some (Z.to_N j).
Proof.
  unfold decode, digits. destruct (Z.to_N j) as [|p] eqn:E; [reflexivity|].
  pose proof (NilZero.usu (N.to_uint (N.pos p))) as H.
  assert (Hn : N.to_uint (N.pos p) <> Decimal.Nil)
    by apply DecimalPos.Unsigned.to_uint_nonnil.
  specialize (H Hn). unfold NilZero.uint_of_string in H.
  destruct (NilZero.string_of_uint (N.to_uint (N.pos p))) eqn:Es; [discriminate|].
  rewrite H. simpl. f_equal. apply (DecimalN.Unsigned.of_to (N.pos p)).
Qed.

Lemma fmt_0d_inj (w : nat) (j1 j2 : Z) :
  0 <= j1 -> 0 <= j2 -> fmt_0d w j1 = fmt_0d w j2 -> j1 = j2.
Proof.
  intros H1 H2. unfold fmt_0d.
  destruct (j1 <? 0) eqn:E1; [apply Z.ltb_lt in E1; lia|].
  destruct (j2 <? 0) eqn:E2; [apply Z.ltb_lt in E2; lia|].
  intros E. apply (f_equal decode) in E.
  rewrite !decode_zeros, !decode_digits in E. injection E as E. lia.
Qed.

Lemma append_inj_l (p x y : string) : p ++ x = p ++ y -> x = y.
Proof. induction p as [|c p IH]; simpl; [auto | intros [= H]; auto]. Qed.

Lemma append_length (a b : string) :
  String.length (a ++ b) = (String.length a + String.length b)%nat.
Proof. induction a as [|c a IH]; simpl; [reflexivity | now rewrite IH]. Qed.

Lemma append_inj_r (s x y : string) : x ++ s = y ++ s -> x = y.
Proof.
  revert y. induction x as [|c x IH]; intros [|d y] E; simpl in E.
  - reflexivity.
  - apply (f_equal String.length) in E. simpl in E.
    rewrite append_length in E. lia.
  - apply (f_equal String.length) in E. simpl in E.
    rewrite append_length in E. lia.
  - injection E as -> E. f_equal. now apply IH.
Qed.

Lemma framePath_inj (dir : string) (i j1 j2 : Z) :
  0 <= j1 -> 0 <= j2 -> framePath dir i j1 = framePath dir i j2 -> j1 = j2.
Proof.
  intros H1 H2 E. unfold framePath in E.
  do 4 apply append_inj_l in E. apply append_inj_r in E.
  now apply (fmt_0d_inj 5).
Qed.

Lemma NoDup_map_on {T U} (f : T -> U) (l : list T) :
  (forall a b, In a l -> In b l -> f a = f b -> a = b) ->
  NoDup l -> NoDup (map f l).
Proof.
  intros Hinj Hl. induction Hl as [|x l Hx Hl IH]; simpl; constructor.
  - intros Hin. apply in_map_iff in Hin. destruct Hin as (y & E & Hy).
    apply Hinj in E; [subst; contradiction | now right | now left].
  - apply IH. intros a b Ha Hb. apply Hinj; now right.
Qed.

Lemma upto_In (n j : Z) : In j (upto n) -> 0 <= j.
Proof.
  unfold upto. intros H. apply in_map_iff in H. destruct H as (k & <- & _). lia.
Qed.

Lemma upto_NoDup (n : Z) : NoDup (upto n).
Proof.
  unfold upto. apply NoDup_map_on; [|apply seq_NoDup].
  intros a b _ _. apply Nat2Z.inj.
Qed.

Lemma transition_frames_paths (dir : string) (n : Z) (img : string -> Image)
    (iv : Z * string) :
  NoDup (map fst (transition_frames dir n img iv)).
Proof.
  destruct iv as [i video]. unfold transition_frames. rewrite map_map. simpl.
  apply NoDup_map_on; [|apply upto_NoDup].
  intros a b Ha Hb. apply framePath_inj; eapply upto_In; eassumption.
Qed.

Lemma flat_map_single {T U} (f : T -> U) (l : list T) :
  flat_map (fun x => [f x]) l = map f l.
Proof. induction l as [|x l IH]; simpl; [reflexivity | now rewrite IH]. Qed.

Section Frames.

Variable env : Env.

Lemma save_frames_saved (dir : string) (n i : Z) (img : Image) (w : World) :
  wp (range (upto n) (fun j =>
        err <- call env (SavePNG (framePath dir i j) img) ;;
        if_err err (fun e =>
          Print ("Error saving frame: " ++ e ++ nl) ;; return_)))
     (fun _ w' =>
        saved (trace w')
        = (saved (trace w) ++ map (fun j => (framePath dir i j, img)) (upto n))%list)
     (fun _ => ~ all_succeed env) w.
Proof.
  rewrite <- (flat_map_single (fun j => (framePath dir i j, img))).
  rewrite <- fold_left_app_flat_map.
  apply (wp_range_fold (fun w => saved (trace w))).
  intros j w0 _. run_calls.
  - eapply fails_not_all_succeed; eassumption.
  - now rewrite saved_snoc.
Qed.

End Frames.

Lemma wp_both {T} (m : M T) (Q : World -> Prop) (w : World) :
  wp m (fun _ => Q) Q w -> Q (snd (m w)).
Proof. unfold wp. now destruct (m w) as [[x|] w']. Qed.

Lemma wp_renders (env : Env) (m : M unit) (w : World)
    (frames : list (string * Image)) :
  wp m (fun _ w' => saved (trace w') = (saved (trace w) ++ frames)%list)
       (fun _ => ~ all_succeed env) w ->
  renders env m w frames.
Proof.
  intros H. apply wp_completes in H. destruct H as [H1 H2]. split.
  - apply H1.
  - intros Hall. destruct (H2 Hall) as ([] & E). exact E.
Qed.

Section FramesOfMain.

Variable env : Env.

Lemma skip_first_frames {U} (g tf : Z * string -> list U) (videos : list string) :
  (forall video, g (0, video) = []) ->
  (forall i video, 1 <= i -> g (i, video) = tf (i, video)) ->
  flat_map g (indexed videos) = flat_map tf (tl (indexed videos)).
Proof.
  intros H0 H1. destruct videos as [|v r]; [reflexivity|].
  rewrite indexed_cons. simpl. rewrite H0. simpl.
  apply flat_map_indexed_from. intros i x Hi. apply H1. simpl in Hi. lia.
Qed.

Lemma VM_generateFrames_saved (config : Config) (videos : list string)
    (face : Face) (textColor bgColor : RGBA) (w : World) :
  wp (VideoMerger.generateFrames env config videos face textColor bgColor)
     (fun _ w' =>
        saved (trace w')
        = (saved (trace w)
           ++ flat_map
                (transition_frames (IntermediateTextDir (Dest config))
                   (VideoMerger.numFrames config)
                   (fun video =>
                      VideoMerger.draw config face textColor bgColor
                        (VideoMerger.transitionText video)))
                (tl (indexed videos)))%list)
     (fun _ => ~ all_succeed env) w.
Proof.
  unfold VideoMerger.generateFrames.
  set (tf := transition_frames _ _ _).
  rewrite <- (skip_first_frames
                (fun iv => if fst iv =? 0 then [] else tf iv) tf).
  - rewrite <- fold_left_app_flat_map.
    apply (wp_range_fold (fun w => saved (trace w))).
    intros [i video] w0 _. simpl fst. destruct (i =? 0).
    + simpl. now rewrite app_nil_r.
    + apply save_frames_saved.
  - reflexivity.
  - intros i video Hi. simpl fst.
    destruct (i =? 0) eqn:E; [apply Z.eqb_eq in E; lia | reflexivity].
Qed.

Lemma Legacy_generateFrames_saved (dir : string)
    (frameWidth frameHeight frameRate textDuration : Z)
    (videos : list string) (face : Face) (textColor bgColor : RGBA)
    (w : World) :
  wp (Legacy.generateFrames env dir frameWidth frameHeight frameRate
        textDuration videos face textColor bgColor)
     (fun _ w' =>
        saved (trace w')
        = (saved (trace w)
           ++ flat_map
                (transition_frames dir (int_mul frameRate textDuration)
                   (fun video =>
                      Legacy.draw frameWidth frameHeight face textColor bgColor
                        (Legacy.transitionText video)))
                (tl (indexed videos)))%list)
     (fun _ => ~ all_succeed env) w.
Proof.
  unfold Legacy.generateFrames.
  set (tf := transition_frames _ _ _).
  rewrite <- (skip_first_frames
                (fun iv => if 0 <? fst iv then tf iv else []) tf).
  - rewrite <- fold_left_app_flat_map.
    apply (wp_range_fold (fun w => saved (trace w))).
    intros [i video] w0 _. simpl fst. destruct (0 <? i).
    + apply save_frames_saved.
    + simpl. now rewrite app_nil_r.
  - reflexivity.
  - intros i video Hi. simpl fst.
    destruct (0 <? i) eqn:E; [reflexivity | apply Z.ltb_ge in E; lia].
Qed.

Lemma save_frames_texts (text : string -> string) (dir : string)
    (videos : list string) (old : list Event) (n i : Z) (video : string)
    (img : Image) (w : World) :
  0 < i -> nth_error videos (Z.to_nat i) = Some video ->
  img_text img = text video ->
  frame_texts text dir videos old (trace w) ->
  wp (range (upto n) (fun j =>
        err <- call env (SavePNG (framePath dir i j) img) ;;
        if_err err (fun e =>
          Print ("Error saving frame: " ++ e ++ nl) ;; return_)))
     (fun _ w' => frame_texts text dir videos old (trace w'))
     (fun w' => frame_texts text dir videos old (trace w')) w.
Proof.
  intros Hi Hv Ht Hw.
  apply (wp_range _ _ (fun w' => frame_texts text dir videos old (trace w')));
    [|exact Hw].
  intros j w0 _ Hw0.
  assert (Hnew : forall p im err,
             In (Call (SavePNG p im) err)
                [Call (SavePNG (framePath dir i j) img) (fails env (clock w0))] ->
             exists i j video,
               0 < i /\ nth_error videos (Z.to_nat i) = Some video
               /\ p = framePath dir i j /\ img_text im = text video).
  { intros p im err [[= <- <- <-]|[]]. now exists i, j, video. }
  run_calls; intros p im err Hin;
    repeat (apply in_app_or in Hin; destruct Hin as [Hin|Hin]);
    try (now apply Hw0);
    try (destruct Hin as [Hin|[]]; discriminate Hin);
    right; now apply (Hnew p im err).
Qed.

Lemma VM_generateFrames_texts (config : Config) (videos : list string)
    (face : Face) (textColor bgColor : RGBA) (w : World) :
  frame_texts (fun video => "Next: " ++ Base video)
    (IntermediateTextDir (Dest config)) videos (trace w)
    (trace (snd (VideoMerger.generateFrames env config videos face
                   textColor bgColor w))).
Proof.
  apply wp_both. unfold VideoMerger.generateFrames.
  apply (wp_range _ _ (fun w' => frame_texts _ _ videos (trace w) (trace w')));
    [|intros p img err H; now left].
  intros [i video] w0 Hin Hw0. apply In_indexed in Hin.
  destruct Hin as [Hi Hv]. destruct (i =? 0) eqn:E; [exact Hw0|].
  apply Z.eqb_neq in E.
  apply save_frames_texts with (video := video); auto. lia.
Qed.

Lemma Legacy_generateFrames_texts (dir : string)
    (frameWidth frameHeight frameRate textDuration : Z)
    (videos : list string) (face : Face) (textColor bgColor : RGBA)
    (w : World) :
  frame_texts (fun video => "Next: " ++ video) dir videos (trace w)
    (trace (snd (Legacy.generateFrames env dir frameWidth frameHeight
                   frameRate textDuration videos face textColor bgColor w))).
Proof.
  apply wp_both. unfold Legacy.generateFrames.
  apply (wp_range _ _ (fun w' => frame_texts _ _ videos (trace w) (trace w')));
    [|intros p img err H; now left].
  intros [i video] w0 Hin Hw0. apply In_indexed in Hin.
  destruct Hin as [Hi Hv]. destruct (0 <? i) eqn:E; [|exact Hw0].
  apply Z.ltb_lt in E.
  apply save_frames_texts with (video := video); auto.
Qed.

End FramesOfMain.

(** C6, as the code has it: for every transition (every video after
    the first) the frame loop saves exactly [Rate * Duration] frames,
    under paths that differ, all holding the same image (one
    background, one centred text) -- provided the product is a frame
    count, that is, not negative and within [int].  This holds in both
    revisions. *)
Theorem transition_frames_rendered (env : Env) (config : Config)
    (videos : list string) (face : Face) (textColor bgColor : RGBA)
    (w : World) :
  0 <= Rate (Frame config) * Duration (Text config) < 2 ^ 63 ->
  let dir := IntermediateTextDir (Dest config) in
  let n := Rate (Frame config) * Duration (Text config) in
  renders env
    (VideoMerger.generateFrames env config videos face textColor bgColor) w
    (flat_map
       (transition_frames dir n
          (fun video =>
             VideoMerger.draw config face textColor bgColor
               ("Next: " ++ Base video)))
       (tl (indexed videos)))
  /\ renders env
       (Legacy.generateFrames env dir (Width (Frame config))
          (Height (Frame config)) (Rate (Frame config))
          (Duration (Text config)) videos face textColor bgColor) w
       (flat_map
          (transition_frames dir n
             (fun video =>
                Legacy.draw (Width (Frame config)) (Height (Frame config))
                  face textColor bgColor ("Next: " ++ video)))
          (tl (indexed videos)))
  /\ (forall img iv,
        Z.of_nat (List.length (transition_frames dir n img iv)) = n)
  /\ (forall img i video,
        Forall (fun f => snd f = img video)
               (transition_frames dir n img (i, video)))
  /\ (forall img iv, NoDup (map fst (transition_frames dir n img iv))).
Proof.
  intros Hn dir n.
  split; [split|split; [split|split; [|split]]].
  - pose proof (VM_generateFrames_saved env config videos face textColor
                  bgColor w) as H.
    unfold VideoMerger.numFrames in H. rewrite int_mul_exact in H by exact Hn.
    apply wp_renders in H. apply H.
  - pose proof (VM_generateFrames_saved env config videos face textColor
                  bgColor w) as H.
    apply wp_renders in H. apply H.
  - pose proof (Legacy_generateFrames_saved env dir (Width (Frame config))
                  (Height (Frame config)) (Rate (Frame config))
                  (Duration (Text config)) videos face textColor bgColor w) as H.
    rewrite int_mul_exact in H by exact Hn.
    apply wp_renders in H. apply H.
  - pose proof (Legacy_generateFrames_saved env dir (Width (Frame config))
                  (Height (Frame config)) (Rate (Frame config))
                  (Duration (Text config)) videos face textColor bgColor w) as H.
    apply wp_renders in H. apply H.
  - intros img iv. apply transition_frames_length. apply Hn.
  - intros img i video. apply transition_frames_same.
  - intros img iv. apply transition_frames_paths.
Qed.

Example two_videos_frames :
  saved (trace (snd (VideoMerger.generateFrames (two_videos_env succeed)
                       two_videos_config ["source/a.mp4"; "source/b.mp4"]
                       sample_face (hexToRGBA "#ffffff") (hexToRGBA "#000000")
                       (start []))))
  = [ ("frames/text_1_frame_00000.png",
       VideoMerger.draw two_videos_config sample_face (mkRGBA 255 255 255 255)
         black "Next: b.mp4");
      ("frames/text_1_frame_00001.png",
       VideoMerger.draw two_videos_config sample_face (mkRGBA 255 255 255 255)
         black "Next: b.mp4") ].
Proof. vm_compute. reflexivity. Qed.

Lemma transition_frames_rendered_witness :
  0 <= Rate (Frame two_videos_config) * Duration (Text two_videos_config) < 2 ^ 63
  /\ renders (two_videos_env succeed)
       (VideoMerger.generateFrames (two_videos_env succeed) two_videos_config
          ["source/a.mp4"; "source/b.mp4"] sample_face black black)
       (start [])
       (flat_map
          (transition_frames "frames" 2
             (fun video =>
                VideoMerger.draw two_videos_config sample_face black black
                  ("Next: " ++ Base video)))
          (tl (indexed ["source/a.mp4"; "source/b.mp4"]))).
Proof.
  assert (H : 0 <= Rate (Frame two_videos_config)
                   * Duration (Text two_videos_config) < 2 ^ 63)
    by (split; [discriminate | reflexivity]).
  split; [exact H|].
  exact (proj1 (transition_frames_rendered (two_videos_env succeed)
                  two_videos_config ["source/a.mp4"; "source/b.mp4"]
                  sample_face black black (start []) H)).
Defined.

(** Without the proviso the number of frames is not the product: the
    loop [for j := 0; j < numFrames; j++] runs to its end without a
    round when the duration is negative, and saves no frame where the
    product is [-2]. *)
Lemma negative_duration_saves_no_frame :
  let config := negative_duration_config in
  let videos := ["source/a.mp4"; "source/b.mp4"] in
  let run :=
    VideoMerger.generateFrames (two_videos_env succeed) config videos
      sample_face black black (start []) in
  let earlier :=
    Legacy.generateFrames (two_videos_env succeed)
      (IntermediateTextDir (Dest config)) (Width (Frame config))
      (Height (Frame config)) (Rate (Frame config)) (Duration (Text config))
      videos sample_face black black (start []) in
  (fst run = Some tt
   /\ Z.of_nat (List.length (saved (trace (snd run))))
      <> Rate (Frame config) * Duration (Text config))
  /\ (fst earlier = Some tt
      /\ Z.of_nat (List.length (saved (trace (snd earlier))))
         <> Rate (Frame config) * Duration (Text config)).
Proof. vm_compute. repeat split; discriminate. Qed.

(** The same happens when the product is beyond [int]: [2 ^ 32] frames
    per second for [2 ^ 31] seconds give [numFrames = -2 ^ 63]. *)
Example overflowing_product_saves_no_frame :
  VideoMerger.numFrames overflowing_config = - 2 ^ 63
  /\ saved (trace (snd (VideoMerger.generateFrames (two_videos_env succeed)
                          overflowing_config ["source/a.mp4"; "source/b.mp4"]
                          sample_face black black (start []))))
     = [].
Proof. vm_compute. split; reflexivity. Qed.

(** C8, as the code has it: every frame of transition [i] shows the
    text ["Next: "] followed by the name of video [i], the video that
    follows the transition; the name is the base name of the path in
    [video_merger.go] and the whole path in the earlier revision. *)
Theorem transition_text_names_next_video (env : Env) (config : Config)
    (videos : list string) (face : Face) (textColor bgColor : RGBA)
    (w : World) :
  frame_texts (fun video => "Next: " ++ Base video)
    (IntermediateTextDir (Dest config)) videos (trace w)
    (trace (snd (VideoMerger.generateFrames env config videos face
                   textColor bgColor w)))
  /\ frame_texts (fun video => "Next: " ++ video)
       (IntermediateTextDir (Dest config)) videos (trace w)
       (trace (snd (Legacy.generateFrames env
                      (IntermediateTextDir (Dest config))
                      (Width (Frame config)) (Height (Frame config))
                      (Rate (Frame config)) (Duration (Text config))
                      videos face textColor bgColor w))).
Proof.
  split; [apply VM_generateFrames_texts | apply Legacy_generateFrames_texts].
Qed.

(** In the earlier revision the frames before ["source/a.mp4"] show
    the path, not the base name ["a.mp4"]. *)
Lemma Legacy_text_is_not_base_name :
  exists img,
    In (Call (SavePNG (framePath "frames" 1 0) img) None)
       (trace (exec (Legacy.main (two_videos_env succeed)) (start [])))
    /\ img_text img = "Next: source/a.mp4"
    /\ img_text img <> "Next: " ++ Base "source/a.mp4".
Proof.
  exists (Legacy.draw 1280 720 sample_face (mkRGBA 255 255 255 255) black
            "Next: source/a.mp4").
  split; [vm_compute; tauto|]. split; [reflexivity | discriminate].
Qed.

(** ** Resolving the list of videos *)

Lemma VM_loadVideos_explicit (env : Env) (config : Config) (w : World) :
  Source config <> [] ->
  VideoMerger.loadVideos env config w
  = (Some (sort_Strings (Source config)), w).
Proof.
  intros Hne. unfold VideoMerger.loadVideos.
  destruct (Source config) as [|v r]; [congruence | reflexivity].
Qed.

Lemma Legacy_loadVideos_explicit (env : Env) (videos : list string) (w : World) :
  videos <> [] ->
  Legacy.loadVideos env videos w
  = (Some videos, emit (Printed (show_slice videos ++ nl)) w).
Proof.
  intros Hne. unfold Legacy.loadVideos.
  destruct videos as [|v r]; [congruence | reflexivity].
Qed.

Lemma VM_loadVideos_scan (env : Env) (config : Config) (w : World) :
  Source config = [] ->
  VideoMerger.loadVideos env config w
  = match VideoMerger.getVideoFiles env "./source" with
    | (videos, None) =>
        (Some (sort_Strings videos), emit (Call (Walk "./source") None) w)
    | (_, Some e) =>
        (None,
         emit (Printed ("Error reading source directory: " ++ e ++ nl))
              (emit (Call (Walk "./source") (Some e)) w))
    end.
Proof.
  intros E. unfold VideoMerger.loadVideos. rewrite E. simpl.
  now destruct (VideoMerger.getVideoFiles env "./source") as [videos [e|]].
Qed.

Lemma Legacy_loadVideos_scan (env : Env) (w : World) :
  Legacy.loadVideos env [] w
  = match Legacy.getVideoFiles env "./source" with
    | (videos, None) =>
        (Some videos,
         emit (Printed (show_slice videos ++ nl))
              (emit (Call (Walk "./source") None) w))
    | (_, Some e) =>
        (None,
         emit (Printed ("Error reading source directory: " ++ e ++ nl))
              (emit (Call (Walk "./source") (Some e)) w))
    end.
Proof.
  unfold Legacy.loadVideos. simpl.
  now destruct (Legacy.getVideoFiles env "./source") as [videos [e|]].
Qed.

(** C5: both revisions use the explicit source list of the
    configuration whenever it is not empty, without scanning any
    directory ([video_merger.go] sorts the list, the earlier revision
    prints it); only when the list is empty is [./source] scanned. *)
Theorem input_resolution (env : Env) (config : Config) (w : World) :
  (Source config <> [] ->
   VideoMerger.loadVideos env config w
   = (Some (sort_Strings (Source config)), w)
   /\ Legacy.loadVideos env (Source config) w
      = (Some (Source config),
         emit (Printed (show_slice (Source config) ++ nl)) w))
  /\ (Source config = [] ->
      scanned (VideoMerger.loadVideos env config w)
        (VideoMerger.getVideoFiles env "./source")
        (sort_Strings (fst (VideoMerger.getVideoFiles env "./source")))
      /\ scanned (Legacy.loadVideos env (Source config) w)
           (Legacy.getVideoFiles env "./source")
           (fst (Legacy.getVideoFiles env "./source"))).
Proof.
  split.
  - intros Hne. split.
    + now apply VM_loadVideos_explicit.
    + now apply Legacy_loadVideos_explicit.
  - intros E. split.
    + rewrite (VM_loadVideos_scan env config w E).
      destruct (VideoMerger.getVideoFiles env "./source") as [videos [e|]];
        unfold scanned; simpl; repeat split;
        try congruence; try discriminate;
        rewrite ?in_app_iff; simpl; tauto.
    + rewrite E, (Legacy_loadVideos_scan env w).
      destruct (Legacy.getVideoFiles env "./source") as [videos [e|]];
        unfold scanned; simpl; repeat split;
        try congruence; try discriminate;
        rewrite ?in_app_iff; simpl; tauto.
Qed.

Lemma input_resolution_witness :
  (VideoMerger.loadVideos (two_videos_env succeed) two_videos_config (start [])
   = (Some ["source/a.mp4"; "source/b.mp4"], start [])
   /\ Legacy.loadVideos (two_videos_env succeed) (Source two_videos_config)
        (start [])
      = (Some ["source/b.mp4"; "source/a.mp4"],
         emit (Printed (show_slice (Source two_videos_config) ++ nl)) (start [])))
  /\ (scanned (VideoMerger.loadVideos sample_env sample_config (start []))
        (VideoMerger.getVideoFiles sample_env "./source")
        (sort_Strings (fst (VideoMerger.getVideoFiles sample_env "./source")))
      /\ scanned (Legacy.loadVideos sample_env (Source sample_config) (start []))
           (Legacy.getVideoFiles sample_env "./source")
           (fst (Legacy.getVideoFiles sample_env "./source"))).
Proof.
  split.
  - apply (proj1 (input_resolution (two_videos_env succeed) two_videos_config
                    (start []))).
    discriminate.
  - apply (proj2 (input_resolution sample_env sample_config (start []))).
    reflexivity.
Defined.

(** C4, as the code has it: in [video_merger.go] the list of videos
    that the pipeline consumes is always sorted, whether it comes from
    the configuration or from the scan; in the earlier revision a
    scanned list is sorted and an explicit list is consumed in the
    order of the configuration. *)
Theorem consumed_videos_order (env : Env) (config : Config)
    (videos : list string) (w w1 w2 : World) :
  (VideoMerger.loadConfig env w = (Some config, w1) ->
   VideoMerger.loadVideos env config w1 = (Some videos, w2) ->
   sorted videos
   /\ VideoMerger.main env w
      = VideoMerger.pipeline env config (VideoMerger.outputPath env config)
          videos w2)
  /\ (Legacy.loadConfig env w = (Some config, w1) ->
      Legacy.loadVideos env (Source config) w1 = (Some videos, w2) ->
      (Source config = [] -> sorted videos)
      /\ (Source config <> [] -> videos = Source config)
      /\ Legacy.main env w
         = Legacy.pipeline env config (Legacy.outputPath env config)
             (hexToRGBA (Color (Text config)))
             (hexToRGBA (Background (Text config))) videos w2).
Proof.
  split.
  - intros Hc Hv. split.
    + destruct (Source config) as [|v r] eqn:E.
      * rewrite (VM_loadVideos_scan env config w1 E) in Hv.
        destruct (VideoMerger.getVideoFiles env "./source") as [vs [e|]];
          [discriminate|].
        injection Hv as <- _. apply sort_Strings_sorted.
      * rewrite VM_loadVideos_explicit in Hv by congruence.
        injection Hv as <- _. apply sort_Strings_sorted.
    + unfold VideoMerger.main, bind. now rewrite Hc, Hv.
  - intros Hc Hv. repeat split.
    + intros E. rewrite E, Legacy_loadVideos_scan in Hv.
      destruct (Legacy.getVideoFiles env "./source") as [vs [e|]] eqn:Es;
        [discriminate|].
      injection Hv as <- _. apply Legacy_getVideoFiles_ok in Es.
      destruct Es as [-> _]. apply sort_Strings_sorted.
    + intros Hne. rewrite Legacy_loadVideos_explicit in Hv by exact Hne.
      now injection Hv as <- _.
    + unfold Legacy.main, bind. now rewrite Hc, Hv.
Qed.

(** In the earlier revision the explicit list [b, a] reaches the
    pipeline as it is, and it is not sorted. *)
Lemma Legacy_explicit_list_not_sorted :
  exists w1 w2,
    Legacy.loadConfig (two_videos_env succeed) (start [])
    = (Some two_videos_config, w1)
    /\ Legacy.loadVideos (two_videos_env succeed) (Source two_videos_config) w1
       = (Some ["source/b.mp4"; "source/a.mp4"], w2)
    /\ Legacy.main (two_videos_env succeed) (start [])
       = Legacy.pipeline (two_videos_env succeed) two_videos_config "out.mp4"
           (mkRGBA 255 255 255 255) black ["source/b.mp4"; "source/a.mp4"] w2
    /\ ~ sorted ["source/b.mp4"; "source/a.mp4"].
Proof.
  eexists. eexists. split; [reflexivity|]. split; [reflexivity|].
  split; [reflexivity|].
  intros H. apply StringsAreSorted_spec in H. discriminate H.
Qed.

Lemma consumed_videos_order_witness :
  (sorted ["source/a.mp4"; "source/b.mp4"]
   /\ VideoMerger.main (two_videos_env succeed) (start [])
      = VideoMerger.pipeline (two_videos_env succeed) two_videos_config
          (VideoMerger.outputPath (two_videos_env succeed) two_videos_config)
          ["source/a.mp4"; "source/b.mp4"]
          (snd (VideoMerger.loadConfig (two_videos_env succeed) (start []))))
  /\ ((Source two_videos_config = [] -> sorted (Source two_videos_config))
      /\ (Source two_videos_config <> [] ->
          Source two_videos_config = Source two_videos_config)
      /\ Legacy.main (two_videos_env succeed) (start [])
         = Legacy.pipeline (two_videos_env succeed) two_videos_config
             (Legacy.outputPath (two_videos_env succeed) two_videos_config)
             (hexToRGBA (Color (Text two_videos_config)))
             (hexToRGBA (Background (Text two_videos_config)))
             (Source two_videos_config)
             (snd (Legacy.loadVideos (two_videos_env succeed)
                     (Source two_videos_config)
                     (snd (Legacy.loadConfig (two_videos_env succeed)
                             (start [])))))).
Proof.
  split.
  - apply (proj1 (consumed_videos_order (two_videos_env succeed)
                    two_videos_config ["source/a.mp4"; "source/b.mp4"]
                    (start [])
                    (snd (VideoMerger.loadConfig (two_videos_env succeed) (start [])))
                    (snd (VideoMerger.loadConfig (two_videos_env succeed) (start [])))));
      reflexivity.
  - apply (proj2 (consumed_videos_order (two_videos_env succeed)
                    two_videos_config (Source two_videos_config)
                    (start [])
                    (snd (Legacy.loadConfig (two_videos_env succeed) (start [])))
                    (snd (Legacy.loadVideos (two_videos_env succeed)
                            (Source two_videos_config)
                            (snd (Legacy.loadConfig (two_videos_env succeed)
                                    (start [])))))));
      reflexivity.
Defined.

(** * Further properties of the code *)

(** ** The colour parsers on well-formed and on short input *)

Lemma hex_digit_facts (c : ascii) (v : Z) :
  hex_digit c = Some v ->
  0 <= v < 16 /\ is_sign c = false /\ byte_between 10 10 c = false
  /\ c <> "#"%char /\ forall r, space_rune (String c r) = None.
Proof.
  destruct c as [[] [] [] [] [] [] [] []]; vm_compute; intros H;
    try discriminate H; injection H as <-;
    repeat split; try discriminate; reflexivity.
Qed.

Lemma SkipSpace_hex_digit (c : ascii) (v : Z) (r : string) :
  hex_digit c = Some v -> SkipSpace (String c r) = Some (String c r).
Proof.
  intros H. apply hex_digit_facts in H. destruct H as (_ & _ & Hn & _ & Hs).
  unfold SkipSpace. cbn [skip_space_fuel]. now rewrite Hn, Hs.
Qed.

Lemma scan_hex_two (c1 c2 : ascii) (v1 v2 : Z) (rest : string) :
  hex_digit c1 = Some v1 -> hex_digit c2 = Some v2 ->
  scan_hex 2 (String c1 (String c2 rest)) = Some (16 * v1 + v2, rest).
Proof.
  intros H1 H2. unfold scan_hex. rewrite (SkipSpace_hex_digit c1 v1) by exact H1.
  destruct (hex_digit_facts c1 v1 H1) as (_ & Hs & _).
  rewrite Hs. simpl. now rewrite H1, H2.
Qed.

Lemma scan_rgb_six (c1 c2 c3 c4 c5 c6 : ascii) (v1 v2 v3 v4 v5 v6 : Z)
    (rest : string) (r g b : Z) :
  hex_digit c1 = Some v1 -> hex_digit c2 = Some v2 ->
  hex_digit c3 = Some v3 -> hex_digit c4 = Some v4 ->
  hex_digit c5 = Some v5 -> hex_digit c6 = Some v6 ->
  scan_rgb (six c1 c2 c3 c4 c5 c6 ++ rest) r g b
  = ((16 * v1 + v2, 16 * v3 + v4, 16 * v5 + v6), false).
Proof.
  intros H1 H2 H3 H4 H5 H6. unfold scan_rgb, six. simpl append.
  rewrite (scan_hex_two c1 c2 v1 v2) by assumption.
  rewrite (scan_hex_two c3 c4 v3 v4) by assumption.
  now rewrite (scan_hex_two c5 c6 v5 v6) by assumption.
Qed.

Lemma uint8_two_digits (c1 c2 : ascii) (v1 v2 : Z) :
  hex_digit c1 = Some v1 -> hex_digit c2 = Some v2 ->
  uint8 (16 * v1 + v2) = 16 * v1 + v2.
Proof.
  intros H1 H2. apply hex_digit_facts in H1, H2.
  unfold uint8. apply Z.mod_small. lia.
Qed.

(** X1: on a ['#'] followed by six hexadecimal digits [hexToRGBA]
    returns the three bytes they spell with alpha 255, whatever
    follows the digits. *)
Theorem hexToRGBA_six_digits (c1 c2 c3 c4 c5 c6 : ascii)
    (v1 v2 v3 v4 v5 v6 : Z) (rest : string) :
  hex_digit c1 = Some v1 -> hex_digit c2 = Some v2 ->
  hex_digit c3 = Some v3 -> hex_digit c4 = Some v4 ->
  hex_digit c5 = Some v5 -> hex_digit c6 = Some v6 ->
  hexToRGBA (String "#" (six c1 c2 c3 c4 c5 c6 ++ rest))
  = mkRGBA (16 * v1 + v2) (16 * v3 + v4) (16 * v5 + v6) 255.
Proof.
  intros H1 H2 H3 H4 H5 H6. unfold hexToRGBA, Sscanf_hash_rgb.
  rewrite (scan_rgb_six c1 c2 c3 c4 c5 c6 v1 v2 v3 v4 v5 v6) by assumption.
  now rewrite (uint8_two_digits c1 c2), (uint8_two_digits c3 c4),
    (uint8_two_digits c5 c6) by assumption.
Qed.

Lemma hexToRGBA_six_digits_witness :
  hexToRGBA (String "#" (six "1" "a" "2" "B" "3" "c" ++ " trailing"))
  = mkRGBA (16 * 1 + 10) (16 * 2 + 11) (16 * 3 + 12) 255.
Proof.
  apply (hexToRGBA_six_digits "1" "a" "2" "B" "3" "c" 1 10 2 11 3 12);
    reflexivity.
Defined.

Lemma substring_all (s : string) : String.substring 0 (String.length s) s = s.
Proof. induction s as [|c s IH]; simpl; [reflexivity | now rewrite IH]. Qed.

Lemma TrimPrefix_hash (s : string) : TrimPrefix (String "#" s) "#" = s.
Proof.
  unfold TrimPrefix, HasPrefix. simpl. rewrite Nat.sub_0_r, substring_all.
  now destruct s.
Qed.

Lemma TrimPrefix_no_hash (s : string) :
  HasPrefix s "#" = false -> TrimPrefix s "#" = s.
Proof. unfold TrimPrefix. now intros ->. Qed.

Lemma HasPrefix_hex_digit (c : ascii) (v : Z) (r : string) :
  hex_digit c = Some v -> HasPrefix (String c r) "#" = false.
Proof.
  intros H. apply hex_digit_facts in H. destruct H as (_ & _ & _ & Hc & _).
  unfold HasPrefix. cbn [String.prefix].
  destruct (ascii_dec "#" c) as [E|_]; [|reflexivity]. now elim Hc.
Qed.

(** X2: on six hexadecimal digits, with or without the leading ['#'],
    [hexToRGBA2] returns the bytes they spell; with the ['#'] it
    agrees with [hexToRGBA], which returns black without it. *)
Theorem hexToRGBA2_six_digits (c1 c2 c3 c4 c5 c6 : ascii)
    (v1 v2 v3 v4 v5 v6 : Z) :
  hex_digit c1 = Some v1 -> hex_digit c2 = Some v2 ->
  hex_digit c3 = Some v3 -> hex_digit c4 = Some v4 ->
  hex_digit c5 = Some v5 -> hex_digit c6 = Some v6 ->
  let colour := mkRGBA (16 * v1 + v2) (16 * v3 + v4) (16 * v5 + v6) 255 in
  hexToRGBA2 (String "#" (six c1 c2 c3 c4 c5 c6)) = colour
  /\ hexToRGBA2 (six c1 c2 c3 c4 c5 c6) = colour
  /\ hexToRGBA (String "#" (six c1 c2 c3 c4 c5 c6)) = colour
  /\ hexToRGBA (six c1 c2 c3 c4 c5 c6) = black.
Proof.
  intros H1 H2 H3 H4 H5 H6 colour.
  assert (Hscan : scan_rgb (six c1 c2 c3 c4 c5 c6) 0 0 0
                  = ((16 * v1 + v2, 16 * v3 + v4, 16 * v5 + v6), false)).
  { pose proof (scan_rgb_six c1 c2 c3 c4 c5 c6 v1 v2 v3 v4 v5 v6 "" 0 0 0
                  H1 H2 H3 H4 H5 H6) as H.
    unfold six in *. simpl append in H. exact H. }
  assert (H2six : hexToRGBA2 (six c1 c2 c3 c4 c5 c6) = colour).
  { unfold hexToRGBA2.
    rewrite TrimPrefix_no_hash by (apply (HasPrefix_hex_digit c1 v1); exact H1).
    rewrite Hscan. change (String.length (six c1 c2 c3 c4 c5 c6) =? 6)%nat with true.
    cbv beta iota.
    now rewrite (uint8_two_digits c1 c2), (uint8_two_digits c3 c4),
      (uint8_two_digits c5 c6) by assumption. }
  repeat split.
  - rewrite <- H2six. unfold hexToRGBA2.
    rewrite TrimPrefix_hash, TrimPrefix_no_hash; [reflexivity|].
    apply (HasPrefix_hex_digit c1 v1). exact H1.
  - exact H2six.
  - unfold hexToRGBA, Sscanf_hash_rgb. rewrite Hscan.
    now rewrite (uint8_two_digits c1 c2), (uint8_two_digits c3 c4),
      (uint8_two_digits c5 c6) by assumption.
  - unfold hexToRGBA, Sscanf_hash_rgb, six.
    destruct (hex_digit_facts c1 v1 H1) as (_ & _ & _ & Hc & _).
    destruct c1 as [[] [] [] [] [] [] [] []]; try reflexivity. now elim Hc.
Qed.

Lemma hexToRGBA2_six_digits_witness :
  hexToRGBA2 "#ff8000" = mkRGBA (16 * 15 + 15) (16 * 8 + 0) (16 * 0 + 0) 255
  /\ hexToRGBA2 "ff8000" = mkRGBA (16 * 15 + 15) (16 * 8 + 0) (16 * 0 + 0) 255
  /\ hexToRGBA "#ff8000" = mkRGBA (16 * 15 + 15) (16 * 8 + 0) (16 * 0 + 0) 255
  /\ hexToRGBA "ff8000" = black.
Proof.
  apply (hexToRGBA2_six_digits "f" "f" "8" "0" "0" "0" 15 15 8 0 0 0);
    reflexivity.
Defined.

(** X3: [hexToRGBA2] returns black for every string that, once a
    leading ['#'] is removed, does not have exactly six bytes. *)
Theorem hexToRGBA2_wrong_length (s : string) :
  String.length s <> 6%nat ->
  hexToRGBA2 (String "#" s) = black
  /\ (HasPrefix s "#" = false -> hexToRGBA2 s = black).
Proof.
  intros Hlen. apply Nat.eqb_neq in Hlen. split.
  - unfold hexToRGBA2. now rewrite TrimPrefix_hash, Hlen.
  - intros Hp. unfold hexToRGBA2. now rewrite TrimPrefix_no_hash, Hlen.
Qed.

Lemma hexToRGBA2_wrong_length_witness :
  hexToRGBA2 "#ff80001" = black
  /\ (HasPrefix "ff80001" "#" = false -> hexToRGBA2 "ff80001" = black).
Proof. apply (hexToRGBA2_wrong_length "ff80001"). discriminate. Defined.

(** ** The directory scan as a function of the visits *)

Lemma run_walk_keep_error (keep : Visit -> bool) (out : Visit -> string)
    (visits : list Visit) (acc : list string) :
  snd (run_walk (keep_fn keep out) visits acc) = first_error visits.
Proof.
  revert acc. induction visits as [|v r IH]; intros acc; simpl; [reflexivity|].
  unfold keep_fn at 1. destruct (visit_err v); [reflexivity|].
  destruct (keep v); apply IH.
Qed.

Lemma run_walk_keep_closed (keep : Visit -> bool) (out : Visit -> string)
    (visits : list Visit) :
  first_error visits = None ->
  run_walk (keep_fn keep out) visits [] = (map out (filter keep visits), None).
Proof.
  intros H. rewrite <- (run_walk_keep_error keep out visits []) in H.
  destruct (run_walk (keep_fn keep out) visits []) as [videos err] eqn:E.
  simpl in H. subst err. apply run_walk_keep in E. now destruct E as [-> _].
Qed.

Lemma VideoMerger_getVideoFiles_closed (env : Env) (sourceDir : string) :
  VideoMerger.getVideoFiles env sourceDir
  = match first_error (walk env sourceDir) with
    | Some e => ([], Some ("error walking directory: " ++ e))
    | None =>
        (sort_Strings (map (fun v => Clean (visit_path v))
                           (filter (kept (lower_case env)) (walk env sourceDir))), None)
    end.
Proof.
  unfold VideoMerger.getVideoFiles.
  rewrite (run_walk_ext _ _ (VideoMerger_walkFn_keep env)).
  destruct (first_error (walk env sourceDir)) as [e|] eqn:E.
  - rewrite <- (run_walk_keep_error (kept (lower_case env))
                  (fun v => Clean (visit_path v))
                  (walk env sourceDir) []) in E.
    destruct (run_walk _ _ _) as [videos err]. simpl in E. now subst err.
  - now rewrite run_walk_keep_closed.
Qed.

Lemma Legacy_getVideoFiles_closed (env : Env) (sourceDir : string) :
  Legacy.getVideoFiles env sourceDir
  = match first_error (walk env sourceDir) with
    | Some e => ([], Some e)
    | None =>
        (sort_Strings (map visit_path (filter (kept (lower_case env)) (walk env sourceDir))),
         None)
    end.
Proof.
  unfold Legacy.getVideoFiles.
  rewrite (run_walk_ext _ _ (Legacy_walkFn_keep env)).
  destruct (first_error (walk env sourceDir)) as [e|] eqn:E.
  - rewrite <- (run_walk_keep_error (kept (lower_case env)) visit_path
                  (walk env sourceDir) []) in E.
    destruct (run_walk _ _ _) as [videos err]. simpl in E. now subst err.
  - now rewrite run_walk_keep_closed.
Qed.

(** X4: [getVideoFiles] as a function of what the walk visits: the
    first error met ends the scan, and the result is then the empty
    list with that error ([video_merger.go] prefixes it with
    "error walking directory: "); without error the result is the
    sorted list of the paths of the visited files whose extension,
    lowered by [strings.ToLower], is a video extension
    ([video_merger.go] cleans each path). *)
Theorem getVideoFiles_closed_form (env : Env) (sourceDir : string) :
  VideoMerger.getVideoFiles env sourceDir
  = match first_error (walk env sourceDir) with
    | Some e => ([], Some ("error walking directory: " ++ e))
    | None =>
        (sort_Strings (map (fun v => Clean (visit_path v))
                           (filter (kept (lower_case env)) (walk env sourceDir))), None)
    end
  /\ Legacy.getVideoFiles env sourceDir
     = match first_error (walk env sourceDir) with
       | Some e => ([], Some e)
       | None =>
           (sort_Strings (map visit_path (filter (kept (lower_case env)) (walk env sourceDir))),
            None)
       end.
Proof.
  split; [apply VideoMerger_getVideoFiles_closed | apply Legacy_getVideoFiles_closed].
Qed.

(** ** Sorting twice *)

Lemma sort_Strings_sorted_id (l : list string) :
  sorted l -> sort_Strings l = l.
Proof.
  unfold sorted. induction l as [|x l IH]; intros Hs; [reflexivity|].
  inversion Hs as [|? ? Hl Hhd]; subst. simpl. rewrite IH by exact Hl.
  destruct Hhd as [|y r Hxy]; simpl; [reflexivity|].
  unfold string_le in Hxy. now rewrite Hxy.
Qed.

(** X5: in [video_merger.go] the list that [main] goes on with holds
    the videos of an explicit source list, each as often as listed
    (the sort only reorders), and for a scanned list it is the result
    of [getVideoFiles] unchanged (the second sort moves nothing). *)
Theorem VideoMerger_loadVideos_keeps_videos (env : Env) (config : Config)
    (videos : list string) (w w' : World) :
  VideoMerger.loadVideos env config w = (Some videos, w') ->
  (Source config <> [] -> Permutation videos (Source config))
  /\ (Source config = [] ->
      videos = fst (VideoMerger.getVideoFiles env "./source")).
Proof.
  intros H. split.
  - intros Hne. rewrite VM_loadVideos_explicit in H by exact Hne.
    injection H as <- _. apply sort_Strings_perm.
  - intros E. rewrite (VM_loadVideos_scan env config w E) in H.
    destruct (VideoMerger.getVideoFiles env "./source") as [vs [e|]] eqn:Es;
      [discriminate|].
    injection H as <- _. simpl. apply sort_Strings_sorted_id.
    apply VideoMerger_getVideoFiles_ok in Es. destruct Es as [-> _].
    apply sort_Strings_sorted.
Qed.

Lemma VideoMerger_loadVideos_keeps_videos_witness :
  (Source two_videos_config <> [] ->
   Permutation ["source/a.mp4"; "source/b.mp4"] (Source two_videos_config))
  /\ (Source two_videos_config = [] ->
      ["source/a.mp4"; "source/b.mp4"]
      = fst (VideoMerger.getVideoFiles (two_videos_env succeed) "./source")).
Proof.
  apply (VideoMerger_loadVideos_keeps_videos (two_videos_env succeed)
           two_videos_config ["source/a.mp4"; "source/b.mp4"]
           (start []) (start [])).
  reflexivity.
Defined.

(** ** The name on the title card *)

Lemma nosep_prefix_split (r : list ascii) :
  exists rest,
    r = (nosep_prefix r ++ rest)%list
    /\ (rest = [] \/ exists c r', rest = c :: r' /\ is_sep c = true).
Proof.
  induction r as [|c r IH]; simpl.
  - exists []. split; [reflexivity | now left].
  - destruct (is_sep c) eqn:E.
    + exists (c :: r). split; [reflexivity | right; now exists c, r].
    + destruct IH as (rest & Hr & Hrest). exists rest. split; [|exact Hrest].
      simpl. now rewrite <- Hr.
Qed.

Lemma str_app (a b : list ascii) : str (a ++ b) = str a ++ str b.
Proof. induction a as [|c a IH]; simpl; [reflexivity | now rewrite IH]. Qed.

Lemma str_chars (s : string) : str (chars s) = s.
Proof. apply string_of_list_ascii_of_string. Qed.

Lemma drop_seps_nosep (c : ascii) (r : list ascii) :
  is_sep c = false -> drop_seps (c :: r) = c :: r.
Proof. intros H. simpl. now rewrite H. Qed.

(** The base name of a path that does not end in a separator is its
    last element. *)
Lemma Base_last_elem (path : string) :
  (1 <= List.length (nosep_prefix (rev (chars path))))%nat ->
  Base path = str (rev (nosep_prefix (rev (chars path)))).
Proof.
  intros Hlen. unfold Base. destruct path as [|c s]; [simpl in Hlen; lia|].
  set (r := rev (chars (String c s))) in *.
  assert (Hd : drop_seps r = r).
  { destruct r as [|a r']; [reflexivity|]. simpl in Hlen |- *.
    destruct (is_sep a); [simpl in Hlen; lia | reflexivity]. }
  rewrite Hd, last_elem_nosep, app_nil_r.
  destruct (rev (nosep_prefix r)) as [|a e] eqn:E; [|reflexivity].
  apply (f_equal (@List.length ascii)) in E. rewrite length_rev in E.
  simpl in E. lia.
Qed.

(** X6: for a path with a video extension -- every path that
    [getVideoFiles] returns is one -- the base name that
    [video_merger.go] puts on the title card is the last element of the
    path: the path ends with it, it holds no separator, and it carries
    the same extension. *)
Theorem title_card_shows_file_name (table : Z -> Z) (path : string) :
  recognized table path = true ->
  (exists dir, path = dir ++ Base path)
  /\ no_sep (Base path)
  /\ Ext (Base path) = Ext path
  /\ VideoMerger.transitionText path = "Next: " ++ Base path.
Proof.
  intros Hrec. pose proof (recognized_ext_long table path Hrec) as Hlen.
  unfold Ext in Hlen. rewrite str_length, ext_scan_nosep in Hlen.
  set (np := nosep_prefix (rev (chars path))) in *.
  assert (Hnp : (1 <= List.length np)%nat).
  { pose proof (ext_scan_length np []) as H. simpl in H. lia. }
  rewrite (Base_last_elem path Hnp). fold np. repeat split.
  - destruct (nosep_prefix_split (rev (chars path))) as (rest & Hr & _).
    fold np in Hr. exists (str (rev rest)).
    rewrite <- str_app, <- rev_app_distr, <- Hr, rev_involutive.
    symmetry. apply str_chars.
  - unfold no_sep. rewrite chars_str. apply Forall_rev.
    apply nosep_prefix_Forall.
  - unfold Ext. rewrite chars_str, rev_involutive.
    now rewrite (ext_scan_nosep (rev (chars path))).
  - unfold VideoMerger.transitionText. now rewrite (Base_last_elem path Hnp).
Qed.

Lemma title_card_shows_file_name_witness :
  (exists dir, "source/sub/A.MP4" = dir ++ Base "source/sub/A.MP4")
  /\ no_sep (Base "source/sub/A.MP4")
  /\ Ext (Base "source/sub/A.MP4") = Ext "source/sub/A.MP4"
  /\ VideoMerger.transitionText "source/sub/A.MP4"
     = "Next: " ++ Base "source/sub/A.MP4".
Proof.
  apply (title_card_shows_file_name sample_lower "source/sub/A.MP4").
  reflexivity.
Defined.

(** ** The stages of a run *)

Lemma extends_refl (P : Event -> Prop) (tr : list Event) : extends P tr tr.
Proof. exists []. split; [now rewrite app_nil_r | constructor]. Qed.

Lemma extends_snoc (P : Event -> Prop) (tr tr' : list Event) (e : Event) :
  extends P tr tr' -> P e -> extends P tr (tr' ++ [e]).
Proof.
  intros (evs & -> & Hevs) He. exists (evs ++ [e])%list. split.
  - now rewrite app_assoc.
  - apply Forall_app. split; [exact Hevs | now constructor].
Qed.

Lemma extends_trans (P : Event -> Prop) (tr1 tr2 tr3 : list Event) :
  extends P tr1 tr2 -> extends P tr2 tr3 -> extends P tr1 tr3.
Proof.
  intros (e1 & -> & H1) (e2 & -> & H2). exists (e1 ++ e2)%list. split.
  - now rewrite app_assoc.
  - apply Forall_app. now split.
Qed.

Lemma extends_weaken (P Q : Event -> Prop) (tr tr' : list Event) :
  (forall e, P e -> Q e) -> extends P tr tr' -> extends Q tr tr'.
Proof.
  intros HPQ (evs & -> & H). exists evs. split; [reflexivity|].
  eapply Forall_impl; [exact HPQ | exact H].
Qed.

(** A loop whose rounds extend the trace by events of [P], and return
    early only under [T], does so as a whole. *)
Lemma wp_range_extends {U} (P : Event -> Prop) (T : Prop) (l : list U)
    (body : U -> M unit) :
  (forall x w, In x l ->
     wp (body x) (fun _ w' => extends P (trace w) (trace w'))
        (fun w' => T /\ extends P (trace w) (trace w')) w) ->
  forall w,
    wp (range l body) (fun _ w' => extends P (trace w) (trace w'))
       (fun w' => T /\ extends P (trace w) (trace w')) w.
Proof.
  induction l as [|x l IH]; intros Hbody w; simpl; [apply extends_refl|].
  eapply wp_seq; [apply Hbody; now left|].
  intros u w1 H1. cbv beta in H1.
  eapply wp_mono; [apply IH; intros y w0 Hy; apply Hbody; now right | |].
  - intros u' w2 H2. eapply extends_trans; eassumption.
  - intros w2 [HT H2]. split; [exact HT | eapply extends_trans; eassumption].
Qed.

(** Close the goals that [run_calls] leaves for a stage. *)
Ltac stage_event_ok :=
  cbn [stage_event];
  first [ exact I
        | econstructor; first [assumption | lia | idtac] ].

Ltac stage_finish :=
  repeat match goal with |- _ /\ _ => split end;
  first [ reflexivity
        | discriminate
        | exact I
        | eapply fails_not_all_succeed; eassumption
        | repeat (apply extends_snoc; [|stage_event_ok]); apply extends_refl ].

Section Stages.

Variable env : Env.
Variables dir temp output : string.
Variable rate : Z.

Lemma save_frame_stage (i j : Z) (img : Image) (w : World) :
  0 < i -> 0 <= j ->
  wp (err <- call env (SavePNG (framePath dir i j) img) ;;
      if_err err (fun e => Print ("Error saving frame: " ++ e ++ nl) ;; return_))
     (fun _ w' => extends (stage_event dir temp output rate 4) (trace w) (trace w'))
     (fun w' => ~ all_succeed env /\ extends (stage_event dir temp output rate 4) (trace w) (trace w')) w.
Proof. intros Hi Hj. run_calls; stage_finish. Qed.

Lemma save_frames_stage (n i : Z) (img : Image) (w : World) :
  0 < i ->
  wp (range (upto n) (fun j =>
        err <- call env (SavePNG (framePath dir i j) img) ;;
        if_err err (fun e =>
          Print ("Error saving frame: " ++ e ++ nl) ;; return_)))
     (fun _ w' => extends (stage_event dir temp output rate 4) (trace w) (trace w'))
     (fun w' => ~ all_succeed env /\ extends (stage_event dir temp output rate 4) (trace w) (trace w')) w.
Proof.
  intros Hi. apply wp_range_extends. intros j w0 Hj.
  apply save_frame_stage; [exact Hi | eapply upto_In; exact Hj].
Qed.

Lemma append_round_stage (msg : string) (i : Z) (video : string) (w : World) :
  0 <= i ->
  wp ((if 0 <? i then
         err <- call env
                  (Run (encode_cmd rate (textFramesPattern dir i) (textVideo i))) ;;
         if_err err (fun e =>
           Print ("Error creating text transition video: " ++ e ++ nl) ;;
           return_) ;;
         defer (Remove (textVideo i)) ;;
         err <- call env (WriteString temp (file_line (textVideo i))) ;;
         if_err err (fun e =>
           Print ("Error writing to filelist: " ++ e ++ nl) ;; return_)
       else ret tt) ;;
      err <- call env (WriteString temp (file_line video)) ;;
      if_err err (fun e => Print (msg ++ e ++ nl) ;; return_))
     (fun _ w' => extends (stage_event dir temp output rate 6) (trace w) (trace w'))
     (fun w' => ~ all_succeed env /\ extends (stage_event dir temp output rate 6) (trace w) (trace w')) w.
Proof.
  intros Hi. destruct (0 <? i) eqn:E; [apply Z.ltb_lt in E|];
    run_calls; stage_finish.
Qed.

End Stages.

Lemma staged_nil (P : nat -> Event -> Prop) (k n : nat) : staged P k n [].
Proof.
  revert k. induction n as [|n IH]; intros k; simpl; [reflexivity|].
  exists [], []. repeat split; [constructor | apply IH].
Qed.

Lemma staged_snoc (P : nat -> Event -> Prop) (k n : nat)
    (tr evs : list Event) :
  staged P k n tr -> Forall (P (k + n)%nat) evs ->
  staged P k (S n) (tr ++ evs).
Proof.
  revert k tr. induction n as [|n IH]; intros k tr Htr Hevs; simpl in Htr.
  - subst tr. rewrite Nat.add_0_r in Hevs. exists evs, []. simpl.
    rewrite app_nil_r. now repeat split.
  - destruct Htr as (seg & rest & -> & Hseg & Hrest).
    exists seg, (rest ++ evs)%list. split; [now rewrite app_assoc|].
    split; [exact Hseg|]. apply IH; [exact Hrest|].
    now replace (S k + n)%nat with (k + S n)%nat by lia.
Qed.

Lemma staged_pad (P : nat -> Event -> Prop) (k n m : nat) (tr : list Event) :
  staged P k n tr -> staged P k (n + m) tr.
Proof.
  revert k tr. induction n as [|n IH]; intros k tr Htr; simpl in *.
  - subst tr. apply staged_nil.
  - destruct Htr as (seg & rest & -> & Hseg & Hrest).
    exists seg, rest. repeat split; [exact Hseg | now apply IH].
Qed.

(** One stage more: from the segments of the stages before [k] to
    those of the stages up to [k], or to all [n] on an early return. *)
Lemma stage_step {U} (P : nat -> Event -> Prop) (k n : nat) (m : M U)
    (V : U -> Prop) (T : Prop) (w : World) :
  staged P 0 k (trace w) -> (k < n)%nat ->
  wp m (fun x w' => V x /\ extends (P k) (trace w) (trace w'))
       (fun w' => T /\ extends (P k) (trace w) (trace w')) w ->
  wp m (fun x w' => V x /\ staged P 0 (S k) (trace w'))
       (fun w' => staged P 0 n (trace w')) w.
Proof.
  intros Hst Hk Hm. eapply wp_mono; [exact Hm | |].
  - intros x w' [HV (evs & -> & Hevs)]. split; [exact HV|].
    now apply staged_snoc.
  - intros w' [_ (evs & -> & Hevs)].
    replace n with (S k + (n - S k))%nat by lia.
    apply staged_pad. now apply staged_snoc.
Qed.

Section VideoMergerStages.

Variable env : Env.
Variables dir temp output : string.
Variable rate : Z.

Lemma VM_loadConfig_stage (w : World) :
  wp (VideoMerger.loadConfig env)
     (fun config w' =>
        config = config_json env
        /\ extends (stage_event dir temp output rate 0) (trace w) (trace w'))
     (fun w' =>
        ~ all_succeed env
        /\ extends (stage_event dir temp output rate 0) (trace w) (trace w')) w.
Proof. unfold VideoMerger.loadConfig. run_calls; stage_finish. Qed.

Lemma VM_loadVideos_stage (config : Config) (w : World) :
  wp (VideoMerger.loadVideos env config)
     (fun videos w' =>
        videos = VideoMerger_resolved env config
        /\ extends (stage_event dir temp output rate 1) (trace w) (trace w'))
     (fun w' =>
        scan_fails env config
        /\ extends (stage_event dir temp output rate 1) (trace w) (trace w')) w.
Proof.
  unfold wp, VideoMerger_resolved, scan_fails.
  destruct (Source config) as [|v r] eqn:E.
  - rewrite (VM_loadVideos_scan env config w E).
    rewrite VideoMerger_getVideoFiles_closed.
    destruct (first_error (walk env "./source")) as [e|];
      run_step; stage_finish.
  - rewrite VM_loadVideos_explicit by congruence. rewrite E.
    split; [reflexivity | apply extends_refl].
Qed.

Lemma VM_prepareDir_stage (config : Config) (w : World) :
  IntermediateTextDir (Dest config) = dir ->
  wp (VideoMerger.prepareDir env config)
     (fun _ w' =>
        True /\ extends (stage_event dir temp output rate 2) (trace w) (trace w'))
     (fun w' =>
        ~ all_succeed env
        /\ extends (stage_event dir temp output rate 2) (trace w) (trace w')) w.
Proof. intros <-. unfold VideoMerger.prepareDir. run_calls; stage_finish. Qed.

Lemma VM_loadFont_stage (config : Config) (w : World) :
  wp (VideoMerger.loadFont env config)
     (fun face w' =>
        face = {| face_path := Path (Font config);
                  face_size := Size (Font config) |}
        /\ extends (stage_event dir temp output rate 3) (trace w) (trace w'))
     (fun w' =>
        ~ all_succeed env
        /\ extends (stage_event dir temp output rate 3) (trace w) (trace w')) w.
Proof. unfold VideoMerger.loadFont. run_calls; stage_finish. Qed.

Lemma VM_generateFrames_stage (config : Config) (videos : list string)
    (face : Face) (textColor bgColor : RGBA) (w : World) :
  IntermediateTextDir (Dest config) = dir ->
  wp (VideoMerger.generateFrames env config videos face textColor bgColor)
     (fun _ w' =>
        True /\ extends (stage_event dir temp output rate 4) (trace w) (trace w'))
     (fun w' =>
        ~ all_succeed env
        /\ extends (stage_event dir temp output rate 4) (trace w) (trace w')) w.
Proof.
  intros <-. unfold VideoMerger.generateFrames.
  eapply wp_mono;
    [apply wp_range_extends | intros ? ? H; split; [exact I | exact H]
    | intros ? H; exact H].
  intros [i video] w0 Hin. apply In_indexed in Hin. destruct Hin as [Hi _].
  destruct (i =? 0) eqn:E; [apply extends_refl|]. apply Z.eqb_neq in E.
  apply save_frames_stage. lia.
Qed.

Lemma VM_createFileList_stage (w : World) :
  temp_name env = temp ->
  wp (VideoMerger.createFileList env)
     (fun name w' =>
        name = temp
        /\ extends (stage_event dir temp output rate 5) (trace w) (trace w'))
     (fun w' =>
        ~ all_succeed env
        /\ extends (stage_event dir temp output rate 5) (trace w) (trace w')) w.
Proof. intros <-. unfold VideoMerger.createFileList. run_calls; stage_finish. Qed.

Lemma VM_appendFileList_stage (config : Config) (videos : list string)
    (w : World) :
  IntermediateTextDir (Dest config) = dir -> Rate (Frame config) = rate ->
  wp (VideoMerger.appendFileList env config videos temp)
     (fun _ w' =>
        True /\ extends (stage_event dir temp output rate 6) (trace w) (trace w'))
     (fun w' =>
        ~ all_succeed env
        /\ extends (stage_event dir temp output rate 6) (trace w) (trace w')) w.
Proof.
  intros <- <-. unfold VideoMerger.appendFileList.
  eapply wp_mono;
    [apply wp_range_extends | intros ? ? H; split; [exact I | exact H]
    | intros ? H; exact H].
  intros [i video] w0 Hin. apply In_indexed in Hin. destruct Hin as [Hi _].
  now apply append_round_stage.
Qed.

Lemma VM_mergeVideos_stage (w : World) :
  wp (VideoMerger.mergeVideos env temp output)
     (fun _ w' =>
        True /\ extends (stage_event dir temp output rate 7) (trace w) (trace w'))
     (fun w' =>
        ~ all_succeed env
        /\ extends (stage_event dir temp output rate 7) (trace w) (trace w')) w.
Proof. unfold VideoMerger.mergeVideos. run_calls; stage_finish. Qed.

End VideoMergerStages.

(** Run the stage [K] of [main] with its lemma [L]. *)
Ltac stage K L :=
  eapply wp_seq;
  [ eapply (stage_step _ K 8);
    [ eassumption | lia | eapply L; reflexivity ]
  | cbv beta; intros ? ? [? ?]; subst ].

Lemma VM_main_staged (env : Env) (w : World) :
  trace w = [] ->
  let config := config_json env in
  let P := stage_event (IntermediateTextDir (Dest config)) (temp_name env)
             (VideoMerger.outputPath env config) (Rate (Frame config)) in
  wp (VideoMerger.main env)
     (fun _ w' => staged P 0 8 (trace w'))
     (fun w' => staged P 0 8 (trace w')) w.
Proof.
  intros Hw config P.
  assert (H0 : staged P 0 0 (trace w)) by exact Hw.
  unfold VideoMerger.main.
  eapply wp_seq;
    [ eapply (stage_step _ 0 8); [exact H0 | lia | apply VM_loadConfig_stage]
    | cbv beta; intros ? ? [? ?]; subst ].
  stage 1%nat VM_loadVideos_stage. unfold VideoMerger.pipeline.
  stage 2%nat VM_prepareDir_stage. stage 3%nat VM_loadFont_stage.
  stage 4%nat VM_generateFrames_stage. stage 5%nat VM_createFileList_stage.
  stage 6%nat VM_appendFileList_stage.
  eapply wp_mono;
    [ eapply (stage_step _ 7 8); [eassumption | lia | apply VM_mergeVideos_stage]
    | intros ? ? [_ Hfin]; exact Hfin | intros ? Hfin; exact Hfin ].
Qed.

Section LegacyStages.

Variable env : Env.
Variables dir output : string.
Variable rate : Z.

Lemma Legacy_loadConfig_stage (w : World) :
  wp (Legacy.loadConfig env)
     (fun config w' =>
        config = config_json env
        /\ extends (stage_event dir "filelist.txt" output rate 0)
             (trace w) (trace w'))
     (fun w' =>
        ~ all_succeed env
        /\ extends (stage_event dir "filelist.txt" output rate 0)
             (trace w) (trace w')) w.
Proof. unfold Legacy.loadConfig. run_calls; stage_finish. Qed.

Lemma Legacy_loadVideos_stage (config : Config) (w : World) :
  wp (Legacy.loadVideos env (Source config))
     (fun videos w' =>
        videos = Legacy_resolved env config
        /\ extends (stage_event dir "filelist.txt" output rate 1)
             (trace w) (trace w'))
     (fun w' =>
        scan_fails env config
        /\ extends (stage_event dir "filelist.txt" output rate 1)
             (trace w) (trace w')) w.
Proof.
  unfold wp, Legacy_resolved, scan_fails.
  destruct (Source config) as [|v r] eqn:E.
  - rewrite Legacy_loadVideos_scan, Legacy_getVideoFiles_closed.
    destruct (first_error (walk env "./source")) as [e|];
      run_step; stage_finish.
  - rewrite Legacy_loadVideos_explicit by congruence.
    run_step; stage_finish.
Qed.

Lemma Legacy_prepareDir_stage (w : World) :
  wp (Legacy.prepareDir env dir)
     (fun _ w' =>
        True /\ extends (stage_event dir "filelist.txt" output rate 2)
                  (trace w) (trace w'))
     (fun w' =>
        ~ all_succeed env
        /\ extends (stage_event dir "filelist.txt" output rate 2)
             (trace w) (trace w')) w.
Proof. unfold Legacy.prepareDir. run_calls; stage_finish. Qed.

Lemma Legacy_loadFont_stage (fontPath : string) (fontSize : float) (w : World) :
  wp (Legacy.loadFont env fontPath fontSize)
     (fun face w' =>
        face = {| face_path := fontPath; face_size := fontSize |}
        /\ extends (stage_event dir "filelist.txt" output rate 3)
             (trace w) (trace w'))
     (fun w' =>
        ~ all_succeed env
        /\ extends (stage_event dir "filelist.txt" output rate 3)
             (trace w) (trace w')) w.
Proof. unfold Legacy.loadFont. run_calls; stage_finish. Qed.

Lemma Legacy_generateFrames_stage
    (frameWidth frameHeight frameRate textDuration : Z)
    (videos : list string) (face : Face) (textColor bgColor : RGBA)
    (w : World) :
  wp (Legacy.generateFrames env dir frameWidth frameHeight frameRate
        textDuration videos face textColor bgColor)
     (fun _ w' =>
        True /\ extends (stage_event dir "filelist.txt" output rate 4)
                  (trace w) (trace w'))
     (fun w' =>
        ~ all_succeed env
        /\ extends (stage_event dir "filelist.txt" output rate 4)
             (trace w) (trace w')) w.
Proof.
  unfold Legacy.generateFrames.
  eapply wp_mono;
    [apply wp_range_extends | intros ? ? H; split; [exact I | exact H]
    | intros ? H; exact H].
  intros [i video] w0 Hin.
  destruct (0 <? i) eqn:E; [|apply extends_refl]. apply Z.ltb_lt in E.
  now apply save_frames_stage.
Qed.

Lemma Legacy_createFileList_stage (w : World) :
  wp (Legacy.createFileList env)
     (fun name w' =>
        name = "filelist.txt"
        /\ extends (stage_event dir "filelist.txt" output rate 5)
             (trace w) (trace w'))
     (fun w' =>
        ~ all_succeed env
        /\ extends (stage_event dir "filelist.txt" output rate 5)
             (trace w) (trace w')) w.
Proof. unfold Legacy.createFileList. run_calls; stage_finish. Qed.

Lemma Legacy_appendFileList_stage (videos : list string) (w : World) :
  wp (Legacy.appendFileList env dir rate videos "filelist.txt")
     (fun _ w' =>
        True /\ extends (stage_event dir "filelist.txt" output rate 6)
                  (trace w) (trace w'))
     (fun w' =>
        ~ all_succeed env
        /\ extends (stage_event dir "filelist.txt" output rate 6)
             (trace w) (trace w')) w.
Proof.
  unfold Legacy.appendFileList.
  eapply wp_mono;
    [apply wp_range_extends | intros ? ? H; split; [exact I | exact H]
    | intros ? H; exact H].
  intros [i video] w0 Hin. apply In_indexed in Hin. destruct Hin as [Hi _].
  now apply append_round_stage.
Qed.

Lemma Legacy_mergeVideos_stage (w : World) :
  wp (Legacy.mergeVideos env "filelist.txt" output)
     (fun _ w' =>
        True /\ extends (stage_event dir "filelist.txt" output rate 7)
                  (trace w) (trace w'))
     (fun w' =>
        ~ all_succeed env
        /\ extends (stage_event dir "filelist.txt" output rate 7)
             (trace w) (trace w')) w.
Proof. unfold Legacy.mergeVideos. run_calls; stage_finish. Qed.

End LegacyStages.

Lemma Legacy_main_staged (env : Env) (w : World) :
  trace w = [] ->
  let config := config_json env in
  let P := stage_event (IntermediateTextDir (Dest config)) "filelist.txt"
             (Legacy.outputPath env config) (Rate (Frame config)) in
  wp (Legacy.main env)
     (fun _ w' => staged P 0 8 (trace w'))
     (fun w' => staged P 0 8 (trace w')) w.
Proof.
  intros Hw config P.
  assert (H0 : staged P 0 0 (trace w)) by exact Hw.
  unfold Legacy.main.
  eapply wp_seq;
    [ eapply (stage_step _ 0 8); [exact H0 | lia | apply Legacy_loadConfig_stage]
    | cbv beta; intros ? ? [? ?]; subst ].
  cbv zeta.
  eapply wp_seq;
    [ eapply (stage_step _ 1 8);
      [eassumption | lia | apply (Legacy_loadVideos_stage env _ _ _ config)]
    | cbv beta; intros ? ? [? ?]; subst ].
  unfold Legacy.pipeline. cbv zeta.
  stage 2%nat Legacy_prepareDir_stage. stage 3%nat Legacy_loadFont_stage.
  stage 4%nat Legacy_generateFrames_stage. stage 5%nat Legacy_createFileList_stage.
  stage 6%nat Legacy_appendFileList_stage.
  eapply wp_mono;
    [ eapply (stage_step _ 7 8);
      [eassumption | lia | apply Legacy_mergeVideos_stage]
    | intros ? ? [_ Hfin]; exact Hfin | intros ? Hfin; exact Hfin ].
Qed.

Lemma exec_run_in_stages (body : M unit) (fs : list string)
    (dir temp output : string) (rate : Z) :
  wp body
     (fun _ w' => staged (stage_event dir temp output rate) 0 8 (trace w'))
     (fun w' => staged (stage_event dir temp output rate) 0 8 (trace w'))
     (start fs) ->
  run_in_stages dir temp output rate (trace (exec body (start fs))).
Proof.
  intros H. apply wp_both in H. unfold exec. cbv zeta.
  rewrite run_deferred_trace.
  now exists (trace (snd (body (start fs)))), (deferred (snd (body (start fs)))).
Qed.

(** X7: every run of [main], in both revisions and whatever fails,
    makes its calls stage by stage in the order of the source --
    configuration, scan, frame directory, font, frames, creation of
    the file list, clips and lines of the list, sync and
    concatenation -- and ends with the deferred calls; no call of an
    earlier stage follows a call of a later one. *)
Theorem calls_follow_the_stages (env : Env) (fs : list string) :
  let config := config_json env in
  run_in_stages (IntermediateTextDir (Dest config)) (temp_name env)
    (VideoMerger.outputPath env config) (Rate (Frame config))
    (trace (exec (VideoMerger.main env) (start fs)))
  /\ run_in_stages (IntermediateTextDir (Dest config)) "filelist.txt"
       (Legacy.outputPath env config) (Rate (Frame config))
       (trace (exec (Legacy.main env) (start fs))).
Proof.
  intros config. split; apply exec_run_in_stages.
  - now apply VM_main_staged.
  - now apply Legacy_main_staged.
Qed.

Lemma staged_In (P : nat -> Event -> Prop) (k n : nat) (tr : list Event)
    (e : Event) :
  staged P k n tr -> In e tr -> exists j, P j e.
Proof.
  revert k tr. induction n as [|n IH]; intros k tr Htr Hin; simpl in Htr.
  - subst tr. destruct Hin.
  - destruct Htr as (seg & rest & -> & Hseg & Hrest).
    apply in_app_or in Hin. destruct Hin as [Hin|Hin].
    + exists k. rewrite Forall_forall in Hseg. now apply Hseg.
    + eapply IH; eassumption.
Qed.

Lemma stage_op_creates (dir temp output : string) (rate : Z) (k : nat)
    (op : Op) (p : string) :
  stage_op dir temp output rate k op -> In p (creates op) ->
  own_path dir temp output p.
Proof.
  unfold own_path. intros Hop Hp.
  destruct Hop; simpl in Hp; try contradiction.
  - destruct Hp as [<-|Hp]; [now left | right; now left].
  - destruct Hp as [<-|[]]. right; right; left. eauto.
  - destruct Hp as [<-|[]]. right; right; right; now left.
  - destruct Hp as [<-|[]]. right; right; right; right; left. eauto.
  - destruct Hp as [<-|[]]. right; right; right; right; now right.
Qed.

Lemma run_in_stages_creates (dir temp output : string) (rate : Z)
    (tr : list Event) (op : Op) (err : option error) (p : string) :
  run_in_stages dir temp output rate tr ->
  In (Call op err) tr -> In p (creates op) -> own_path dir temp output p.
Proof.
  intros (body & ds & -> & Hst) Hin Hp. apply in_app_or in Hin.
  destruct Hin as [Hin|Hin].
  - destruct (staged_In _ _ _ _ _ Hst Hin) as (j & Hj).
    eapply stage_op_creates; eassumption.
  - apply in_map_iff in Hin. destruct Hin as (d & [=] & _).
Qed.

(** X8: in every run of either revision, the only paths that a call
    of [main] creates are the frame directory with the parent
    directories that [os.MkdirAll] makes for it, frame images under
    the frame directory named by a transition and a frame number, the
    file list, transition clips [text_transition_<i>.mp4], and the
    output; [main] creates no other file or directory (not, for one,
    the directory of the output). *)
Theorem main_creates_only_its_own_paths (env : Env) (fs : list string)
    (op : Op) (err : option error) (p : string) :
  let config := config_json env in
  In p (creates op) ->
  (In (Call op err) (trace (exec (VideoMerger.main env) (start fs))) ->
   own_path (IntermediateTextDir (Dest config)) (temp_name env)
     (VideoMerger.outputPath env config) p)
  /\ (In (Call op err) (trace (exec (Legacy.main env) (start fs))) ->
      own_path (IntermediateTextDir (Dest config)) "filelist.txt"
        (Legacy.outputPath env config) p).
Proof.
  intros config Hp. split; intros Hin.
  - eapply run_in_stages_creates; [|exact Hin | exact Hp].
    apply exec_run_in_stages. now apply VM_main_staged.
  - eapply run_in_stages_creates; [|exact Hin | exact Hp].
    apply exec_run_in_stages. now apply Legacy_main_staged.
Qed.

Lemma main_creates_only_its_own_paths_witness :
  own_path "tmp/work/frames" "/tmp/filelist_42.txt"
    (VideoMerger.outputPath nested_dir_env (config_json nested_dir_env))
    "tmp/work"
  /\ own_path "tmp/work/frames" "filelist.txt"
       (Legacy.outputPath nested_dir_env (config_json nested_dir_env))
       "tmp/work".
Proof.
  destruct (main_creates_only_its_own_paths nested_dir_env []
              (MkdirAll "tmp/work/frames") None "tmp/work"
              (or_intror (or_introl eq_refl))) as [H1 H2].
  split; [apply H1 | apply H2]; vm_compute; tauto.
Defined.

Example parents_of_a_path :
  parents "tmp/work/frames" = ["tmp/work"; "tmp"]
  /\ parents "/var//tmp/frames/" = ["/var//tmp"; "/var"]
  /\ parents "frames" = [].
Proof. repeat split. Qed.

(** ** The commands of the clips *)

Lemma commands_snoc (tr : list Event) (e : Event) :
  commands (tr ++ [e]) = (commands tr ++ commands [e])%list.
Proof. unfold commands. now rewrite flat_map_app. Qed.

Section Commands.

Variable env : Env.

Lemma append_round_commands (dir tempFile msg : string) (rate i : Z)
    (video : string) (w : World) :
  wp ((if 0 <? i then
         err <- call env
                  (Run (encode_cmd rate (textFramesPattern dir i) (textVideo i))) ;;
         if_err err (fun e =>
           Print ("Error creating text transition video: " ++ e ++ nl) ;;
           return_) ;;
         defer (Remove (textVideo i)) ;;
         err <- call env (WriteString tempFile (file_line (textVideo i))) ;;
         if_err err (fun e =>
           Print ("Error writing to filelist: " ++ e ++ nl) ;; return_)
       else ret tt) ;;
      err <- call env (WriteString tempFile (file_line video)) ;;
      if_err err (fun e => Print (msg ++ e ++ nl) ;; return_))
     (fun _ w' =>
        commands (trace w')
        = (commands (trace w)
           ++ (if 0 <? i then [encode_of dir rate (i, video)] else []))%list)
     (fun _ => True) w.
Proof.
  destruct (0 <? i); run_calls; try exact I;
    rewrite !commands_snoc; simpl; now rewrite <- ?app_assoc, ?app_nil_r.
Qed.

Lemma VM_appendFileList_commands (config : Config) (videos : list string)
    (tempFile : string) (w : World) :
  wp (VideoMerger.appendFileList env config videos tempFile)
     (fun _ w' =>
        commands (trace w')
        = (commands (trace w)
           ++ map (encode_of (IntermediateTextDir (Dest config))
                     (Rate (Frame config)))
                  (tl (indexed videos)))%list)
     (fun _ => True) w.
Proof.
  unfold VideoMerger.appendFileList.
  set (enc := encode_of _ _).
  rewrite <- (flat_map_single enc).
  rewrite <- (skip_first_frames
                (fun iv => if 0 <? fst iv then [enc iv] else [])
                (fun iv => [enc iv])).
  - rewrite <- fold_left_app_flat_map.
    apply (wp_range_fold (fun w => commands (trace w))).
    intros [i video] w0 _. apply append_round_commands.
  - reflexivity.
  - intros i video Hi. simpl fst.
    destruct (0 <? i) eqn:E; [reflexivity | apply Z.ltb_ge in E; lia].
Qed.

Lemma Legacy_appendFileList_commands (dir : string) (frameRate : Z)
    (videos : list string) (tempFile : string) (w : World) :
  wp (Legacy.appendFileList env dir frameRate videos tempFile)
     (fun _ w' =>
        commands (trace w')
        = (commands (trace w)
           ++ map (encode_of dir frameRate) (tl (indexed videos)))%list)
     (fun _ => True) w.
Proof.
  unfold Legacy.appendFileList.
  set (enc := encode_of _ _).
  rewrite <- (flat_map_single enc).
  rewrite <- (skip_first_frames
                (fun iv => if 0 <? fst iv then [enc iv] else [])
                (fun iv => [enc iv])).
  - rewrite <- fold_left_app_flat_map.
    apply (wp_range_fold (fun w => commands (trace w))).
    intros [i video] w0 _. apply append_round_commands.
  - reflexivity.
  - intros i video Hi. simpl fst.
    destruct (0 <? i) eqn:E; [reflexivity | apply Z.ltb_ge in E; lia].
Qed.

End Commands.

Lemma wp_runs_commands (m : M unit) (w : World) (cmds : list (list string)) :
  wp m (fun _ w' => commands (trace w') = (commands (trace w) ++ cmds)%list)
       (fun _ => True) w ->
  runs_commands m w cmds.
Proof.
  unfold wp, runs_commands. destruct (m w) as [[u|] w']; simpl; intros H E;
    [exact H | discriminate].
Qed.

(** X9: when the loop over the videos runs to its end, the commands it
    has run are, in order, one [ffmpeg] call per video after the first:
    for video [i] the frames [<dir>/text_<i>_frame_%05d.png] are
    encoded at the configured frame rate into [text_transition_<i>.mp4];
    no command is run for video 0.  This holds in both revisions. *)
Theorem one_encode_per_transition (env : Env) (config : Config)
    (videos : list string) (tempFile : string) (w : World) :
  let cmds :=
    map (encode_of (IntermediateTextDir (Dest config)) (Rate (Frame config)))
        (tl (indexed videos)) in
  runs_commands (VideoMerger.appendFileList env config videos tempFile) w cmds
  /\ runs_commands
       (Legacy.appendFileList env (IntermediateTextDir (Dest config))
          (Rate (Frame config)) videos tempFile) w cmds
  /\ List.length cmds = (List.length videos - 1)%nat.
Proof.
  intros cmds. split; [|split].
  - apply wp_runs_commands, VM_appendFileList_commands.
  - apply wp_runs_commands, Legacy_appendFileList_commands.
  - unfold cmds. rewrite length_map. destruct videos as [|v r]; [reflexivity|].
    rewrite indexed_cons. simpl. unfold indexed_from.
    rewrite length_combine, length_map, length_seq. lia.
Qed.

Example two_videos_commands :
  commands (trace (exec (VideoMerger.main (two_videos_env succeed)) (start [])))
  = [ ["ffmpeg"; "-y"; "-framerate"; "2"; "-i"; "frames/text_1_frame_%05d.png";
       "-c:v"; "libx264"; "-pix_fmt"; "yuv420p"; "text_transition_1.mp4"];
      ["ffmpeg"; "-y"; "-f"; "concat"; "-safe"; "0"; "-i";
       "/tmp/filelist_42.txt"; "-c"; "copy"; "out.mp4"] ].
Proof. vm_compute. reflexivity. Qed.

(** ** The order of the deferred calls *)

Lemma clips_made_app (a b : list Event) :
  clips_made (a ++ b) = (clips_made a ++ clips_made b)%list.
Proof. unfold clips_made. apply flat_map_app. Qed.

Lemma list_created_app (temp : string) (a b : list Event) :
  list_created temp (a ++ b) = list_created temp a || list_created temp b.
Proof. unfold list_created. apply existsb_app. Qed.

Lemma dir_made_app (dir : string) (a b : list Event) :
  dir_made dir (a ++ b) = dir_made dir a || dir_made dir b.
Proof. unfold dir_made. apply existsb_app. Qed.

Lemma clips_made_quiet (tr : list Event) (e : Event) :
  clips_made [e] = [] -> clips_made (tr ++ [e]) = clips_made tr.
Proof. intros H. now rewrite clips_made_app, H, app_nil_r. Qed.

Lemma clips_made_clip (tr : list Event) (rate : Z) (pattern clip : string) :
  clips_made (tr ++ [Call (Run (encode_cmd rate pattern clip)) None])
  = (clips_made tr ++ [clip])%list.
Proof. now rewrite clips_made_app. Qed.

Lemma clips_made_Ran (tr : list Event) (ds : list Deferred) :
  clips_made (tr ++ map Ran ds) = clips_made tr.
Proof.
  rewrite clips_made_app. unfold clips_made at 2.
  rewrite flat_map_none; [apply app_nil_r|].
  apply Forall_forall. intros e He. apply in_map_iff in He.
  now destruct He as (d & <- & _).
Qed.

Lemma clips_numbered_length (k : nat) : List.length (clips_numbered k) = k.
Proof. unfold clips_numbered. now rewrite length_map, length_seq. Qed.

Lemma clips_numbered_S (k : nat) :
  clips_numbered (S k)
  = (clips_numbered k ++ [textVideo (Z.of_nat (S k))])%list.
Proof. unfold clips_numbered. now rewrite seq_S, map_app. Qed.

Lemma numbered_intro (k : nat) (tr : list Event) :
  clips_made tr = clips_numbered k -> numbered tr.
Proof.
  intros H. unfold numbered. now rewrite H, clips_numbered_length.
Qed.

Section CleanupOf.

Variables dir temp : string.
Variable list_cleanup : list Deferred.

(** An event that stands for no deferred call. *)
Lemma cleanup_of_quiet (tr : list Event) (e : Event) :
  clips_made [e] = [] -> list_created temp [e] = false ->
  dir_made dir [e] = false ->
  cleanup_of dir temp list_cleanup (tr ++ [e])
  = cleanup_of dir temp list_cleanup tr.
Proof.
  intros Hc Hl Hd. unfold cleanup_of.
  now rewrite clips_made_app, list_created_app, dir_made_app, Hc, Hl, Hd,
    app_nil_r, !orb_false_r.
Qed.

Lemma cleanup_of_clip (tr : list Event) (rate : Z) (pattern clip : string) :
  cleanup_of dir temp list_cleanup
    (tr ++ [Call (Run (encode_cmd rate pattern clip)) None])
  = Remove clip :: cleanup_of dir temp list_cleanup tr.
Proof.
  unfold cleanup_of.
  rewrite clips_made_app, list_created_app, dir_made_app. simpl.
  now rewrite rev_app_distr, !orb_false_r.
Qed.

Lemma cleanup_of_list (tr : list Event) :
  clips_made tr = [] -> list_created temp tr = false ->
  cleanup_of dir temp list_cleanup (tr ++ [Call (Create temp) None])
  = (list_cleanup ++ cleanup_of dir temp list_cleanup tr)%list.
Proof.
  intros Hc Hl. unfold cleanup_of.
  rewrite clips_made_app, list_created_app, dir_made_app, Hc, Hl. simpl.
  now rewrite String.eqb_refl, !orb_false_r.
Qed.

Lemma cleanup_of_dir (tr : list Event) :
  clips_made tr = [] -> list_created temp tr = false ->
  dir_made dir tr = false ->
  cleanup_of dir temp list_cleanup (tr ++ [Call (MkdirAll dir) None])
  = RemoveAll dir :: cleanup_of dir temp list_cleanup tr.
Proof.
  intros Hc Hl Hd. unfold cleanup_of.
  rewrite clips_made_app, list_created_app, dir_made_app, Hc, Hl, Hd. simpl.
  now rewrite String.eqb_refl.
Qed.

Lemma cleanup_of_Ran (tr : list Event) (ds : list Deferred) :
  cleanup_of dir temp list_cleanup (tr ++ map Ran ds)
  = cleanup_of dir temp list_cleanup tr.
Proof.
  induction ds as [|d ds IH] using rev_ind; simpl.
  - now rewrite app_nil_r.
  - rewrite map_app, app_assoc. simpl. now rewrite cleanup_of_quiet.
Qed.

End CleanupOf.

(** Every event of a staged trace belongs to one of its stages. *)
Lemma staged_In_stage (P : nat -> Event -> Prop) (k n : nat)
    (tr : list Event) (e : Event) :
  staged P k n tr -> In e tr -> exists j, (k <= j < k + n)%nat /\ P j e.
Proof.
  revert k tr. induction n as [|n IH]; intros k tr Htr Hin; simpl in Htr.
  - subst tr. destruct Hin.
  - destruct Htr as (seg & rest & -> & Hseg & Hrest).
    apply in_app_or in Hin. destruct Hin as [Hin|Hin].
    + exists k. split; [lia|]. rewrite Forall_forall in Hseg. now apply Hseg.
    + destruct (IH _ _ Hrest Hin) as (j & Hj & HP). exists j. split; [lia|].
      exact HP.
Qed.

(** Before a stage is reached, nothing of it has happened. *)
Lemma staged_nothing_made (dir temp output : string) (rate : Z) (k : nat)
    (tr : list Event) :
  staged (stage_event dir temp output rate) 0 k tr ->
  ((k <= 6)%nat -> clips_made tr = [])
  /\ ((k <= 5)%nat -> list_created temp tr = false)
  /\ ((k <= 2)%nat -> dir_made dir tr = false).
Proof.
  intros Hst.
  assert (H : forall e, In e tr ->
            exists j, (j < k)%nat /\ stage_event dir temp output rate j e).
  { intros e He. destruct (staged_In_stage _ _ _ _ _ Hst He) as (j & Hj & HP).
    exists j. split; [lia | exact HP]. }
  clear Hst. repeat split; intros Hk.
  - unfold clips_made. apply flat_map_none, Forall_forall.
    intros [op [e|]|s|d] He; try reflexivity; [now destruct op|].
    destruct (H _ He) as (j & Hj & HP). simpl in HP.
    inversion HP; subst; try reflexivity; lia.
  - unfold list_created.
    destruct (existsb _ tr) eqn:E; [|reflexivity]. exfalso.
    apply existsb_exists in E. destruct E as ([op [e|]|s|d] & He & Hx);
      try discriminate; [now destruct op|].
    destruct (H _ He) as (j & Hj & HP). simpl in HP.
    inversion HP; subst; try discriminate. lia.
  - unfold dir_made.
    destruct (existsb _ tr) eqn:E; [|reflexivity]. exfalso.
    apply existsb_exists in E. destruct E as ([op [e|]|s|d] & He & Hx);
      try discriminate; [now destruct op|].
    destruct (H _ He) as (j & Hj & HP). simpl in HP.
    inversion HP; subst; try discriminate. lia.
Qed.

Lemma staged_numbered (dir temp output : string) (rate : Z) (k : nat)
    (tr : list Event) :
  staged (stage_event dir temp output rate) 0 k tr -> (k <= 6)%nat ->
  numbered tr.
Proof.
  intros Hst Hk. apply (numbered_intro O).
  now apply (staged_nothing_made _ _ _ _ _ _ Hst).
Qed.

(** Close the goals that [run_calls] leaves: the events added to the
    trace stand for the calls pushed on the stack. *)
Ltac registered_ok :=
  unfold registered in *; cbn [trace deferred];
  repeat first [ rewrite cleanup_of_quiet by reflexivity
               | rewrite cleanup_of_clip ];
  congruence.

Section Registered.

Variable env : Env.
Variables dir temp : string.
Variable list_cleanup : list Deferred.

Lemma save_frames_registered (d : string) (n i : Z) (img : Image)
    (w : World) :
  registered dir temp list_cleanup w ->
  wp (range (upto n) (fun j =>
        err <- call env (SavePNG (framePath d i j) img) ;;
        if_err err (fun e =>
          Print ("Error saving frame: " ++ e ++ nl) ;; return_)))
     (fun _ => registered dir temp list_cleanup)
     (registered dir temp list_cleanup) w.
Proof. apply wp_range. intros j w0 _ Hw0. run_calls; registered_ok. Qed.

(** A round of the loop over the videos pushes the removal of its clip
    when, and only when, the clip is made. *)
Lemma append_round_registered (d tempFile msg : string) (rate i : Z)
    (video : string) (w : World) :
  registered dir temp list_cleanup w ->
  wp ((if 0 <? i then
         err <- call env
                  (Run (encode_cmd rate (textFramesPattern d i) (textVideo i))) ;;
         if_err err (fun e =>
           Print ("Error creating text transition video: " ++ e ++ nl) ;;
           return_) ;;
         defer (Remove (textVideo i)) ;;
         err <- call env (WriteString tempFile (file_line (textVideo i))) ;;
         if_err err (fun e =>
           Print ("Error writing to filelist: " ++ e ++ nl) ;; return_)
       else ret tt) ;;
      err <- call env (WriteString tempFile (file_line video)) ;;
      if_err err (fun e => Print (msg ++ e ++ nl) ;; return_))
     (fun _ => registered dir temp list_cleanup)
     (registered dir temp list_cleanup) w.
Proof. intros Hw. destruct (0 <? i); run_calls; registered_ok. Qed.

(** A round makes its clip, the one of its transition, or none. *)
Lemma append_round_clips (d tempFile msg : string) (rate i : Z)
    (video : string) (w : World) :
  wp ((if 0 <? i then
         err <- call env
                  (Run (encode_cmd rate (textFramesPattern d i) (textVideo i))) ;;
         if_err err (fun e =>
           Print ("Error creating text transition video: " ++ e ++ nl) ;;
           return_) ;;
         defer (Remove (textVideo i)) ;;
         err <- call env (WriteString tempFile (file_line (textVideo i))) ;;
         if_err err (fun e =>
           Print ("Error writing to filelist: " ++ e ++ nl) ;; return_)
       else ret tt) ;;
      err <- call env (WriteString tempFile (file_line video)) ;;
      if_err err (fun e => Print (msg ++ e ++ nl) ;; return_))
     (fun _ w' =>
        clips_made (trace w')
        = if 0 <? i then (clips_made (trace w) ++ [textVideo i])%list
          else clips_made (trace w))
     (fun w' =>
        clips_made (trace w') = clips_made (trace w)
        \/ (0 < i
            /\ clips_made (trace w')
               = (clips_made (trace w) ++ [textVideo i])%list)) w.
Proof.
  destruct (0 <? i) eqn:E; [apply Z.ltb_lt in E|]; run_calls;
    repeat first [ rewrite clips_made_quiet by reflexivity
                 | rewrite clips_made_clip ];
    auto.
Qed.

(** The rounds from video [j + 1] on, entered with the clips of the
    transitions up to [j] made. *)
Lemma append_rounds_numbered (d tempFile msg : string) (rate : Z)
    (videos : list string) :
  forall (j : nat) (w : World),
    clips_made (trace w) = clips_numbered j ->
    wp (range (indexed_from (S j) videos) (fun '(i, video) =>
          (if 0 <? i then
             err <- call env
                      (Run (encode_cmd rate (textFramesPattern d i) (textVideo i))) ;;
             if_err err (fun e =>
               Print ("Error creating text transition video: " ++ e ++ nl) ;;
               return_) ;;
             defer (Remove (textVideo i)) ;;
             err <- call env (WriteString tempFile (file_line (textVideo i))) ;;
             if_err err (fun e =>
               Print ("Error writing to filelist: " ++ e ++ nl) ;; return_)
           else ret tt) ;;
          err <- call env (WriteString tempFile (file_line video)) ;;
          if_err err (fun e => Print (msg ++ e ++ nl) ;; return_)))
       (fun _ w' => numbered (trace w')) (fun w' => numbered (trace w')) w.
Proof.
  induction videos as [|v r IH]; intros j w Hw.
  - simpl. now apply (numbered_intro j).
  - rewrite indexed_from_cons. cbn [range].
    eapply wp_seq.
    + eapply wp_mono; [apply append_round_clips | |]; cbv beta.
      * intros u w' H. exact H.
      * intros w' [H|[_ H]]; rewrite Hw in H.
        -- now apply (numbered_intro j).
        -- apply (numbered_intro (S j)). now rewrite clips_numbered_S.
    + cbv beta. intros u w' H. apply IH.
      destruct (0 <? Z.of_nat (S j)) eqn:E; [|apply Z.ltb_ge in E; lia].
      now rewrite H, Hw, clips_numbered_S.
Qed.

Lemma append_all_numbered (d tempFile msg : string) (rate : Z)
    (videos : list string) (w : World) :
  clips_made (trace w) = [] ->
  wp (range (indexed videos) (fun '(i, video) =>
        (if 0 <? i then
           err <- call env
                    (Run (encode_cmd rate (textFramesPattern d i) (textVideo i))) ;;
           if_err err (fun e =>
             Print ("Error creating text transition video: " ++ e ++ nl) ;;
             return_) ;;
           defer (Remove (textVideo i)) ;;
           err <- call env (WriteString tempFile (file_line (textVideo i))) ;;
           if_err err (fun e =>
             Print ("Error writing to filelist: " ++ e ++ nl) ;; return_)
         else ret tt) ;;
        err <- call env (WriteString tempFile (file_line video)) ;;
        if_err err (fun e => Print (msg ++ e ++ nl) ;; return_)))
     (fun _ w' => numbered (trace w')) (fun w' => numbered (trace w')) w.
Proof.
  intros Hw. destruct videos as [|v r]; [now apply (numbered_intro O)|].
  rewrite indexed_cons. cbn [range].
  eapply wp_seq.
  - eapply wp_mono; [apply append_round_clips | |]; cbv beta.
    + intros u w' H. exact H.
    + intros w' [H|[Hi _]]; [|lia]. rewrite Hw in H.
      now apply (numbered_intro O).
  - cbv beta. intros u w' H. simpl in H.
    apply (append_rounds_numbered _ _ _ _ r O). now rewrite H, Hw.
Qed.

Lemma VM_mergeVideos_numbered (tempFile output : string) (w : World) :
  numbered (trace w) ->
  wp (VideoMerger.mergeVideos env tempFile output)
     (fun _ w' => numbered (trace w')) (fun w' => numbered (trace w')) w.
Proof.
  intros Hw. unfold VideoMerger.mergeVideos.
  run_calls; unfold numbered in *;
    repeat rewrite clips_made_quiet by reflexivity; exact Hw.
Qed.

Lemma Legacy_mergeVideos_numbered (tempFile output : string) (w : World) :
  numbered (trace w) ->
  wp (Legacy.mergeVideos env tempFile output)
     (fun _ w' => numbered (trace w')) (fun w' => numbered (trace w')) w.
Proof.
  intros Hw. unfold Legacy.mergeVideos.
  run_calls; unfold numbered in *;
    repeat rewrite clips_made_quiet by reflexivity; exact Hw.
Qed.

Lemma VM_loadConfig_registered (w : World) :
  registered dir temp list_cleanup w ->
  wp (VideoMerger.loadConfig env) (fun _ => registered dir temp list_cleanup)
     (registered dir temp list_cleanup) w.
Proof. intros Hw. unfold VideoMerger.loadConfig. run_calls; registered_ok. Qed.

Lemma VM_loadVideos_registered (config : Config) (w : World) :
  registered dir temp list_cleanup w ->
  wp (VideoMerger.loadVideos env config)
     (fun _ => registered dir temp list_cleanup)
     (registered dir temp list_cleanup) w.
Proof.
  intros Hw. unfold VideoMerger.loadVideos.
  destruct (List.length (Source config) =? 0)%nat;
    [destruct (VideoMerger.getVideoFiles env "./source") as [vs [e|]]|];
    run_calls; registered_ok.
Qed.

Lemma VM_prepareDir_registered (output : string) (rate : Z) (config : Config)
    (w : World) :
  IntermediateTextDir (Dest config) = dir ->
  staged (stage_event dir temp output rate) 0 2 (trace w) ->
  registered dir temp list_cleanup w ->
  wp (VideoMerger.prepareDir env config)
     (fun _ => registered dir temp list_cleanup)
     (registered dir temp list_cleanup) w.
Proof.
  intros <- Hst Hw.
  destruct (staged_nothing_made _ _ _ _ _ _ Hst) as (Hc & Hl & Hd).
  unfold VideoMerger.prepareDir.
  run_calls; [registered_ok|]. unfold registered in *. cbn [trace deferred].
  rewrite cleanup_of_dir by (first [apply Hc | apply Hl | apply Hd]; lia).
  congruence.
Qed.

Lemma VM_loadFont_registered (config : Config) (w : World) :
  registered dir temp list_cleanup w ->
  wp (VideoMerger.loadFont env config)
     (fun _ => registered dir temp list_cleanup)
     (registered dir temp list_cleanup) w.
Proof. intros Hw. unfold VideoMerger.loadFont. run_calls; registered_ok. Qed.

Lemma VM_generateFrames_registered (config : Config) (videos : list string)
    (face : Face) (textColor bgColor : RGBA) (w : World) :
  registered dir temp list_cleanup w ->
  wp (VideoMerger.generateFrames env config videos face textColor bgColor)
     (fun _ => registered dir temp list_cleanup)
     (registered dir temp list_cleanup) w.
Proof.
  unfold VideoMerger.generateFrames. apply wp_range.
  intros [i video] w0 _ Hw0. destruct (i =? 0); [exact Hw0|].
  now apply save_frames_registered.
Qed.

Lemma VM_createFileList_registered (output : string) (rate : Z) (w : World) :
  temp_name env = temp ->
  list_cleanup = [Close temp; Remove temp] ->
  staged (stage_event dir temp output rate) 0 5 (trace w) ->
  registered dir temp list_cleanup w ->
  wp (VideoMerger.createFileList env)
     (fun _ => registered dir temp list_cleanup)
     (registered dir temp list_cleanup) w.
Proof.
  intros <- HL Hst Hw.
  destruct (staged_nothing_made _ _ _ _ _ _ Hst) as (Hc & Hl & _).
  unfold VideoMerger.createFileList.
  run_calls; [registered_ok|]. unfold registered in *. cbn [trace deferred].
  rewrite cleanup_of_list by (first [apply Hc | apply Hl]; lia).
  rewrite HL at 1. simpl. congruence.
Qed.

Lemma VM_appendFileList_registered (config : Config) (videos : list string)
    (tempFile : string) (w : World) :
  registered dir temp list_cleanup w ->
  wp (VideoMerger.appendFileList env config videos tempFile)
     (fun _ => registered dir temp list_cleanup)
     (registered dir temp list_cleanup) w.
Proof.
  unfold VideoMerger.appendFileList. apply wp_range.
  intros [i video] w0 _ Hw0. now apply append_round_registered.
Qed.

Lemma VM_mergeVideos_registered (tempFile output : string) (w : World) :
  registered dir temp list_cleanup w ->
  wp (VideoMerger.mergeVideos env tempFile output)
     (fun _ => registered dir temp list_cleanup)
     (registered dir temp list_cleanup) w.
Proof. intros Hw. unfold VideoMerger.mergeVideos. run_calls; registered_ok. Qed.

Lemma Legacy_loadConfig_registered (w : World) :
  registered dir temp list_cleanup w ->
  wp (Legacy.loadConfig env) (fun _ => registered dir temp list_cleanup)
     (registered dir temp list_cleanup) w.
Proof. intros Hw. unfold Legacy.loadConfig. run_calls; registered_ok. Qed.

Lemma Legacy_loadVideos_registered (videos : list string) (w : World) :
  registered dir temp list_cleanup w ->
  wp (Legacy.loadVideos env videos)
     (fun _ => registered dir temp list_cleanup)
     (registered dir temp list_cleanup) w.
Proof.
  intros Hw. unfold Legacy.loadVideos.
  destruct (List.length videos =? 0)%nat;
    [destruct (Legacy.getVideoFiles env "./source") as [vs [e|]]|];
    run_calls; registered_ok.
Qed.

Lemma Legacy_prepareDir_registered (output : string) (rate : Z) (w : World) :
  staged (stage_event dir temp output rate) 0 2 (trace w) ->
  registered dir temp list_cleanup w ->
  wp (Legacy.prepareDir env dir)
     (fun _ => registered dir temp list_cleanup)
     (registered dir temp list_cleanup) w.
Proof.
  intros Hst Hw.
  destruct (staged_nothing_made _ _ _ _ _ _ Hst) as (Hc & Hl & Hd).
  unfold Legacy.prepareDir.
  run_calls; [registered_ok|]. unfold registered in *. cbn [trace deferred].
  rewrite cleanup_of_dir by (first [apply Hc | apply Hl | apply Hd]; lia).
  congruence.
Qed.

Lemma Legacy_loadFont_registered (fontPath : string) (fontSize : float)
    (w : World) :
  registered dir temp list_cleanup w ->
  wp (Legacy.loadFont env fontPath fontSize)
     (fun _ => registered dir temp list_cleanup)
     (registered dir temp list_cleanup) w.
Proof. intros Hw. unfold Legacy.loadFont. run_calls; registered_ok. Qed.

Lemma Legacy_generateFrames_registered (d : string)
    (frameWidth frameHeight frameRate textDuration : Z)
    (videos : list string) (face : Face) (textColor bgColor : RGBA)
    (w : World) :
  registered dir temp list_cleanup w ->
  wp (Legacy.generateFrames env d frameWidth frameHeight frameRate
        textDuration videos face textColor bgColor)
     (fun _ => registered dir temp list_cleanup)
     (registered dir temp list_cleanup) w.
Proof.
  unfold Legacy.generateFrames. apply wp_range.
  intros [i video] w0 _ Hw0. destruct (0 <? i); [|exact Hw0].
  now apply save_frames_registered.
Qed.

Lemma Legacy_createFileList_registered (output : string) (rate : Z)
    (w : World) :
  temp = "filelist.txt" ->
  list_cleanup = [Remove temp; Close temp] ->
  staged (stage_event dir temp output rate) 0 5 (trace w) ->
  registered dir temp list_cleanup w ->
  wp (Legacy.createFileList env)
     (fun _ => registered dir temp list_cleanup)
     (registered dir temp list_cleanup) w.
Proof.
  intros Ht HL Hst Hw.
  destruct (staged_nothing_made _ _ _ _ _ _ Hst) as (Hc & Hl & _).
  unfold Legacy.createFileList. rewrite <- Ht.
  run_calls; [registered_ok|]. unfold registered in *. cbn [trace deferred].
  rewrite cleanup_of_list by (first [apply Hc | apply Hl]; lia).
  rewrite HL at 1. simpl. congruence.
Qed.

Lemma Legacy_appendFileList_registered (d : string) (frameRate : Z)
    (videos : list string) (tempFile : string) (w : World) :
  registered dir temp list_cleanup w ->
  wp (Legacy.appendFileList env d frameRate videos tempFile)
     (fun _ => registered dir temp list_cleanup)
     (registered dir temp list_cleanup) w.
Proof.
  unfold Legacy.appendFileList. apply wp_range.
  intros [i video] w0 _ Hw0. now apply append_round_registered.
Qed.

Lemma Legacy_mergeVideos_registered (tempFile output : string) (w : World) :
  registered dir temp list_cleanup w ->
  wp (Legacy.mergeVideos env tempFile output)
     (fun _ => registered dir temp list_cleanup)
     (registered dir temp list_cleanup) w.
Proof. intros Hw. unfold Legacy.mergeVideos. run_calls; registered_ok. Qed.

End Registered.

(** Run the stage [K] of [main], one before the clips, with its
    lemmas [Ls], for the stage of its events, and [Lr], for its
    deferred calls. *)
Ltac registered_stage K Ls Lr :=
  eapply wp_seq;
  [ eapply wp_mono;
    [ eapply wp_conj;
      [ eapply (stage_step _ K (S K));
        [ eassumption | lia | eapply Ls; reflexivity ]
      | eapply Lr; first [eassumption | reflexivity] ]
    | cbv beta; let H := fresh in intros ? ? H; exact H
    | cbv beta; let H := fresh in
      intros ? [H ?]; split;
      [assumption | eapply staged_numbered; [exact H | lia]] ]
  | cbv beta; intros ? ? [[? ?] ?]; subst ].

(** The last two stages: the clips and the concatenation. *)
Ltac registered_end L6r L6n L7r L7n :=
  eapply wp_seq;
  [ eapply wp_conj;
    [ eapply L6r; eassumption
    | eapply L6n; eapply staged_nothing_made; [eassumption | lia] ]
  | cbv beta; intros ? ? [? ?];
    eapply wp_conj; [eapply L7r | eapply L7n]; eassumption ].

Lemma VM_main_registered (env : Env) (w : World) :
  trace w = [] -> deferred w = [] ->
  let R := fun w' =>
    registered (IntermediateTextDir (Dest (config_json env)))
      (temp_name env) [Close (temp_name env); Remove (temp_name env)] w'
    /\ numbered (trace w') in
  wp (VideoMerger.main env) (fun _ => R) R w.
Proof.
  intros Hw Hd R.
  pose (P := stage_event (IntermediateTextDir (Dest (config_json env)))
               (temp_name env)
               (VideoMerger.outputPath env (config_json env))
               (Rate (Frame (config_json env)))).
  assert (H0 : staged P 0 0 (trace w)) by exact Hw.
  assert (Hr : registered (IntermediateTextDir (Dest (config_json env)))
                 (temp_name env)
                 [Close (temp_name env); Remove (temp_name env)] w)
    by (unfold registered; now rewrite Hw, Hd).
  unfold R, VideoMerger.main.
  registered_stage 0%nat VM_loadConfig_stage VM_loadConfig_registered.
  registered_stage 1%nat VM_loadVideos_stage VM_loadVideos_registered.
  unfold VideoMerger.pipeline.
  registered_stage 2%nat VM_prepareDir_stage VM_prepareDir_registered.
  registered_stage 3%nat VM_loadFont_stage VM_loadFont_registered.
  registered_stage 4%nat VM_generateFrames_stage VM_generateFrames_registered.
  registered_stage 5%nat VM_createFileList_stage VM_createFileList_registered.
  unfold VideoMerger.appendFileList at 1.
  registered_end VM_appendFileList_registered append_all_numbered
    VM_mergeVideos_registered VM_mergeVideos_numbered.
Qed.

Lemma Legacy_main_registered (env : Env) (w : World) :
  trace w = [] -> deferred w = [] ->
  let R := fun w' =>
    registered (IntermediateTextDir (Dest (config_json env)))
      "filelist.txt" [Remove "filelist.txt"; Close "filelist.txt"] w'
    /\ numbered (trace w') in
  wp (Legacy.main env) (fun _ => R) R w.
Proof.
  intros Hw Hd R.
  pose (P := stage_event (IntermediateTextDir (Dest (config_json env)))
               "filelist.txt"
               (Legacy.outputPath env (config_json env))
               (Rate (Frame (config_json env)))).
  assert (H0 : staged P 0 0 (trace w)) by exact Hw.
  assert (Hr : registered (IntermediateTextDir (Dest (config_json env)))
                 "filelist.txt"
                 [Remove "filelist.txt"; Close "filelist.txt"] w)
    by (unfold registered; now rewrite Hw, Hd).
  unfold R, Legacy.main.
  registered_stage 0%nat Legacy_loadConfig_stage Legacy_loadConfig_registered.
  cbv zeta.
  eapply wp_seq;
    [ eapply wp_mono;
      [ eapply wp_conj;
        [ eapply (stage_step _ 1 2);
          [ eassumption | lia
          | apply (Legacy_loadVideos_stage env _ _ _ (config_json env)) ]
        | eapply Legacy_loadVideos_registered; eassumption ]
      | cbv beta; intros ? ? Hboth; exact Hboth
      | cbv beta; intros ? [Hs ?]; split;
        [assumption | eapply staged_numbered; [exact Hs | lia]] ]
    | cbv beta; intros ? ? [[? ?] ?]; subst ].
  unfold Legacy.pipeline. cbv zeta.
  registered_stage 2%nat Legacy_prepareDir_stage Legacy_prepareDir_registered.
  registered_stage 3%nat Legacy_loadFont_stage Legacy_loadFont_registered.
  registered_stage 4%nat Legacy_generateFrames_stage
    Legacy_generateFrames_registered.
  registered_stage 5%nat Legacy_createFileList_stage
    Legacy_createFileList_registered.
  unfold Legacy.appendFileList at 1.
  registered_end Legacy_appendFileList_registered append_all_numbered
    Legacy_mergeVideos_registered Legacy_mergeVideos_numbered.
Qed.

Lemma ran_app (a b : list Event) : ran (a ++ b) = (ran a ++ ran b)%list.
Proof. unfold ran. apply flat_map_app. Qed.

Lemma ran_map_Ran (ds : list Deferred) : ran (map Ran ds) = ds.
Proof. induction ds as [|d ds IH]; simpl; [reflexivity | now rewrite IH]. Qed.

Lemma ran_staged (dir temp output : string) (rate : Z) (k n : nat)
    (tr : list Event) :
  staged (stage_event dir temp output rate) k n tr -> ran tr = [].
Proof.
  intros Hst. assert (H : Forall (fun e => ran [e] = []) tr).
  { apply Forall_forall. intros e Hin.
    destruct (staged_In _ _ _ _ _ Hst Hin) as (j & Hj).
    destruct e; [reflexivity | reflexivity | destruct Hj]. }
  clear Hst. induction H as [|e tr He _ IH]; [reflexivity|].
  change (e :: tr) with ([e] ++ tr)%list. now rewrite ran_app, He, IH.
Qed.

Lemma exec_ran (body : M unit) (fs : list string)
    (dir temp output : string) (rate : Z) :
  wp body
     (fun _ w' => staged (stage_event dir temp output rate) 0 8 (trace w'))
     (fun w' => staged (stage_event dir temp output rate) 0 8 (trace w'))
     (start fs) ->
  ran (trace (exec body (start fs))) = deferred (snd (body (start fs))).
Proof.
  intros H. apply wp_both in H. unfold exec. cbv zeta.
  now rewrite run_deferred_trace, ran_app, ran_map_Ran, (ran_staged _ _ _ _ _ _ _ H).
Qed.

Lemma exec_registered (body : M unit) (fs : list string)
    (dir temp : string) (list_cleanup : list Deferred) :
  registered dir temp list_cleanup (snd (body (start fs)))
  /\ numbered (trace (snd (body (start fs)))) ->
  deferred (snd (body (start fs)))
  = cleanup_of dir temp list_cleanup (trace (exec body (start fs)))
  /\ numbered (trace (exec body (start fs))).
Proof.
  intros [Hr Hn]. unfold exec, numbered. cbv zeta.
  now rewrite run_deferred_trace, cleanup_of_Ran, clips_made_Ran.
Qed.

(** X10: the deferred calls that a run executes, on every exit path,
    are given by the calls of the run that succeeded: first the removal
    of every clip that [ffmpeg] made, the latest first; then, if the
    file list was created, its two calls -- closed and then removed in
    [video_merger.go], removed and then closed in the earlier revision;
    and last, if the frame directory was made, its removal.  Nothing
    else is executed, and the clips made are those of the transitions
    1, ..., k, in order, k being their number. *)
Theorem cleanup_runs_in_order (env : Env) (fs : list string) :
  let dir := IntermediateTextDir (Dest (config_json env)) in
  let run := trace (exec (VideoMerger.main env) (start fs)) in
  let earlier := trace (exec (Legacy.main env) (start fs)) in
  (ran run
   = cleanup_of dir (temp_name env)
       [Close (temp_name env); Remove (temp_name env)] run
   /\ numbered run)
  /\ (ran earlier
      = cleanup_of dir "filelist.txt"
          [Remove "filelist.txt"; Close "filelist.txt"] earlier
      /\ numbered earlier).
Proof.
  intros dir run earlier. split.
  - unfold run.
    rewrite (exec_ran _ _ _ _ _ _ (VM_main_staged env (start fs) eq_refl)).
    apply exec_registered.
    apply (wp_both (VideoMerger.main env)
             (fun w' =>
                registered dir (temp_name env)
                  [Close (temp_name env); Remove (temp_name env)] w'
                /\ numbered (trace w'))).
    now apply VM_main_registered.
  - unfold earlier.
    rewrite (exec_ran _ _ _ _ _ _ (Legacy_main_staged env (start fs) eq_refl)).
    apply exec_registered.
    apply (wp_both (Legacy.main env)
             (fun w' =>
                registered dir "filelist.txt"
                  [Remove "filelist.txt"; Close "filelist.txt"] w'
                /\ numbered (trace w'))).
    now apply Legacy_main_registered.
Qed.

Example cleanup_of_early_stops :
  let stops_at n :=
    ran (trace (exec (VideoMerger.main
                        (two_videos_env (fun k => if (k =? n)%nat
                                                  then Some "denied" else None)))
                     (start []))) in
  stops_at 2%nat = []
  /\ stops_at 3%nat = [RemoveAll "frames"]
  /\ stops_at 7%nat
     = [ Close "/tmp/filelist_42.txt"; Remove "/tmp/filelist_42.txt";
         RemoveAll "frames" ].
Proof. vm_compute. repeat split. Qed.

Example cleanup_of_a_failed_write :
  ran (trace (exec (VideoMerger.main
                      (two_videos_env (fun k => if (k =? 9)%nat
                                                then Some "disk full" else None)))
                   (start [])))
  = [ Remove "text_transition_1.mp4"; Close "/tmp/filelist_42.txt";
      Remove "/tmp/filelist_42.txt"; RemoveAll "frames" ].
Proof. vm_compute. reflexivity. Qed.

(** ** What a run has done when it reaches a stage *)

Lemma initial_segment_refl {T} (a : list T) : initial_segment a a.
Proof. exists []. now rewrite app_nil_r. Qed.

Lemma initial_segment_nil {T} (a : list T) : initial_segment [] a.
Proof. now exists a. Qed.

Lemma initial_segment_app {T} (a p b c : list T) :
  initial_segment p b -> initial_segment (a ++ p) (a ++ b ++ c).
Proof. intros (r & ->). exists (r ++ c)%list. now rewrite <- !app_assoc. Qed.

(** A loop whose rounds each extend an observation of the world, and
    extend it by a part of their share when they stop early, extends
    it by the shares of all rounds, or by a part of them. *)
Lemma wp_range_segment {T U} (obs : World -> list U) (g : T -> list U)
    (l : list T) (body : T -> M unit) :
  (forall x w, In x l ->
     wp (body x) (fun _ w' => obs w' = (obs w ++ g x)%list)
        (fun w' => exists p, initial_segment p (g x)
                             /\ obs w' = (obs w ++ p)%list) w) ->
  forall w,
    wp (range l body)
       (fun _ w' => obs w' = (obs w ++ flat_map g l)%list)
       (fun w' => exists p, initial_segment p (flat_map g l)
                            /\ obs w' = (obs w ++ p)%list) w.
Proof.
  induction l as [|x l IH]; intros Hbody w; simpl.
  - unfold wp, ret. now rewrite app_nil_r.
  - apply wp_bind. eapply wp_mono; [apply Hbody; now left | |]; cbv beta.
    + intros u w' Hw'. eapply wp_mono;
        [apply IH; intros y w0 Hy; apply Hbody; now right | |]; cbv beta.
      * intros u' w'' Hw''. now rewrite Hw'', Hw', <- app_assoc.
      * intros w'' (p & Hp & Hw''). exists (g x ++ p)%list. split.
        -- destruct Hp as (r & ->). exists r. now rewrite <- app_assoc.
        -- now rewrite Hw'', Hw', <- app_assoc.
    + intros w' (p & (r & Hr) & Hw'). exists p. split; [|exact Hw'].
      exists (r ++ flat_map g l)%list. now rewrite Hr, <- app_assoc.
Qed.

Section Segments.

Variable env : Env.

Lemma save_frames_segment (dir : string) (n i : Z) (img : Image) (w : World) :
  wp (range (upto n) (fun j =>
        err <- call env (SavePNG (framePath dir i j) img) ;;
        if_err err (fun e =>
          Print ("Error saving frame: " ++ e ++ nl) ;; return_)))
     (fun _ w' =>
        saved (trace w')
        = (saved (trace w) ++ map (fun j => (framePath dir i j, img)) (upto n))%list)
     (fun w' =>
        exists p,
          initial_segment p (map (fun j => (framePath dir i j, img)) (upto n))
          /\ saved (trace w') = (saved (trace w) ++ p)%list) w.
Proof.
  rewrite <- (flat_map_single (fun j => (framePath dir i j, img))).
  apply (wp_range_segment (fun w => saved (trace w))).
  intros j w0 _. run_calls.
  - exists []. split; [apply initial_segment_nil|].
    rewrite !saved_snoc. simpl. now rewrite !app_nil_r.
  - now rewrite saved_snoc.
Qed.

Lemma VM_generateFrames_segment (config : Config) (videos : list string)
    (face : Face) (textColor bgColor : RGBA) (w : World) :
  let frames :=
    flat_map
      (transition_frames (IntermediateTextDir (Dest config))
         (VideoMerger.numFrames config)
         (fun video =>
            VideoMerger.draw config face textColor bgColor
              (VideoMerger.transitionText video)))
      (tl (indexed videos)) in
  wp (VideoMerger.generateFrames env config videos face textColor bgColor)
     (fun _ w' => saved (trace w') = (saved (trace w) ++ frames)%list)
     (fun w' => exists p, initial_segment p frames
                          /\ saved (trace w') = (saved (trace w) ++ p)%list) w.
Proof.
  unfold VideoMerger.generateFrames.
  set (tf := transition_frames _ _ _). cbv zeta.
  rewrite <- (skip_first_frames
                (fun iv => if fst iv =? 0 then [] else tf iv) tf).
  - apply (wp_range_segment (fun w => saved (trace w))).
    intros [i video] w0 _. simpl fst. destruct (i =? 0).
    + unfold wp, ret. now rewrite app_nil_r.
    + apply save_frames_segment.
  - reflexivity.
  - intros i video Hi. simpl fst.
    destruct (i =? 0) eqn:E; [apply Z.eqb_eq in E; lia | reflexivity].
Qed.

Lemma Legacy_generateFrames_segment (dir : string)
    (frameWidth frameHeight frameRate textDuration : Z)
    (videos : list string) (face : Face) (textColor bgColor : RGBA)
    (w : World) :
  let frames :=
    flat_map
      (transition_frames dir (int_mul frameRate textDuration)
         (fun video =>
            Legacy.draw frameWidth frameHeight face textColor bgColor
              (Legacy.transitionText video)))
      (tl (indexed videos)) in
  wp (Legacy.generateFrames env dir frameWidth frameHeight frameRate
        textDuration videos face textColor bgColor)
     (fun _ w' => saved (trace w') = (saved (trace w) ++ frames)%list)
     (fun w' => exists p, initial_segment p frames
                          /\ saved (trace w') = (saved (trace w) ++ p)%list) w.
Proof.
  unfold Legacy.generateFrames.
  set (tf := transition_frames _ _ _). cbv zeta.
  rewrite <- (skip_first_frames
                (fun iv => if 0 <? fst iv then tf iv else []) tf).
  - apply (wp_range_segment (fun w => saved (trace w))).
    intros [i video] w0 _. simpl fst. destruct (0 <? i).
    + apply save_frames_segment.
    + unfold wp, ret. now rewrite app_nil_r.
  - reflexivity.
  - intros i video Hi. simpl fst.
    destruct (0 <? i) eqn:E; [reflexivity | apply Z.ltb_ge in E; lia].
Qed.

End Segments.

Section Quiet.

Variables dir temp output : string.
Variable rate : Z.

Lemma extends_saved (k : nat) (tr tr' : list Event) :
  k <> 4%nat -> extends (stage_event dir temp output rate k) tr tr' ->
  saved tr' = saved tr.
Proof.
  intros Hk (evs & -> & Hevs). unfold saved. rewrite flat_map_app.
  rewrite (flat_map_none _ evs); [apply app_nil_r|].
  eapply Forall_impl; [|exact Hevs]. intros [op [e|]|s|d] He; try reflexivity.
  all: unfold stage_event in He; inversion He; subst; try reflexivity;
    now elim Hk.
Qed.

Lemma extends_written (k : nat) (tr tr' : list Event) :
  k <> 6%nat -> extends (stage_event dir temp output rate k) tr tr' ->
  written temp tr' = written temp tr.
Proof.
  intros Hk (evs & -> & Hevs). unfold written. rewrite flat_map_app.
  rewrite (flat_map_none _ evs); [apply app_nil_r|].
  eapply Forall_impl; [|exact Hevs]. intros [op [e|]|s|d] He; try reflexivity.
  all: unfold stage_event in He; inversion He; subst; try reflexivity;
    now elim Hk.
Qed.

Lemma extends_not_late (k : nat) (tr tr' : list Event) :
  (k <= 4)%nat -> extends (stage_event dir temp output rate k) tr tr' ->
  ~ has_late tr -> ~ has_late tr'.
Proof.
  intros Hk (evs & -> & Hevs) Hno (op & err & Hin & Hlate).
  apply in_app_or in Hin. destruct Hin as [Hin|Hin].
  - apply Hno. now exists op, err.
  - rewrite Forall_forall in Hevs. apply Hevs in Hin. unfold stage_event in Hin.
    inversion Hin; subst; simpl in Hlate; try contradiction; lia.
Qed.

Lemma extends_no_concat (k : nat) (tr tr' : list Event) :
  k <> 7%nat -> extends (stage_event dir temp output rate k) tr tr' ->
  (forall err, ~ In (Call (Run (concat_cmd temp output)) err) tr) ->
  forall err, ~ In (Call (Run (concat_cmd temp output)) err) tr'.
Proof.
  intros Hk (evs & -> & Hevs) Hno err Hin.
  apply in_app_or in Hin. destruct Hin as [Hin|Hin].
  - now apply (Hno err).
  - rewrite Forall_forall in Hevs. apply Hevs in Hin. unfold stage_event in Hin.
    inversion Hin; subst;
      first [ now elim Hk
            | eapply concat_cmd_not_encode; symmetry; eassumption ].
Qed.

Variable frames : list (string * Image).
Variable videos : list string.

Lemma progress_quiet (k : nat) (tr tr' : list Event) :
  (k <= 3)%nat \/ k = 5%nat ->
  progress frames temp output videos k tr ->
  extends (stage_event dir temp output rate k) tr tr' ->
  progress frames temp output videos (S k) tr'.
Proof.
  intros Hk (Hs & Hw & Hl & Hc) He. repeat split.
  - rewrite (extends_saved k tr tr') by (lia || exact He). rewrite Hs.
    destruct Hk as [Hk| ->]; [|reflexivity].
    now rewrite !(proj2 (Nat.leb_le _ _)) by lia.
  - rewrite (extends_written k tr tr') by (lia || exact He). rewrite Hw.
    now rewrite !(proj2 (Nat.leb_le _ _)) by lia.
  - intros Hk'. eapply extends_not_late; [|exact He|apply Hl]; lia.
  - intros _. eapply extends_no_concat; [|exact He|apply Hc]; lia.
Qed.

Lemma progress_frames (tr tr' : list Event) :
  progress frames temp output videos 4 tr ->
  extends (stage_event dir temp output rate 4) tr tr' ->
  saved tr' = (saved tr ++ frames)%list ->
  progress frames temp output videos 5 tr'.
Proof.
  intros (Hs & Hw & Hl & Hc) He Hf. repeat split.
  - rewrite Hf, Hs. reflexivity.
  - rewrite (extends_written 4 tr tr') by (lia || exact He). exact Hw.
  - intros _. eapply extends_not_late; [|exact He|apply Hl]; lia.
  - intros _. eapply extends_no_concat; [|exact He|apply Hc]; lia.
Qed.

Lemma progress_lines (tr tr' : list Event) :
  progress frames temp output videos 6 tr ->
  extends (stage_event dir temp output rate 6) tr tr' ->
  written temp tr' = (written temp tr ++ file_list videos)%list ->
  progress frames temp output videos 7 tr'.
Proof.
  intros (Hs & Hw & Hl & Hc) He Hf. repeat split.
  - rewrite (extends_saved 6 tr tr') by (lia || exact He). exact Hs.
  - rewrite Hf, Hw. reflexivity.
  - intros Hk. lia.
  - intros _. eapply extends_no_concat; [|exact He|apply Hc]; lia.
Qed.

Lemma progress_stop (k : nat) (tr tr' : list Event) :
  (k <= 6)%nat -> k <> 4%nat ->
  progress frames temp output videos k tr ->
  extends (stage_event dir temp output rate k) tr tr' ->
  in_order frames temp output videos tr'.
Proof.
  intros Hk Hk4 (Hs & Hw & Hl & Hc) He.
  assert (Hs' : saved tr' = if (k <=? 4)%nat then [] else frames).
  { rewrite (extends_saved k tr tr') by (lia || exact He). exact Hs. }
  split; [|split].
  - intros Hlate. destruct (Nat.le_gt_cases k 4) as [H4|H4].
    + exfalso. revert Hlate. eapply extends_not_late; [|exact He|apply Hl]; lia.
    + rewrite Hs'. now rewrite (proj2 (Nat.leb_gt _ _)) by lia.
  - intros err Hin. exfalso. revert Hin.
    eapply extends_no_concat; [|exact He|apply Hc]; lia.
  - rewrite Hs'. destruct (k <=? 4)%nat;
      [apply initial_segment_nil | apply initial_segment_refl].
Qed.

Lemma progress_stop_frames (tr tr' : list Event) :
  progress frames temp output videos 4 tr ->
  extends (stage_event dir temp output rate 4) tr tr' ->
  (exists p, initial_segment p frames /\ saved tr' = (saved tr ++ p)%list) ->
  in_order frames temp output videos tr'.
Proof.
  intros (Hs & Hw & Hl & Hc) He (p & Hp & Hs'). split; [|split].
  - intros Hlate. exfalso. revert Hlate.
    eapply extends_not_late; [|exact He|apply Hl]; lia.
  - intros err Hin. exfalso. revert Hin.
    eapply extends_no_concat; [|exact He|apply Hc]; lia.
  - rewrite Hs', Hs. exact Hp.
Qed.

Lemma progress_merged (tr tr' : list Event) :
  progress frames temp output videos 7 tr ->
  extends (stage_event dir temp output rate 7) tr tr' ->
  (forall err, In (Call (Run (concat_cmd temp output)) err) tr' ->
               In (Call (Sync temp) None) tr') ->
  in_order frames temp output videos tr'
  /\ (In (Call (Run (concat_cmd temp output)) None) tr' ->
      all_done frames temp output videos tr').
Proof.
  intros (Hs & Hw & _ & _) He Hsync.
  assert (Hs' : saved tr' = frames).
  { rewrite (extends_saved 7 tr tr') by (lia || exact He). exact Hs. }
  assert (Hw' : written temp tr' = file_list videos).
  { rewrite (extends_written 7 tr tr') by (lia || exact He). exact Hw. }
  repeat split; auto; try (eapply Hsync; eassumption).
  rewrite Hs'. apply initial_segment_refl.
Qed.

(** A stage that saves no frame and writes no line. *)
Lemma quiet_step {U} (k : nat) (m : M U) (V : U -> Prop) (T R : Prop)
    (w : World) :
  (k <= 3)%nat \/ k = 5%nat ->
  progress frames temp output videos k (trace w) ->
  wp m (fun x w' => V x /\ extends (stage_event dir temp output rate k)
                              (trace w) (trace w'))
       (fun w' => T /\ extends (stage_event dir temp output rate k)
                         (trace w) (trace w')) w ->
  (T -> R) ->
  wp m (fun x w' => V x /\ progress frames temp output videos (S k) (trace w'))
       (fun w' => R /\ in_order frames temp output videos (trace w')) w.
Proof.
  intros Hk Hp Hm HR. eapply wp_mono; [exact Hm | |]; cbv beta.
  - intros x w' [HV He]. split; [exact HV|]. eapply progress_quiet; eassumption.
  - intros w' [HT He]. split; [auto|].
    eapply (progress_stop k); [lia | lia | exact Hp | exact He].
Qed.

(** The stage that saves the frames. *)
Lemma frames_step (m : M unit) (T R : Prop) (w : World) :
  progress frames temp output videos 4 (trace w) ->
  wp m (fun _ w' => True /\ extends (stage_event dir temp output rate 4)
                              (trace w) (trace w'))
       (fun w' => T /\ extends (stage_event dir temp output rate 4)
                         (trace w) (trace w')) w ->
  wp m (fun _ w' => saved (trace w') = (saved (trace w) ++ frames)%list)
       (fun w' => exists p, initial_segment p frames
                            /\ saved (trace w') = (saved (trace w) ++ p)%list)
       w ->
  (T -> R) ->
  wp m (fun _ w' => progress frames temp output videos 5 (trace w'))
       (fun w' => R /\ in_order frames temp output videos (trace w')) w.
Proof.
  intros Hp Hm Hf HR. eapply wp_mono; [exact (wp_conj _ _ _ _ _ _ Hm Hf) | |];
    cbv beta.
  - intros x w' [[_ He] Hs]. eapply progress_frames; eassumption.
  - intros w' [[HT He] Hs]. split; [auto|].
    eapply progress_stop_frames; eassumption.
Qed.

(** The stage that writes the lines of the file list. *)
Lemma lines_step (m : M unit) (T T' R : Prop) (w : World) :
  progress frames temp output videos 6 (trace w) ->
  wp m (fun _ w' => True /\ extends (stage_event dir temp output rate 6)
                              (trace w) (trace w'))
       (fun w' => T /\ extends (stage_event dir temp output rate 6)
                         (trace w) (trace w')) w ->
  wp m (fun _ w' => written temp (trace w')
                    = (written temp (trace w) ++ file_list videos)%list)
       (fun _ => T') w ->
  (T -> R) ->
  wp m (fun _ w' => progress frames temp output videos 7 (trace w'))
       (fun w' => R /\ in_order frames temp output videos (trace w')) w.
Proof.
  intros Hp Hm Hf HR. eapply wp_mono; [exact (wp_conj _ _ _ _ _ _ Hm Hf) | |];
    cbv beta.
  - intros x w' [[_ He] Hs]. eapply progress_lines; eassumption.
  - intros w' [[HT He] _]. split; [auto|].
    eapply (progress_stop 6); [lia | lia | exact Hp | exact He].
Qed.

(** The last stage. *)
Lemma merge_step (m : M unit) (T R : Prop) (w : World) :
  progress frames temp output videos 7 (trace w) ->
  wp m (fun _ w' => True /\ extends (stage_event dir temp output rate 7)
                              (trace w) (trace w'))
       (fun w' => T /\ extends (stage_event dir temp output rate 7)
                         (trace w) (trace w')) w ->
  wp m (fun _ w' =>
          In (Call (Run (concat_cmd temp output)) None) (trace w')
          /\ In (Call (Sync temp) None) (trace w'))
       (fun w' =>
          forall err, In (Call (Run (concat_cmd temp output)) err) (trace w') ->
                      In (Call (Sync temp) None) (trace w')) w ->
  (T -> R) ->
  wp m (fun _ w' => all_done frames temp output videos (trace w')
                    /\ in_order frames temp output videos (trace w'))
       (fun w' => R /\ in_order frames temp output videos (trace w')) w.
Proof.
  intros Hp Hm Hf HR. eapply wp_mono; [exact (wp_conj _ _ _ _ _ _ Hm Hf) | |];
    cbv beta.
  - intros x w' [[_ He] [Hc Hs]].
    destruct (progress_merged _ _ Hp He) as [Hord Hdone]; auto.
  - intros w' [[HT He] Hs]. split; [auto|].
    now destruct (progress_merged _ _ Hp He Hs).
Qed.

End Quiet.

Section Merge.

Variable env : Env.

Lemma VM_mergeVideos_concat (temp output : string) (w : World) :
  (forall err, ~ In (Call (Run (concat_cmd temp output)) err) (trace w)) ->
  wp (VideoMerger.mergeVideos env temp output)
     (fun _ w' =>
        In (Call (Run (concat_cmd temp output)) None) (trace w')
        /\ In (Call (Sync temp) None) (trace w'))
     (fun w' =>
        forall err, In (Call (Run (concat_cmd temp output)) err) (trace w') ->
                    In (Call (Sync temp) None) (trace w')) w.
Proof.
  intros Hno. unfold VideoMerger.mergeVideos. run_calls;
    try intros err Hin; rewrite ?in_app_iff in *; cbn [In] in *;
    intuition (try discriminate; try (exfalso; eapply Hno; eassumption)).
Qed.

Lemma Legacy_mergeVideos_concat (temp output : string) (w : World) :
  (forall err, ~ In (Call (Run (concat_cmd temp output)) err) (trace w)) ->
  wp (Legacy.mergeVideos env temp output)
     (fun _ w' =>
        In (Call (Run (concat_cmd temp output)) None) (trace w')
        /\ In (Call (Sync temp) None) (trace w'))
     (fun w' =>
        forall err, In (Call (Run (concat_cmd temp output)) err) (trace w') ->
                    In (Call (Sync temp) None) (trace w')) w.
Proof.
  intros Hno. unfold Legacy.mergeVideos. run_calls;
    try intros err Hin; rewrite ?in_app_iff in *; cbn [In] in *;
    intuition (try discriminate; try (exfalso; eapply Hno; eassumption)).
Qed.

End Merge.

Lemma progress_start (frames : list (string * Image)) (temp output : string)
    (videos : list string) : progress frames temp output videos 0 [].
Proof.
  repeat split; try reflexivity.
  - intros _ (op & err & [] & _).
  - intros _ err [].
Qed.

(** Run a stage of [main] that saves no frame and writes no line. *)
Ltac quiet D R K L :=
  eapply wp_seq;
  [ eapply (quiet_step D _ _ R _ _ K);
    [ lia | eassumption | eapply L; reflexivity | tauto ]
  | cbv beta; intros ? ? [? ?]; subst ].

Ltac no_concat :=
  match goal with
  | H : progress _ _ _ _ 7 _ |- _ => exact (proj2 (proj2 (proj2 H)) (le_n 7))
  end.

Lemma VM_main_progress (env : Env) (w : World) :
  trace w = [] ->
  let config := config_json env in
  let temp := temp_name env in
  let output := VideoMerger.outputPath env config in
  let videos := VideoMerger_resolved env config in
  let frames := VideoMerger_frames env in
  wp (VideoMerger.main env)
     (fun _ w' => all_done frames temp output videos (trace w')
                  /\ in_order frames temp output videos (trace w'))
     (fun w' => (~ all_succeed env \/ scan_fails env config)
                /\ in_order frames temp output videos (trace w')) w.
Proof.
  intros Hw config temp output videos frames.
  pose (dir := IntermediateTextDir (Dest config)).
  pose (rate := Rate (Frame config)).
  assert (H0 : progress frames temp output videos 0 (trace w))
    by (rewrite Hw; apply progress_start).
  unfold VideoMerger.main.
  eapply wp_seq;
    [ eapply (quiet_step dir _ _ rate _ _ 0);
      [ lia | exact H0 | apply VM_loadConfig_stage | tauto ]
    | cbv beta; intros ? ? [? ?]; subst ].
  quiet dir rate 1%nat VM_loadVideos_stage. unfold VideoMerger.pipeline.
  quiet dir rate 2%nat VM_prepareDir_stage.
  quiet dir rate 3%nat VM_loadFont_stage.
  eapply wp_seq;
    [ eapply (frames_step dir _ _ rate);
      [ eassumption | eapply VM_generateFrames_stage; reflexivity
      | apply VM_generateFrames_segment | tauto ]
    | cbv beta; intros ? ? ? ].
  quiet dir rate 5%nat VM_createFileList_stage.
  eapply wp_seq;
    [ eapply (lines_step dir _ _ rate);
      [ eassumption | eapply VM_appendFileList_stage; reflexivity
      | apply VM_appendFileList_written | tauto ]
    | cbv beta; intros ? ? ? ].
  eapply (merge_step dir _ _ rate);
    [ eassumption | apply VM_mergeVideos_stage
    | apply VM_mergeVideos_concat; no_concat | tauto ].
Qed.

Lemma Legacy_main_progress (env : Env) (w : World) :
  trace w = [] ->
  let config := config_json env in
  let output := Legacy.outputPath env config in
  let videos := Legacy_resolved env config in
  let frames := Legacy_frames env in
  wp (Legacy.main env)
     (fun _ w' => all_done frames "filelist.txt" output videos (trace w')
                  /\ in_order frames "filelist.txt" output videos (trace w'))
     (fun w' => (~ all_succeed env \/ scan_fails env config)
                /\ in_order frames "filelist.txt" output videos (trace w')) w.
Proof.
  intros Hw config output videos frames.
  pose (dir := IntermediateTextDir (Dest config)).
  pose (rate := Rate (Frame config)).
  assert (H0 : progress frames "filelist.txt" output videos 0 (trace w))
    by (rewrite Hw; apply progress_start).
  unfold Legacy.main.
  eapply wp_seq;
    [ eapply (quiet_step dir _ _ rate _ _ 0);
      [ lia | exact H0 | apply Legacy_loadConfig_stage | tauto ]
    | cbv beta; intros ? ? [? ?]; subst ].
  cbv zeta.
  eapply wp_seq;
    [ eapply (quiet_step dir _ _ rate _ _ 1);
      [ lia | eassumption | apply (Legacy_loadVideos_stage env _ _ _ config)
      | tauto ]
    | cbv beta; intros ? ? [? ?]; subst ].
  unfold Legacy.pipeline. cbv zeta.
  quiet dir rate 2%nat Legacy_prepareDir_stage.
  quiet dir rate 3%nat Legacy_loadFont_stage.
  eapply wp_seq;
    [ eapply (frames_step dir _ _ rate);
      [ eassumption | eapply Legacy_generateFrames_stage
      | apply Legacy_generateFrames_segment | tauto ]
    | cbv beta; intros ? ? ? ].
  quiet dir rate 5%nat Legacy_createFileList_stage.
  eapply wp_seq;
    [ eapply (lines_step dir _ _ rate);
      [ eassumption | eapply Legacy_appendFileList_stage
      | apply Legacy_appendFileList_written | tauto ]
    | cbv beta; intros ? ? ? ].
  eapply (merge_step dir _ _ rate);
    [ eassumption | apply Legacy_mergeVideos_stage
    | apply Legacy_mergeVideos_concat; no_concat | tauto ].
Qed.

(** ** The whole run *)

Lemma saved_Ran (tr : list Event) (ds : list Deferred) :
  saved (tr ++ map Ran ds) = saved tr.
Proof.
  unfold saved. rewrite flat_map_app, (flat_map_none _ (map Ran ds)).
  - apply app_nil_r.
  - apply Forall_forall. intros e He. apply in_map_iff in He.
    now destruct He as (d & <- & _).
Qed.

Lemma written_Ran (file : string) (tr : list Event) (ds : list Deferred) :
  written file (tr ++ map Ran ds) = written file tr.
Proof.
  unfold written. rewrite flat_map_app, (flat_map_none _ (map Ran ds)).
  - apply app_nil_r.
  - apply Forall_forall. intros e He. apply in_map_iff in He.
    now destruct He as (d & <- & _).
Qed.

Lemma In_Call_Ran (op : Op) (err : option error) (tr : list Event)
    (ds : list Deferred) :
  In (Call op err) (tr ++ map Ran ds) <-> In (Call op err) tr.
Proof.
  rewrite in_app_iff. split; [|now left]. intros [H|H]; [exact H|].
  apply in_map_iff in H. now destruct H as (d & [=] & _).
Qed.

Lemma all_done_Ran (frames : list (string * Image)) (temp output : string)
    (videos : list string) (tr : list Event) (ds : list Deferred) :
  all_done frames temp output videos tr ->
  all_done frames temp output videos (tr ++ map Ran ds).
Proof.
  intros (Hs & Hw & Hc). unfold all_done.
  now rewrite saved_Ran, written_Ran, In_Call_Ran.
Qed.

Lemma in_order_Ran (frames : list (string * Image)) (temp output : string)
    (videos : list string) (tr : list Event) (ds : list Deferred) :
  in_order frames temp output videos tr ->
  in_order frames temp output videos (tr ++ map Ran ds).
Proof.
  intros (Hl & Hc & Hp). split; [|split].
  - intros (op & err & Hin & Hop). rewrite saved_Ran. apply Hl.
    exists op, err. now rewrite In_Call_Ran in Hin.
  - intros err Hin. rewrite written_Ran, In_Call_Ran.
    apply (Hc err). now rewrite In_Call_Ran in Hin.
  - now rewrite saved_Ran.
Qed.

Lemma exec_completes (body : M unit) (fs : list string)
    (Q : World -> Prop) (R : Prop) (N : World -> Prop) :
  ~ R ->
  wp body (fun _ w' => Q w') (fun w' => R /\ N w') (start fs) ->
  fst (body (start fs)) = Some tt.
Proof.
  intros HR. unfold wp.
  destruct (body (start fs)) as [[[]|] w']; cbn [fst snd].
  - reflexivity.
  - intros [HR' _]. contradiction.
Qed.

Lemma exec_all_done (body : M unit) (fs : list string)
    (frames : list (string * Image)) (temp output : string)
    (videos : list string) (N : World -> Prop) :
  wp body
     (fun _ w' => all_done frames temp output videos (trace w')
                  /\ in_order frames temp output videos (trace w'))
     N (start fs) ->
  fst (body (start fs)) = Some tt ->
  all_done frames temp output videos (trace (exec body (start fs))).
Proof.
  unfold wp, exec. cbv zeta. rewrite run_deferred_trace.
  destruct (body (start fs)) as [[[]|] w']; cbn [fst snd].
  - intros [Hd _] _. now apply all_done_Ran.
  - discriminate.
Qed.

Lemma exec_in_order (body : M unit) (fs : list string)
    (frames : list (string * Image)) (temp output : string)
    (videos : list string) (R : Prop) :
  wp body
     (fun _ w' => all_done frames temp output videos (trace w')
                  /\ in_order frames temp output videos (trace w'))
     (fun w' => R /\ in_order frames temp output videos (trace w'))
     (start fs) ->
  in_order frames temp output videos (trace (exec body (start fs))).
Proof.
  unfold wp, exec. cbv zeta. rewrite run_deferred_trace.
  destruct (body (start fs)) as [[[]|] w']; cbn [fst snd];
    intros [_ Ho]; now apply in_order_Ran.
Qed.

(** X11: when every call succeeds and the scan of [./source], if it is
    needed, meets no error, [main] runs to its end in both revisions:
    nothing but a failed call or a failed scan makes it return
    early. *)
Theorem main_runs_to_its_end (env : Env) (fs : list string) :
  all_succeed env -> ~ scan_fails env (config_json env) ->
  fst (VideoMerger.main env (start fs)) = Some tt
  /\ fst (Legacy.main env (start fs)) = Some tt.
Proof.
  intros Hall Hscan. split.
  - eapply exec_completes; [|now apply VM_main_progress]. tauto.
  - eapply exec_completes; [|now apply Legacy_main_progress]. tauto.
Qed.

Lemma main_runs_to_its_end_witness :
  fst (VideoMerger.main (two_videos_env succeed) (start [])) = Some tt
  /\ fst (Legacy.main (two_videos_env succeed) (start [])) = Some tt.
Proof.
  apply (main_runs_to_its_end (two_videos_env succeed) []).
  - intros k. reflexivity.
  - intros [H _]. discriminate H.
Defined.

(** X12: a run of [main] that reaches its end has, in both revisions,
    saved exactly the frames of every transition, written to the file
    list exactly the lines of the videos it resolved, and run the
    concatenation of that list into the output path with success. *)
Theorem finished_run_has_merged (env : Env) (fs : list string) :
  let config := config_json env in
  (fst (VideoMerger.main env (start fs)) = Some tt ->
   all_done (VideoMerger_frames env) (temp_name env)
     (VideoMerger.outputPath env config) (VideoMerger_resolved env config)
     (trace (exec (VideoMerger.main env) (start fs))))
  /\ (fst (Legacy.main env (start fs)) = Some tt ->
      all_done (Legacy_frames env) "filelist.txt"
        (Legacy.outputPath env config) (Legacy_resolved env config)
        (trace (exec (Legacy.main env) (start fs)))).
Proof.
  intros config. split.
  - apply exec_all_done with (1 := VM_main_progress env (start fs) eq_refl).
  - apply exec_all_done with (1 := Legacy_main_progress env (start fs) eq_refl).
Qed.

Lemma finished_run_has_merged_witness :
  let env := two_videos_env succeed in
  let config := config_json env in
  all_done (VideoMerger_frames env) (temp_name env)
    (VideoMerger.outputPath env config) (VideoMerger_resolved env config)
    (trace (exec (VideoMerger.main env) (start [])))
  /\ all_done (Legacy_frames env) "filelist.txt"
       (Legacy.outputPath env config) (Legacy_resolved env config)
       (trace (exec (Legacy.main env) (start []))).
Proof.
  intros env config.
  destruct (finished_run_has_merged env []) as [H1 H2].
  split; [apply H1 | apply H2]; vm_compute; reflexivity.
Defined.

(** X13: in every run of either revision, whatever fails, the file
    list is created, written or synced and [ffmpeg] is run only once
    every frame of every transition has been saved with success. *)
Theorem frames_before_file_list (env : Env) (fs : list string)
    (op : Op) (err : option error) :
  late op ->
  (In (Call op err) (trace (exec (VideoMerger.main env) (start fs))) ->
   saved (trace (exec (VideoMerger.main env) (start fs)))
   = VideoMerger_frames env)
  /\ (In (Call op err) (trace (exec (Legacy.main env) (start fs))) ->
      saved (trace (exec (Legacy.main env) (start fs))) = Legacy_frames env).
Proof.
  intros Hop. split; intros Hin.
  - refine (proj1 (exec_in_order _ fs _ _ _ _ _
                     (VM_main_progress env (start fs) eq_refl)) _).
    now exists op, err.
  - refine (proj1 (exec_in_order _ fs _ _ _ _ _
                     (Legacy_main_progress env (start fs) eq_refl)) _).
    now exists op, err.
Qed.

Lemma frames_before_file_list_witness :
  let env := two_videos_env concat_fails in
  saved (trace (exec (VideoMerger.main env) (start [])))
  = VideoMerger_frames env
  /\ saved (trace (exec (Legacy.main env) (start []))) = Legacy_frames env.
Proof.
  intros env.
  destruct (frames_before_file_list env [] (Sync (temp_name env)) None I)
    as [H1 _].
  destruct (frames_before_file_list env [] (Sync "filelist.txt") None I)
    as [_ H2].
  split; [apply H1 | apply H2]; vm_compute;
    repeat first [left; reflexivity | right].
Defined.

(** X14: in every run of either revision, whatever fails, [ffmpeg] is
    asked to concatenate the file list only when the list holds the
    line of every video and of every clip, each written with success,
    and was synced with success. *)
Theorem concat_only_on_complete_list (env : Env) (fs : list string)
    (err : option error) :
  let config := config_json env in
  (In (Call (Run (concat_cmd (temp_name env)
                    (VideoMerger.outputPath env config))) err)
      (trace (exec (VideoMerger.main env) (start fs))) ->
   written (temp_name env) (trace (exec (VideoMerger.main env) (start fs)))
   = file_list (VideoMerger_resolved env config)
   /\ In (Call (Sync (temp_name env)) None)
        (trace (exec (VideoMerger.main env) (start fs))))
  /\ (In (Call (Run (concat_cmd "filelist.txt"
                       (Legacy.outputPath env config))) err)
         (trace (exec (Legacy.main env) (start fs))) ->
      written "filelist.txt" (trace (exec (Legacy.main env) (start fs)))
      = file_list (Legacy_resolved env config)
      /\ In (Call (Sync "filelist.txt") None)
           (trace (exec (Legacy.main env) (start fs)))).
Proof.
  intros config. split.
  - apply (proj1 (proj2 (exec_in_order _ fs _ _ _ _ _
                             (VM_main_progress env (start fs) eq_refl)))).
  - apply (proj1 (proj2 (exec_in_order _ fs _ _ _ _ _
                             (Legacy_main_progress env (start fs) eq_refl)))).
Qed.

Lemma concat_only_on_complete_list_witness :
  let env := two_videos_env concat_fails in
  let config := config_json env in
  (written (temp_name env) (trace (exec (VideoMerger.main env) (start [])))
   = file_list (VideoMerger_resolved env config)
   /\ In (Call (Sync (temp_name env)) None)
        (trace (exec (VideoMerger.main env) (start []))))
  /\ (written "filelist.txt" (trace (exec (Legacy.main env) (start [])))
      = file_list (Legacy_resolved env config)
      /\ In (Call (Sync "filelist.txt") None)
           (trace (exec (Legacy.main env) (start [])))).
Proof.
  intros env config.
  destruct (concat_only_on_complete_list env [] (Some "exit status 1"))
    as [H1 H2].
  split; [apply H1 | apply H2]; vm_compute;
    repeat first [left; reflexivity | right].
Defined.

(** ** The names of the files of a run *)

Lemma string_of_uint_digits (d : Decimal.uint) :
  all_digits (NilEmpty.string_of_uint d).
Proof. induction d; simpl; constructor; auto. Qed.

Lemma digits_all_digits (n : Z) : all_digits (digits n).
Proof.
  unfold digits, NilZero.string_of_uint.
  destruct (N.to_uint (Z.to_N n)) eqn:E;
    try (rewrite <- E; apply string_of_uint_digits).
  repeat constructor.
Qed.

Lemma all_digits_app (a b : string) :
  all_digits a -> all_digits b -> all_digits (a ++ b).
Proof.
  unfold all_digits. induction a as [|c a IH]; simpl; [auto|].
  intros Ha Hb. inversion Ha; subst. constructor; auto.
Qed.

Lemma zeros_all_digits (k : nat) : all_digits (zeros k).
Proof. induction k; simpl; constructor; auto. Qed.

Lemma fmt_d_all_digits (i : Z) : 0 <= i -> all_digits (fmt_d i).
Proof.
  intros Hi. unfold fmt_d.
  destruct (i <? 0) eqn:E; [apply Z.ltb_lt in E; lia|]. apply digits_all_digits.
Qed.

Lemma fmt_0d_all_digits (w : nat) (j : Z) : 0 <= j -> all_digits (fmt_0d w j).
Proof.
  intros Hj. unfold fmt_0d.
  destruct (j <? 0) eqn:E; [apply Z.ltb_lt in E; lia|].
  apply all_digits_app; [apply zeros_all_digits | apply digits_all_digits].
Qed.

Lemma fmt_d_inj (i1 i2 : Z) : 0 <= i1 -> 0 <= i2 -> fmt_d i1 = fmt_d i2 -> i1 = i2.
Proof.
  intros H1 H2. unfold fmt_d.
  destruct (i1 <? 0) eqn:E1; [apply Z.ltb_lt in E1; lia|].
  destruct (i2 <? 0) eqn:E2; [apply Z.ltb_lt in E2; lia|].
  intros E. apply (f_equal decode) in E. rewrite !decode_digits in E.
  injection E as E. lia.
Qed.

(** Two numbers followed by one and the same byte that is no digit. *)
Lemma digits_then_sep (c : ascii) (a b x y : string) :
  is_digit c = false -> all_digits a -> all_digits b ->
  a ++ String c x = b ++ String c y -> a = b /\ x = y.
Proof.
  intros Hc. revert b. induction a as [|d a IH]; intros [|e b] Ha Hb E;
    simpl in E.
  - injection E as E. now split.
  - injection E as -> E. inversion Hb; subst. congruence.
  - injection E as -> E. inversion Ha; subst. congruence.
  - injection E as -> E. inversion Ha; subst. inversion Hb; subst.
    destruct (IH b) as [-> ->]; auto.
Qed.

Lemma framePath_inj_both (dir : string) (i1 j1 i2 j2 : Z) :
  0 <= i1 -> 0 <= j1 -> 0 <= i2 -> 0 <= j2 ->
  framePath dir i1 j1 = framePath dir i2 j2 -> i1 = i2 /\ j1 = j2.
Proof.
  intros Hi1 Hj1 Hi2 Hj2 E. unfold framePath in E.
  do 2 apply append_inj_l in E.
  apply (digits_then_sep "_") in E;
    [|reflexivity | now apply fmt_d_all_digits ..].
  destruct E as [Ei Ej]. apply fmt_d_inj in Ei; [|assumption ..].
  apply (append_inj_l "frame_") in Ej. apply append_inj_r in Ej.
  apply fmt_0d_inj in Ej; [|assumption ..]. now split.
Qed.

Lemma textVideo_inj (i1 i2 : Z) :
  0 <= i1 -> 0 <= i2 -> textVideo i1 = textVideo i2 -> i1 = i2.
Proof.
  intros H1 H2 E. unfold textVideo in E. apply append_inj_l in E.
  apply append_inj_r in E. now apply fmt_d_inj.
Qed.

Lemma textFramesPattern_inj (dir : string) (i1 i2 : Z) :
  0 <= i1 -> 0 <= i2 ->
  textFramesPattern dir i1 = textFramesPattern dir i2 -> i1 = i2.
Proof.
  intros H1 H2 E. unfold textFramesPattern in E. do 2 apply append_inj_l in E.
  apply append_inj_r in E. now apply fmt_d_inj.
Qed.

(** X15: two transitions of a run never share a name: the clips
    [text_transition_<i>.mp4], the frame patterns handed to [ffmpeg]
    and the frame files [text_<i>_frame_<j>.png] of different
    transitions differ, and so do two frames of one transition. *)
Theorem transitions_share_no_name (dir : string) (i1 i2 : Z) :
  0 <= i1 -> 0 <= i2 ->
  (textVideo i1 = textVideo i2 -> i1 = i2)
  /\ (textFramesPattern dir i1 = textFramesPattern dir i2 -> i1 = i2)
  /\ (forall j1 j2, 0 <= j1 -> 0 <= j2 ->
        framePath dir i1 j1 = framePath dir i2 j2 -> i1 = i2 /\ j1 = j2).
Proof.
  intros H1 H2. split; [|split].
  - now apply textVideo_inj.
  - now apply textFramesPattern_inj.
  - intros j1 j2 Hj1 Hj2. now apply framePath_inj_both.
Qed.

Lemma transitions_share_no_name_witness :
  (textVideo 1 = textVideo 11 -> 1 = 11)
  /\ (textFramesPattern "frames" 1 = textFramesPattern "frames" 11 -> 1 = 11)
  /\ (forall j1 j2, 0 <= j1 -> 0 <= j2 ->
        framePath "frames" 1 j1 = framePath "frames" 11 j2 ->
        1 = 11 /\ j1 = j2).
Proof. apply (transitions_share_no_name "frames" 1 11); lia. Defined.

Lemma indexed_from_fst {T} (k : nat) (l : list T) :
  map fst (indexed_from k l) = map Z.of_nat (seq k (List.length l)).
Proof.
  revert k. induction l as [|x l IH]; intros k; [reflexivity|].
  rewrite indexed_from_cons. simpl. now rewrite IH.
Qed.

Lemma indexed_tl_NoDup {T} (l : list T) : NoDup (map fst (tl (indexed l))).
Proof.
  destruct l as [|x l]; [constructor|]. rewrite indexed_cons. simpl.
  rewrite indexed_from_fst. apply NoDup_map_on; [|apply seq_NoDup].
  intros a b _ _. apply Nat2Z.inj.
Qed.

Lemma In_transition_frames (dir : string) (n : Z) (img : string -> Image)
    (iv : Z * string) (p : string) :
  In p (map fst (transition_frames dir n img iv)) ->
  exists j, 0 <= j /\ p = framePath dir (fst iv) j.
Proof.
  destruct iv as [i video]. unfold transition_frames. rewrite map_map. simpl.
  intros H. apply in_map_iff in H. destruct H as (j & <- & Hj).
  exists j. split; [now apply upto_In in Hj | reflexivity].
Qed.

Lemma frames_paths_NoDup (dir : string) (n : Z) (img : string -> Image)
    (l : list (Z * string)) :
  (forall iv, In iv l -> 0 <= fst iv) -> NoDup (map fst l) ->
  NoDup (map fst (flat_map (transition_frames dir n img) l)).
Proof.
  induction l as [|iv l IH]; intros Hpos Hnd; simpl; [constructor|].
  inversion Hnd as [|? ? Hnew Hrest]; subst. rewrite map_app.
  apply NoDup_app.
  - apply transition_frames_paths.
  - apply IH; [|exact Hrest]. intros iv' Hin. apply Hpos. now right.
  - intros p Hp Hq. apply In_transition_frames in Hp.
    destruct Hp as (j & Hj & ->).
    apply in_map_iff in Hq. destruct Hq as ([q img'] & Eq & Hq).
    apply in_flat_map in Hq. destruct Hq as (iv' & Hiv' & Hq).
    apply (in_map fst) in Hq. apply In_transition_frames in Hq.
    destruct Hq as (j' & Hj' & Hq). simpl in Eq, Hq. subst q.
    apply framePath_inj_both in Hq;
      [| first [assumption | apply Hpos; simpl; auto] ..].
    destruct Hq as [Ei _]. apply Hnew. rewrite Ei.
    now apply in_map.
Qed.

Lemma indexed_tl_nonneg {T} (l : list T) (iv : Z * T) :
  In iv (tl (indexed l)) -> 0 <= fst iv.
Proof.
  intros Hin. destruct iv as [i x].
  assert (H : In (i, x) (indexed l)).
  { destruct (indexed l); [destruct Hin | now right]. }
  now apply In_indexed in H.
Qed.

Lemma initial_segment_paths (a b : list (string * Image)) :
  initial_segment a b -> NoDup (map fst b) -> NoDup (map fst a).
Proof.
  intros (r & ->). rewrite map_app. apply NoDup_app_remove_r.
Qed.

(** X16: no two frames saved in a run share a file, in either
    revision and whatever fails: the paths of all the frames that
    [main] saves, over all transitions, are pairwise different, so
    that no frame overwrites another. *)
Theorem frames_of_a_run_have_distinct_paths (env : Env) (fs : list string) :
  NoDup (map fst (saved (trace (exec (VideoMerger.main env) (start fs)))))
  /\ NoDup (map fst (saved (trace (exec (Legacy.main env) (start fs))))).
Proof.
  split.
  - apply (initial_segment_paths _ (VideoMerger_frames env)).
    + apply (exec_in_order _ fs _ _ _ _ _
               (VM_main_progress env (start fs) eq_refl)).
    + apply frames_paths_NoDup;
        first [apply indexed_tl_NoDup | intros iv; apply indexed_tl_nonneg].
  - apply (initial_segment_paths _ (Legacy_frames env)).
    + apply (exec_in_order _ fs _ _ _ _ _
               (Legacy_main_progress env (start fs) eq_refl)).
    + apply frames_paths_NoDup;
        first [apply indexed_tl_NoDup | intros iv; apply indexed_tl_nonneg].
Qed.

Lemma default_output_inj (t1 t2 : Time) :
  time_ok t1 -> time_ok t2 -> default_output t1 = default_output t2 -> t1 = t2.
Proof.
  destruct t1 as [D1 M1 Y1 h1 m1 s1], t2 as [D2 M2 Y2 h2 m2 s2].
  unfold time_ok, default_output. simpl.
  intros (HD1 & HM1 & HY1 & Hh1 & Hm1 & Hs1) (HD2 & HM2 & HY2 & Hh2 & Hm2 & Hs2) E.
  apply (append_inj_l "./dest/output_") in E.
  apply (digits_then_sep "_") in E;
    [|reflexivity | now apply fmt_0d_all_digits ..].
  destruct E as [ED E]. apply fmt_0d_inj in ED; [|assumption ..].
  apply (digits_then_sep "_") in E;
    [|reflexivity | now apply fmt_0d_all_digits ..].
  destruct E as [EM E]. apply fmt_0d_inj in EM; [|assumption ..].
  apply (digits_then_sep "_") in E;
    [|reflexivity | now apply fmt_d_all_digits ..].
  destruct E as [EY E]. apply fmt_d_inj in EY; [|assumption ..].
  apply (digits_then_sep "_") in E;
    [|reflexivity | now apply fmt_0d_all_digits ..].
  destruct E as [Eh E]. apply fmt_0d_inj in Eh; [|assumption ..].
  apply (digits_then_sep "_") in E;
    [|reflexivity | now apply fmt_0d_all_digits ..].
  destruct E as [Em E]. apply fmt_0d_inj in Em; [|assumption ..].
  apply append_inj_r in E. apply fmt_0d_inj in E; [|assumption ..].
  now subst.
Qed.

(** X17: when the configuration names no output, the output path is
    built from the time of the run, and runs started at different
    times (to the second) get different output paths, in both
    revisions; an output named in the configuration is used as it
    is. *)
Theorem default_output_names_the_second (env1 env2 : Env)
    (config1 config2 : Config) :
  Output (Dest config1) = "" -> Output (Dest config2) = "" ->
  time_ok (now env1) -> time_ok (now env2) ->
  (VideoMerger.outputPath env1 config1 = VideoMerger.outputPath env2 config2 ->
   now env1 = now env2)
  /\ (Legacy.outputPath env1 config1 = Legacy.outputPath env2 config2 ->
      now env1 = now env2).
Proof.
  intros E1 E2 H1 H2.
  unfold VideoMerger.outputPath, Legacy.outputPath. rewrite E1, E2. simpl.
  split; now apply default_output_inj.
Qed.

Lemma default_output_names_the_second_witness :
  (VideoMerger.outputPath sample_env no_output_config
   = VideoMerger.outputPath later_env no_output_config ->
   now sample_env = now later_env)
  /\ (Legacy.outputPath sample_env no_output_config
      = Legacy.outputPath later_env no_output_config ->
      now sample_env = now later_env).
Proof.
  apply (default_output_names_the_second sample_env later_env
           no_output_config no_output_config);
    first [reflexivity | unfold time_ok; simpl; lia].
Defined.

(** ** The last line printed *)

(** Close the goals that [run_calls] leaves: the line [S] is not among
    the lines printed, all of which start with another byte. *)
Ltac silent :=
  repeat match goal with |- _ /\ _ => split end;
  try reflexivity;
  rewrite ?in_app_iff; cbn [In];
  intuition (try discriminate);
  match goal with
  | H : Printed _ = Printed _ |- _ =>
      injection H as H; apply (f_equal first_byte) in H; simpl in H;
      congruence
  end.

Section Silent.

Variable env : Env.
Variable S : string.
Hypothesis S_not_E : first_byte S <> Some "E"%char.
Hypothesis S_not_M : first_byte S <> Some "M"%char.
Hypothesis S_not_bracket : first_byte S <> Some "["%char.

Lemma VM_loadConfig_silent (w : World) :
  ~ In (Printed S) (trace w) ->
  wp (VideoMerger.loadConfig env)
     (fun config w' => config = config_json env /\ ~ In (Printed S) (trace w'))
     (fun w' => ~ In (Printed S) (trace w')) w.
Proof. intros Hno. unfold VideoMerger.loadConfig. run_calls; silent. Qed.

Lemma VM_loadVideos_silent (config : Config) (w : World) :
  ~ In (Printed S) (trace w) ->
  wp (VideoMerger.loadVideos env config)
     (fun _ w' => ~ In (Printed S) (trace w'))
     (fun w' => ~ In (Printed S) (trace w')) w.
Proof.
  intros Hno. unfold VideoMerger.loadVideos.
  destruct (List.length (Source config) =? 0)%nat;
    [destruct (VideoMerger.getVideoFiles env "./source") as [vs [e|]]|];
    run_calls; silent.
Qed.

Lemma VM_prepareDir_silent (config : Config) (w : World) :
  ~ In (Printed S) (trace w) ->
  wp (VideoMerger.prepareDir env config)
     (fun _ w' => ~ In (Printed S) (trace w'))
     (fun w' => ~ In (Printed S) (trace w')) w.
Proof. intros Hno. unfold VideoMerger.prepareDir. run_calls; silent. Qed.

Lemma VM_loadFont_silent (config : Config) (w : World) :
  ~ In (Printed S) (trace w) ->
  wp (VideoMerger.loadFont env config)
     (fun _ w' => ~ In (Printed S) (trace w'))
     (fun w' => ~ In (Printed S) (trace w')) w.
Proof. intros Hno. unfold VideoMerger.loadFont. run_calls; silent. Qed.

Lemma VM_generateFrames_silent (config : Config) (videos : list string)
    (face : Face) (textColor bgColor : RGBA) (w : World) :
  ~ In (Printed S) (trace w) ->
  wp (VideoMerger.generateFrames env config videos face textColor bgColor)
     (fun _ w' => ~ In (Printed S) (trace w'))
     (fun w' => ~ In (Printed S) (trace w')) w.
Proof.
  unfold VideoMerger.generateFrames.
  apply (wp_range _ _ (fun w => ~ In (Printed S) (trace w))).
  intros [i video] w0 _ H0. destruct (i =? 0); [exact H0|].
  revert w0 H0. apply (wp_range _ _ (fun w => ~ In (Printed S) (trace w))).
  intros j w1 _ H1. run_calls; silent.
Qed.

Lemma VM_createFileList_silent (w : World) :
  ~ In (Printed S) (trace w) ->
  wp (VideoMerger.createFileList env)
     (fun _ w' => ~ In (Printed S) (trace w'))
     (fun w' => ~ In (Printed S) (trace w')) w.
Proof. intros Hno. unfold VideoMerger.createFileList. run_calls; silent. Qed.

Lemma VM_appendFileList_silent (config : Config) (videos : list string)
    (tempFile : string) (w : World) :
  ~ In (Printed S) (trace w) ->
  wp (VideoMerger.appendFileList env config videos tempFile)
     (fun _ w' => ~ In (Printed S) (trace w'))
     (fun w' => ~ In (Printed S) (trace w')) w.
Proof.
  unfold VideoMerger.appendFileList.
  apply (wp_range _ _ (fun w => ~ In (Printed S) (trace w))).
  intros [i video] w0 _ H0. destruct (0 <? i); run_calls; silent.
Qed.

Lemma Legacy_loadConfig_silent (w : World) :
  ~ In (Printed S) (trace w) ->
  wp (Legacy.loadConfig env)
     (fun config w' => config = config_json env /\ ~ In (Printed S) (trace w'))
     (fun w' => ~ In (Printed S) (trace w')) w.
Proof. intros Hno. unfold Legacy.loadConfig. run_calls; silent. Qed.

Lemma Legacy_loadVideos_silent (videos : list string) (w : World) :
  ~ In (Printed S) (trace w) ->
  wp (Legacy.loadVideos env videos)
     (fun _ w' => ~ In (Printed S) (trace w'))
     (fun w' => ~ In (Printed S) (trace w')) w.
Proof.
  intros Hno. unfold Legacy.loadVideos.
  destruct (List.length videos =? 0)%nat;
    [destruct (Legacy.getVideoFiles env "./source") as [vs [e|]]|];
    run_calls; silent.
Qed.

Lemma Legacy_prepareDir_silent (dir : string) (w : World) :
  ~ In (Printed S) (trace w) ->
  wp (Legacy.prepareDir env dir)
     (fun _ w' => ~ In (Printed S) (trace w'))
     (fun w' => ~ In (Printed S) (trace w')) w.
Proof. intros Hno. unfold Legacy.prepareDir. run_calls; silent. Qed.

Lemma Legacy_loadFont_silent (fontPath : string) (fontSize : float)
    (w : World) :
  ~ In (Printed S) (trace w) ->
  wp (Legacy.loadFont env fontPath fontSize)
     (fun _ w' => ~ In (Printed S) (trace w'))
     (fun w' => ~ In (Printed S) (trace w')) w.
Proof. intros Hno. unfold Legacy.loadFont. run_calls; silent. Qed.

Lemma Legacy_generateFrames_silent (dir : string)
    (frameWidth frameHeight frameRate textDuration : Z)
    (videos : list string) (face : Face) (textColor bgColor : RGBA)
    (w : World) :
  ~ In (Printed S) (trace w) ->
  wp (Legacy.generateFrames env dir frameWidth frameHeight frameRate
        textDuration videos face textColor bgColor)
     (fun _ w' => ~ In (Printed S) (trace w'))
     (fun w' => ~ In (Printed S) (trace w')) w.
Proof.
  unfold Legacy.generateFrames.
  apply (wp_range _ _ (fun w => ~ In (Printed S) (trace w))).
  intros [i video] w0 _ H0. destruct (0 <? i); [|exact H0].
  revert w0 H0. apply (wp_range _ _ (fun w => ~ In (Printed S) (trace w))).
  intros j w1 _ H1. run_calls; silent.
Qed.

Lemma Legacy_createFileList_silent (w : World) :
  ~ In (Printed S) (trace w) ->
  wp (Legacy.createFileList env)
     (fun _ w' => ~ In (Printed S) (trace w'))
     (fun w' => ~ In (Printed S) (trace w')) w.
Proof. intros Hno. unfold Legacy.createFileList. run_calls; silent. Qed.

Lemma Legacy_appendFileList_silent (dir : string) (frameRate : Z)
    (videos : list string) (tempFile : string) (w : World) :
  ~ In (Printed S) (trace w) ->
  wp (Legacy.appendFileList env dir frameRate videos tempFile)
     (fun _ w' => ~ In (Printed S) (trace w'))
     (fun w' => ~ In (Printed S) (trace w')) w.
Proof.
  unfold Legacy.appendFileList.
  apply (wp_range _ _ (fun w => ~ In (Printed S) (trace w))).
  intros [i video] w0 _ H0. destruct (0 <? i); run_calls; silent.
Qed.

End Silent.

Lemma VideoMerger_success_first (output : string) :
  first_byte (VideoMerger_success output) = Some (ascii_of_nat 195).
Proof. reflexivity. Qed.

Lemma Legacy_success_first (output : string) :
  first_byte (Legacy_success output) = Some "V"%char.
Proof. reflexivity. Qed.

Lemma Legacy_success_longer (output : string) :
  output ++ nl <> Legacy_success output.
Proof.
  intros E. apply (f_equal String.length) in E. unfold Legacy_success in E.
  rewrite !append_length in E. simpl in E. lia.
Qed.

Lemma VM_mergeVideos_announces (env : Env) (tempFile output : string)
    (w : World) :
  ~ In (Printed (VideoMerger_success output)) (trace w) ->
  wp (VideoMerger.mergeVideos env tempFile output)
     (fun _ w' => In (Printed (VideoMerger_success output)) (trace w'))
     (fun w' => ~ In (Printed (VideoMerger_success output)) (trace w')) w.
Proof.
  intros Hno. pose proof (VideoMerger_success_first output) as Hf.
  unfold VideoMerger.mergeVideos. run_calls.
  - silent.
  - silent.
  - apply in_or_app. right. left. reflexivity.
Qed.

Lemma Legacy_mergeVideos_announces (env : Env) (tempFile output : string)
    (w : World) :
  ~ In (Printed (Legacy_success output)) (trace w) ->
  wp (Legacy.mergeVideos env tempFile output)
     (fun _ w' => In (Printed (Legacy_success output)) (trace w'))
     (fun w' => ~ In (Printed (Legacy_success output)) (trace w')) w.
Proof.
  intros Hno. pose proof (Legacy_success_first output) as Hf.
  pose proof (Legacy_success_longer output) as Hl.
  unfold Legacy.mergeVideos. run_calls.
  - silent.
  - rewrite ?in_app_iff; cbn [In].
    intuition (try discriminate);
      match goal with
      | H : Printed _ = Printed _ |- _ =>
          injection H as H;
          first [ contradiction
                | apply (f_equal first_byte) in H; simpl in H; congruence ]
      end.
  - apply in_or_app. right. left. reflexivity.
Qed.

(** Run a piece of [main] that does not print the last line. *)
Ltac keep_silent L :=
  eapply wp_seq;
  [ apply L; first [assumption | now rewrite ?VideoMerger_success_first
                   | now rewrite ?Legacy_success_first ]
  | cbv beta; intros ? ? ? ].

Lemma VM_main_announces (env : Env) (w : World) :
  trace w = [] ->
  let S := VideoMerger_success
             (VideoMerger.outputPath env (config_json env)) in
  wp (VideoMerger.main env)
     (fun _ w' => In (Printed S) (trace w'))
     (fun w' => ~ In (Printed S) (trace w')) w.
Proof.
  intros Hw S. assert (H0 : ~ In (Printed S) (trace w)) by now rewrite Hw.
  subst S. unfold VideoMerger.main.
  eapply wp_seq;
    [ apply VM_loadConfig_silent;
      first [exact H0 | now rewrite VideoMerger_success_first]
    | cbv beta; intros ? ? [-> ?] ].
  keep_silent VM_loadVideos_silent. unfold VideoMerger.pipeline.
  keep_silent VM_prepareDir_silent. keep_silent VM_loadFont_silent.
  keep_silent VM_generateFrames_silent. keep_silent VM_createFileList_silent.
  keep_silent VM_appendFileList_silent.
  now apply VM_mergeVideos_announces.
Qed.

Lemma Legacy_main_announces (env : Env) (w : World) :
  trace w = [] ->
  let S := Legacy_success (Legacy.outputPath env (config_json env)) in
  wp (Legacy.main env)
     (fun _ w' => In (Printed S) (trace w'))
     (fun w' => ~ In (Printed S) (trace w')) w.
Proof.
  intros Hw S. assert (H0 : ~ In (Printed S) (trace w)) by now rewrite Hw.
  subst S. unfold Legacy.main.
  eapply wp_seq;
    [ apply Legacy_loadConfig_silent;
      first [exact H0 | now rewrite Legacy_success_first]
    | cbv beta; intros ? ? [-> ?] ].
  cbv zeta. keep_silent Legacy_loadVideos_silent.
  unfold Legacy.pipeline. cbv zeta.
  keep_silent Legacy_prepareDir_silent. keep_silent Legacy_loadFont_silent.
  keep_silent Legacy_generateFrames_silent.
  keep_silent Legacy_createFileList_silent.
  keep_silent Legacy_appendFileList_silent.
  now apply Legacy_mergeVideos_announces.
Qed.

Lemma exec_announces (body : M unit) (fs : list string) (S : string) :
  wp body (fun _ w' => In (Printed S) (trace w'))
       (fun w' => ~ In (Printed S) (trace w')) (start fs) ->
  In (Printed S) (trace (exec body (start fs)))
  <-> fst (body (start fs)) = Some tt.
Proof.
  unfold wp, exec. cbv zeta. rewrite run_deferred_trace.
  assert (HR : forall tr ds, In (Printed S) (tr ++ map Ran ds)
                             <-> In (Printed S) tr).
  { intros tr ds. rewrite in_app_iff. split; [|now left].
    intros [H|H]; [exact H|]. apply in_map_iff in H.
    now destruct H as (d & [=] & _). }
  rewrite HR. destruct (body (start fs)) as [[[]|] w']; cbn [fst snd];
    intros H; split; intros H'; try reflexivity; try assumption;
    try contradiction; discriminate.
Qed.

(** X18: [main] prints its line of success -- the last line of the
    source, with the output path -- in the runs that reach the end of
    [main] and in no other: a run that stops early, whatever fails,
    never prints it.  This holds in both revisions. *)
Theorem success_is_printed_iff_finished (env : Env) (fs : list string) :
  let config := config_json env in
  (In (Printed (VideoMerger_success (VideoMerger.outputPath env config)))
      (trace (exec (VideoMerger.main env) (start fs)))
   <-> fst (VideoMerger.main env (start fs)) = Some tt)
  /\ (In (Printed (Legacy_success (Legacy.outputPath env config)))
         (trace (exec (Legacy.main env) (start fs)))
      <-> fst (Legacy.main env (start fs)) = Some tt).
Proof.
  intros config. split; apply exec_announces.
  - now apply VM_main_announces.
  - now apply Legacy_main_announces.
Qed.

(** ** A frame count that is not positive *)

Lemma range_nothing {T} (l : list T) (body : T -> M unit) (w : World) :
  (forall x w', In x l -> body x w' = (Some tt, w')) ->
  range l body w = (Some tt, w).
Proof.
  induction l as [|x l IH]; intros H; simpl; [reflexivity|].
  unfold bind. rewrite H by now left. apply IH. intros y w' Hy. apply H.
  now right.
Qed.

Lemma upto_nonpositive (n : Z) : n <= 0 -> upto n = [].
Proof. intros H. unfold upto. now replace (Z.to_nat n) with O by lia. Qed.

(** X19: when the frame count, rate times duration in Go's 64-bit
    [int], is zero or negative, the frame loop of either revision
    makes no call and saves nothing, and [main] goes on to the file
    list, where it still asks [ffmpeg] for one clip per transition. *)
Theorem no_frame_without_duration (env : Env) (config : Config)
    (videos : list string) (face : Face) (textColor bgColor : RGBA)
    (w : World) :
  int_mul (Rate (Frame config)) (Duration (Text config)) <= 0 ->
  VideoMerger.generateFrames env config videos face textColor bgColor w
  = (Some tt, w)
  /\ Legacy.generateFrames env (IntermediateTextDir (Dest config))
       (Width (Frame config)) (Height (Frame config)) (Rate (Frame config))
       (Duration (Text config)) videos face textColor bgColor w
     = (Some tt, w).
Proof.
  intros Hn. split.
  - unfold VideoMerger.generateFrames. apply range_nothing.
    intros [i video] w' _. destruct (i =? 0); [reflexivity|].
    unfold VideoMerger.numFrames. now rewrite upto_nonpositive.
  - unfold Legacy.generateFrames. apply range_nothing.
    intros [i video] w' _. destruct (0 <? i); [|reflexivity].
    now rewrite upto_nonpositive.
Qed.

Lemma no_frame_without_duration_witness :
  VideoMerger.generateFrames sample_env no_duration_config
    ["source/a.mp4"; "source/b.mp4"] sample_face black black (start [])
  = (Some tt, start [])
  /\ Legacy.generateFrames sample_env "frames" 1280 720 30 0
       ["source/a.mp4"; "source/b.mp4"] sample_face black black (start [])
     = (Some tt, start []).
Proof.
  apply (no_frame_without_duration sample_env no_duration_config
           ["source/a.mp4"; "source/b.mp4"] sample_face black black (start [])).
  vm_compute. discriminate.
Defined.

(** ** The frames of a run that stops early *)

(** X20: in every run of either revision, whatever fails, the frames
    saved with success are the first frames of the run in the order
    of the source -- transition by transition and, in a transition,
    by frame number: a frame is saved only once all the frames before
    it are, and a run that stops early leaves an initial segment of
    the frames of the whole run. *)
Theorem saved_frames_are_the_first (env : Env) (fs : list string) :
  initial_segment (saved (trace (exec (VideoMerger.main env) (start fs))))
    (VideoMerger_frames env)
  /\ initial_segment (saved (trace (exec (Legacy.main env) (start fs))))
       (Legacy_frames env).
Proof.
  split.
  - apply (exec_in_order _ fs _ _ _ _ _
             (VM_main_progress env (start fs) eq_refl)).
  - apply (exec_in_order _ fs _ _ _ _ _
             (Legacy_main_progress env (start fs) eq_refl)).
Qed.

Example second_frame_fails :
  saved (trace (exec (VideoMerger.main
                        (two_videos_env
                           (fun k => if (k =? 5)%nat then Some "disk full"
                                     else None)))
                     (start [])))
  = firstn 1 (VideoMerger_frames (two_videos_env succeed)).
Proof. vm_compute. reflexivity. Qed.
